(** * kitty-tab-switcher: key decoder, switcher loop, MRU and block previews

    A shallow embedding of [tab_switcher.py] and [preview_gen.py], and the
    properties of the key decoder, of the modifier oracle path of the event
    loop, of MRU reconciliation and commit, of the block renderer and its
    cell parser, and of the titles and the layout of the cards.

    Conventions of the embedding.
    - Python [int] is [Z]; Python [bytes] is [list byte]; Python [str] is a
      list of code points ([list N]).
    - Python [float] is [Q].  Every float operation of the embedded
      functions is a comparison, a [max], a difference of clock readings, or
      a quotient of two non-negative integers that is compared with a
      constant or truncated by [int].  For grids of fewer than 2^26 rows and
      columns the rounded quotient compares with 0.2 and 0.35 as the exact
      one does, and [int(a * b / c)] is the integer quotient, so the
      rationals give the results of the floats.
    - A [dict] is an association list in insertion order: the code sorts
      and takes maxima over [dict.items()], whose order is observable.
    - A function that can raise returns [result]; [draw], which changes the
      state before it raises, returns the state and the exception.
    - Every call of [time.time()] has its own reading: the world gives one
      for each place an iteration of the event loop reads the clock at.
      The order in which a loop visits a [set] is the world's as well.
    - What [draw] writes to the terminal is recorded as an effect; the
      previews are rendered, since the renderer can raise.  Failures of
      the terminal and of the files are not modelled. *)

From Stdlib Require Import ZArith NArith QArith Qminmax List Bool Lia Lqa.
From Stdlib.Strings Require Import Byte.
From Stdlib Require Import Sorted Permutation.
Import ListNotations.
Local Open Scope Z_scope.

(** ** Python primitives used by the sources *)
Module Py.

Inductive exn : Set := ValueError | OSError.

Inductive result (A : Type) : Type :=
| Ok (a : A)
| Raise (e : exn).
Arguments Ok {A} a.
Arguments Raise {A} e.

Definition bind {A B} (r : result A) (k : A -> result B) : result B :=
  match r with
  | Ok a => k a
  | Raise e => Raise e
  end.

(** [str]: a sequence of code points. *)
Definition str : Type := list N.

Definition str_eqb (a b : str) : bool :=
  if list_eq_dec N.eq_dec a b then true else false.

(** [bytes.decode("ascii", "ignore")]: bytes above 0x7f are dropped. *)
Definition decode_ascii_ignore (b : list byte) : str :=
  filter (fun c => c <? 128)%N (map Byte.to_N b).

(** [str.isspace] on the ASCII range. *)
Definition ascii_isspace (c : N) : bool :=
  ((9 <=? c) && (c <=? 13) || (28 <=? c) && (c <=? 32))%N.

(** The whitespace [int()] skips around an ASCII literal. *)
Definition c_isspace (c : N) : bool :=
  ((9 <=? c) && (c <=? 13) || (c =? 32))%N.

Fixpoint lstrip (sp : N -> bool) (s : str) : str :=
  match s with
  | [] => []
  | c :: r => if sp c then lstrip sp r else s
  end.

Definition strip (sp : N -> bool) (s : str) : str :=
  rev (lstrip sp (rev (lstrip sp s))).

(** [s.split(sep)] for a one-character separator. *)
Fixpoint split (sep : N) (s : str) : list str :=
  match s with
  | [] => [[]]
  | c :: r =>
      if (c =? sep)%N then [] :: split sep r
      else match split sep r with
           | h :: t => (c :: h) :: t
           | [] => [[c]]
           end
  end.

(** [s.split(sep, 1)] when [sep in s]: the text before and after the first
    separator; [None] when [sep] does not occur. *)
Fixpoint split_once (sep : N) (s : str) : option (str * str) :=
  match s with
  | [] => None
  | c :: r =>
      if (c =? sep)%N then Some ([], r)
      else match split_once sep r with
           | Some (a, b) => Some (c :: a, b)
           | None => None
           end
  end.

Definition ascii_digit (c : N) : option N :=
  if ((48 <=? c) && (c <=? 57))%N then Some (c - 48)%N else None.

(** Digits of a base-10 literal; single underscores may separate digits. *)
Fixpoint int_digits (acc : N) (after_digit : bool) (s : str) : option N :=
  match s with
  | [] => if after_digit then Some acc else None
  | c :: r =>
      match ascii_digit c with
      | Some d => int_digits (acc * 10 + d) true r
      | None =>
          if (c =? 95)%N && after_digit then int_digits acc false r
          else None
      end
  end.

Definition int_signed (s : str) : option Z :=
  match s with
  | c :: r =>
      if (c =? 43)%N then option_map Z.of_N (int_digits 0 false r)
      else if (c =? 45)%N
           then option_map (fun n => - Z.of_N n) (int_digits 0 false r)
           else option_map Z.of_N (int_digits 0 false s)
  | [] => None
  end.

(** [int(s)] for an ASCII [s]: surrounding whitespace, an optional sign,
    decimal digits.  Anything else is a [ValueError].  (The limit on the
    number of digits of recent interpreters, 4300 by default, is not
    modelled.) *)
Definition int_ascii (s : str) : result Z :=
  match int_signed (strip c_isspace s) with
  | Some z => Ok z
  | None => Raise ValueError
  end.

(** [str(n)] for a non-negative integer, least significant digit last. *)
Fixpoint digits_of (fuel : nat) (n : N) (acc : str) : str :=
  match fuel with
  | O => acc
  | S f =>
      let acc' := (48 + n mod 10)%N :: acc in
      if (n / 10 =? 0)%N then acc' else digits_of f (n / 10)%N acc'
  end.

Definition str_of_N (n : N) : str := digits_of (S (N.to_nat (N.size n))) n [].

Definition str_of_Z (z : Z) : str :=
  if z <? 0 then 45%N :: str_of_N (Z.to_N (- z)) else str_of_N (Z.to_N z).

(** [range(lo, hi)]. *)
Definition range (lo hi : Z) : list Z :=
  map (fun k => lo + Z.of_nat k) (seq 0 (Z.to_nat (hi - lo))).

Definition len {A} (l : list A) : Z := Z.of_nat (length l).

(** [l[i]] for [0 <= i], with the default outside the list. *)
Definition get {A} (l : list A) (i : Z) (d : A) : A :=
  if i <? 0 then d else nth (Z.to_nat i) l d.

(** ** Dictionaries: association lists in insertion order *)
Section Dict.
Context {V : Type}.

Fixpoint dict_get (d : list (Z * V)) (k : Z) : option V :=
  match d with
  | [] => None
  | (k', v) :: r => if k' =? k then Some v else dict_get r k
  end.

(** [d[k] = v]: an existing key keeps its position. *)
Fixpoint dict_set (d : list (Z * V)) (k : Z) (v : V) : list (Z * V) :=
  match d with
  | [] => [(k, v)]
  | (k', v') :: r =>
      if k' =? k then (k', v) :: r else (k', v') :: dict_set r k v
  end.

Definition dict_mem (d : list (Z * V)) (k : Z) : bool :=
  match dict_get d k with Some _ => true | None => false end.
End Dict.

End Py.

(** ** The key decoder ([read_key], [parse_csi_u]) and [ctrl_is_down] *)
Module Keys.
Import Py.

Definition TAB_CODE : Z := 9.
Definition ESC_CODE : Z := 27.
Definition CTRL_KEY_CODES : list Z := [57442; 57448].
Definition MARKER_KEY_CODE : Z := 57387.

Record KeyEvent : Set := mkKeyEvent {
  key_code : Z;
  mods : Z;
  event_type : Z
}.

(** The properties [KeyEvent.shift] and [KeyEvent.ctrl]. *)
Definition shift (ev : KeyEvent) : bool := negb (Z.land (mods ev - 1) 1 =? 0).
Definition ctrl (ev : KeyEvent) : bool := negb (Z.land (mods ev - 1) 4 =? 0).

(** What one read of the terminal yields: a byte, nothing (end of input for
    [os.read], an expired timeout for [read_with_timeout]), or an
    [OSError]. A source that is used up yields nothing. *)
Inductive read_ev : Set :=
| Data (b : byte)
| NoData
| ReadError.

Definition source : Set := list read_ev.

Definition next_read (src : source) : read_ev * source :=
  match src with
  | [] => (NoData, [])
  | e :: r => (e, r)
  end.

(** [read_with_timeout]: [b""] is [None]; an [OSError] is not caught. *)
Definition read_with_timeout (src : source) : result (option byte) * source :=
  match next_read src with
  | (Data b, r) => (Ok (Some b), r)
  | (NoData, r) => (Ok None, r)
  | (ReadError, r) => (Raise OSError, r)
  end.

Definition is_final (ch : byte) : bool :=
  ((64 <=? Byte.to_N ch) && (Byte.to_N ch <=? 126))%N.

(** The [while True] loop of [read_key] that collects the sequence.  The
    buffer grows by one byte per round and the loop leaves when it holds
    more than 64, so 64 rounds of fuel are never used up. *)
Fixpoint read_seq (fuel : nat) (buf : list byte) (src : source)
  : result (list byte) * source :=
  match fuel with
  | O => (Ok buf, src)
  | S f =>
      match read_with_timeout src with
      | (Raise e, r) => (Raise e, r)
      | (Ok None, r) => (Ok buf, r)
      | (Ok (Some ch), r) =>
          let buf' := buf ++ [ch] in
          if is_final ch then (Ok buf', r)
          else if (64 <? length buf')%nat then (Ok buf', r)
          else read_seq f buf' r
      end
  end.

Definition endswith (buf : list byte) (b : byte) : bool :=
  match rev buf with
  | x :: _ => Byte.eqb x b
  | [] => false
  end.

(** [buf[2:-1]]. *)
Definition payload_of (buf : list byte) : list byte :=
  removelast (skipn 2 buf).

Definition or_default (s : str) (d : Z) : result Z :=
  match s with
  | [] => Ok d
  | _ => int_ascii s
  end.

Definition parse_csi_u (buf : list byte) : result (option KeyEvent) :=
  let payload := decode_ascii_ignore (payload_of buf) in
  match payload with
  | [] => Ok None
  | _ =>
      let parts := split 59 payload in
      let key_field := hd [] parts in
      bind (or_default (hd [] (split 58 key_field)) 0) (fun key_code =>
      match tl parts with
      | mod_field :: _ =>
          match mod_field with
          | [] => Ok (Some (mkKeyEvent key_code 1 1))
          | _ =>
              match split_once 58 mod_field with
              | Some (mods_str, ev_str) =>
                  bind (or_default mods_str 1) (fun mods =>
                  bind (or_default ev_str 1) (fun event_type =>
                  Ok (Some (mkKeyEvent key_code mods event_type))))
              | None =>
                  bind (int_ascii mod_field) (fun mods =>
                  Ok (Some (mkKeyEvent key_code mods 1)))
              end
          end
      | [] => Ok (Some (mkKeyEvent key_code 1 1))
      end)
  end.

Definition escape_key : option KeyEvent := Some (mkKeyEvent ESC_CODE 1 1).

(** The part of [read_key] after the sequence has been collected. *)
Definition interpret_seq (buf : list byte) : result (option KeyEvent) :=
  if endswith buf "Z"%byte then Ok (Some (mkKeyEvent (- TAB_CODE) 2 1))
  else if endswith buf "I"%byte then Ok (Some (mkKeyEvent TAB_CODE 1 1))
  else
    let params := strip ascii_isspace (decode_ascii_ignore (payload_of buf)) in
    if endswith buf "~"%byte && str_eqb params [57%N]
    then Ok (Some (mkKeyEvent TAB_CODE 1 1))
    else if endswith buf "~"%byte && str_eqb params [50%N; 52%N]
    then Ok (Some (mkKeyEvent MARKER_KEY_CODE 1 1))
    else if negb (endswith buf "u"%byte) then Ok escape_key
    else parse_csi_u buf.

Definition read_key (src : source) : result (option KeyEvent) * source :=
  match next_read src with
  | (ReadError, r) => (Ok None, r)
  | (NoData, r) => (Ok None, r)
  | (Data first, r) =>
      if Byte.eqb first "009"%byte then (Ok (Some (mkKeyEvent TAB_CODE 1 1)), r)
      else if negb (Byte.eqb first "027"%byte)
      then (Ok (Some (mkKeyEvent (Z.of_N (Byte.to_N first)) 1 1)), r)
      else
        match read_with_timeout r with
        | (Raise e, r1) => (Raise e, r1)
        | (Ok None, r1) => (Ok escape_key, r1)
        | (Ok (Some nxt), r1) =>
            if negb (Byte.eqb nxt "["%byte) then (Ok escape_key, r1)
            else
              match read_seq 64 ["027"; "["]%byte r1 with
              | (Raise e, r2) => (Raise e, r2)
              | (Ok buf, r2) => (interpret_seq buf, r2)
              end
        end
  end.

(** [ctrl_is_down]. *)
Definition ctrl_is_down (mods ctrl_mask : Z) : bool :=
  if negb (Z.land mods ctrl_mask =? 0) then true
  else if (0 <? mods) && negb (Z.land (mods - 1) 4 =? 0) then true
  else false.

(** The structured key report [ESC [ key[:alt][;mods[:event]] u] as a
    terminal sends it: every field in decimal. *)
Record KeyReport : Set := mkKeyReport {
  kr_key : N;
  kr_alt : option N;
  kr_mods : option (N * option N)
}.

Definition byte_of_char (c : N) : byte :=
  match Byte.of_N c with Some b => b | None => "000"%byte end.

Definition report_payload (k : KeyReport) : str :=
  str_of_N (kr_key k)
  ++ match kr_alt k with Some a => 58%N :: str_of_N a | None => [] end
  ++ match kr_mods k with
     | Some (m, e) =>
         59%N :: str_of_N m
         ++ match e with Some e' => 58%N :: str_of_N e' | None => [] end
     | None => []
     end.

Definition encode_report (k : KeyReport) : list byte :=
  ["027"; "["]%byte ++ map byte_of_char (report_payload k) ++ ["u"%byte].

Definition report_mods (k : KeyReport) : Z :=
  match kr_mods k with Some (m, _) => Z.of_N m | None => 1 end.

Definition report_event (k : KeyReport) : Z :=
  match kr_mods k with Some (_, Some e) => Z.of_N e | _ => 1 end.

End Keys.

(** ** Block previews ([preview_gen.py]): the ANSI cell parser *)
Module Preview.
Import Py.

Definition rgb : Type := Z * Z * Z.

(** A cell: the glyph (one character, or empty for the second half of a
    wide glyph), the foreground and the background colour. *)
Definition cell : Type := str * option rgb * option rgb.

Definition glyph (c : cell) : str := fst (fst c).
Definition cell_fg (c : cell) : option rgb := snd (fst c).
Definition cell_bg (c : cell) : option rgb := snd c.

(** The tables of [unicodedata] and of [str.isdigit], [str.isspace] and
    [int] for the code points above Latin-1; below 256 the embedding has
    them written out. *)
Record unicode_db : Type := mkUnicode {
  ud_combining : N -> bool;
  ud_powerline : N -> bool;
  ud_wide : N -> bool;
  ud_isdigit : N -> bool;
  ud_decimal : N -> option N;
  ud_isspace : N -> bool
}.

Section WithUnicode.
Variable U : unicode_db.

(** [str.isspace] of one character. *)
Definition py_isspace (c : N) : bool :=
  if (c <? 128)%N then ascii_isspace c
  else if (c <? 256)%N then (c =? 133)%N || (c =? 160)%N
  else ud_isspace U c.

(** [str.isdigit] of one character: below 256 the decimal digits and the
    superscripts two, three and one. *)
Definition py_isdigit_char (c : N) : bool :=
  if (c <? 256)%N
  then ((48 <=? c) && (c <=? 57))%N || (c =? 178)%N || (c =? 179)%N
       || (c =? 185)%N
  else ud_isdigit U c.

(** The value of a decimal digit character, as [int] reads it. *)
Definition py_decimal (c : N) : option N :=
  if (c <? 256)%N then ascii_digit c else ud_decimal U c.

Definition isdigit (s : str) : bool :=
  match s with
  | [] => false
  | _ => forallb py_isdigit_char s
  end.

(** [int(s)] of a [str]: characters outside ASCII are first read as a space
    or as their decimal digit, and make the literal invalid otherwise. *)
Definition to_ascii_literal (s : str) : str :=
  map (fun c => if (c <? 127)%N then c
                else if py_isspace c then 32%N
                else match py_decimal c with
                     | Some d => (48 + d)%N
                     | None => 63%N
                     end) s.

Definition py_int (s : str) : result Z := int_ascii (to_ascii_literal s).

(** [bool(s.strip())]. *)
Definition has_visible (s : str) : bool := existsb (fun c => negb (py_isspace c)) s.

Definition _ansi_8_color (code : Z) : option rgb :=
  if code =? 30 then Some (0, 0, 0)
  else if code =? 31 then Some (205, 49, 49)
  else if code =? 32 then Some (13, 188, 121)
  else if code =? 33 then Some (229, 229, 16)
  else if code =? 34 then Some (36, 114, 200)
  else if code =? 35 then Some (188, 63, 188)
  else if code =? 36 then Some (17, 168, 205)
  else if code =? 37 then Some (229, 229, 229)
  else if code =? 90 then Some (102, 102, 102)
  else if code =? 91 then Some (241, 76, 76)
  else if code =? 92 then Some (35, 209, 139)
  else if code =? 93 then Some (245, 245, 67)
  else if code =? 94 then Some (59, 142, 234)
  else if code =? 95 then Some (214, 112, 214)
  else if code =? 96 then Some (41, 184, 219)
  else if code =? 97 then Some (229, 229, 229)
  else None.

Definition or_else {A} (a b : option A) : option A :=
  match a with Some _ => a | None => b end.

Definition level (n : Z) : Z := if n =? 0 then 0 else 55 + n * 40.

Definition _ansi_256_color (code : Z) : option rgb :=
  if (code <? 0) || (255 <? code) then None
  else if code <? 16
  then or_else (_ansi_8_color (30 + code)) (_ansi_8_color (90 + (code - 8)))
  else if code <=? 231
  then let c := code - 16 in
       Some (level ((c / 36) mod 6), level ((c / 6) mod 6), level (c mod 6))
  else let gray := 8 + (code - 232) * 10 in Some (gray, gray, gray).

Definition _rgb_from_8bit (code : Z) : option rgb := _ansi_8_color code.

Definition _is_private_use (c : N) : bool :=
  ((57344 <=? c) && (c <=? 63743) || (983040 <=? c) && (c <=? 1048573)
   || (1048576 <=? c) && (c <=? 1114109))%N.

Definition combining (c : N) : bool :=
  if (c <? 256)%N then false else ud_combining U c.
Definition powerline (c : N) : bool :=
  if (c <? 256)%N then false else ud_powerline U c.
Definition east_asian_wide (c : N) : bool :=
  if (c <? 256)%N then false else ud_wide U c.

(** [_char_width] of one character. *)
Definition _char_width (c : N) : Z :=
  if (c =? 9)%N then 4
  else if combining c then 0
  else if powerline c then 2
  else if _is_private_use c then 2
  else if east_asian_wide c then 2
  else if ((c <? 32) || (c =? 127))%N then 0
  else 1.

(** [line.find(c, start)]. *)
Fixpoint find_char (c : N) (l : str) (start : nat) : option nat :=
  match start, l with
  | O, [] => None
  | O, x :: r =>
      if (x =? c)%N then Some O else option_map S (find_char c r O)
  | S n, [] => None
  | S n, _ :: r => option_map S (find_char c r n)
  end.

(** [line.find(a + b, start)] for a two-character needle. *)
Fixpoint find_pair (a b : N) (l : str) (start : nat) : option nat :=
  match start, l with
  | O, x :: ((y :: _) as r) =>
      if ((x =? a) && (y =? b))%N then Some O
      else option_map S (find_pair a b r O)
  | O, _ => None
  | S n, [] => None
  | S n, _ :: r => option_map S (find_pair a b r n)
  end.

(** [line[a:b]]. *)
Definition slice (l : str) (a b : nat) : str := firstn (b - a) (skipn a l).

Definition nonempty (s : str) : bool := match s with [] => false | _ => true end.

(** The parameters of an SGR sequence: split at [;], then at [:], empty
    pieces dropped. *)
Definition sgr_parts (seq : str) : list str :=
  flat_map (fun part => filter nonempty (split 58 part))
           (filter nonempty (split 59 seq)).

Definition part_at (parts : list str) (j : nat) : str := nth j parts [].

Definition try_int (s : str) : option Z :=
  match py_int s with Ok z => Some z | Raise _ => None end.

(** The colour of [38;2;r;g;b] or [38;5;n] at position [j]: the new colour
    and the parameters consumed, or nothing when the form is not there.  A
    number that does not parse leaves the colour as it was. *)
Definition extended_color (parts : list str) (j : nat) (old : option rgb)
  : option (option rgb * nat) :=
  if (S j <? length parts)%nat && str_eqb (part_at parts (S j)) [50%N]
     && (j + 4 <? length parts)%nat
  then
    Some (match try_int (part_at parts (j + 2)),
                try_int (part_at parts (j + 3)),
                try_int (part_at parts (j + 4)) with
          | Some r, Some g, Some b => Some (r, g, b)
          | _, _, _ => old
          end, 4%nat)
  else if (S j <? length parts)%nat && str_eqb (part_at parts (S j)) [53%N]
          && (j + 2 <? length parts)%nat
  then
    Some (match try_int (part_at parts (j + 2)) with
          | Some idx => _ansi_256_color idx
          | None => old
          end, 2%nat)
  else None.

(** The [while j < len(parts)] loop over the SGR parameters. *)
Fixpoint sgr_loop (fuel : nat) (parts : list str) (j : nat)
  (fg bg : option rgb) : result (option rgb * option rgb) :=
  match fuel with
  | O => Ok (fg, bg)
  | S f =>
      if (length parts <=? j)%nat then Ok (fg, bg)
      else
        let code := part_at parts j in
        if str_eqb code [48%N] then sgr_loop f parts (S j) None None
        else if str_eqb code [51%N; 57%N] then sgr_loop f parts (S j) None bg
        else if str_eqb code [52%N; 57%N] then sgr_loop f parts (S j) fg None
        else if str_eqb code [51%N; 56%N] then
          match extended_color parts j fg with
          | Some (fg', used) => sgr_loop f parts (S (j + used)) fg' bg
          | None => sgr_loop f parts (S j) fg bg
          end
        else if str_eqb code [52%N; 56%N] then
          match extended_color parts j bg with
          | Some (bg', used) => sgr_loop f parts (S (j + used)) fg bg'
          | None => sgr_loop f parts (S j) fg bg
          end
        else if isdigit code then
          bind (py_int code) (fun cval =>
            if ((30 <=? cval) && (cval <=? 37)) || ((90 <=? cval) && (cval <=? 97))
            then sgr_loop f parts (S j) (_ansi_8_color cval) bg
            else if ((40 <=? cval) && (cval <=? 47))
                    || ((100 <=? cval) && (cval <=? 107))
            then sgr_loop f parts (S j) fg (_ansi_8_color (cval - 10))
            else if (0 <=? cval) && (cval <=? 7)
            then sgr_loop f parts (S j) (_rgb_from_8bit (30 + cval)) bg
            else sgr_loop f parts (S j) fg bg)
        else sgr_loop f parts (S j) fg bg
  end.

(** The state of the scan of one line. *)
Record scan : Type := mkScan {
  sc_fg : option rgb;
  sc_bg : option rgb;
  sc_col : Z;
  sc_cur : list cell
}.

Definition char_at (line : str) (i : nat) : N := nth i line 0%N.

(** The [while i < len(line)] loop of [parse_ansi_lines] over one line.
    Every round moves [i] forward, so [length line] rounds of fuel are
    enough. *)
Fixpoint scan_line (fuel : nat) (line : str) (i : nat) (st : scan)
  : result scan :=
  match fuel with
  | O => Ok st
  | S f =>
      if (length line <=? i)%nat then Ok st
      else
        let ch := char_at line i in
        let follows c :=
          (S i <? length line)%nat && (char_at line (S i) =? c)%N in
        if (ch =? 27)%N && follows 93%N then
          match find_char 7 line (i + 2), find_pair 27 92 line (i + 2) with
          | None, None => Ok st
          | None, Some e_st => scan_line f line (e_st + 2) st
          | Some e_bel, None => scan_line f line (e_bel + 1) st
          | Some e_bel, Some e_st =>
              scan_line f line (Nat.min (e_bel + 1) (e_st + 2)) st
          end
        else if (ch =? 27)%N && follows 91%N then
          match find_char 109 line (i + 2) with
          | None => scan_line f line (S i) st
          | Some e =>
              let parts := sgr_parts (slice line (i + 2) e) in
              match parts with
              | [] => scan_line f line (S e)
                        (mkScan None None (sc_col st) (sc_cur st))
              | _ =>
                  match sgr_loop (length parts) parts 0 (sc_fg st) (sc_bg st) with
                  | Raise x => Raise x
                  | Ok (fg, bg) =>
                      scan_line f line (S e)
                        (mkScan fg bg (sc_col st) (sc_cur st))
                  end
              end
          end
        else if (ch =? 9)%N then
          let spaces := 8 - (sc_col st) mod 8 in
          scan_line f line (S i)
            (mkScan (sc_fg st) (sc_bg st) (sc_col st + spaces)
               (sc_cur st
                ++ repeat ([32%N], sc_fg st, sc_bg st) (Z.to_nat spaces)))
        else if (ch =? 13)%N then
          scan_line f line (S i)
            (mkScan (sc_fg st) (sc_bg st) 0 (sc_cur st))
        else
          let width := _char_width ch in
          if width =? 0 then scan_line f line (S i) st
          else
            let fg := if _is_private_use ch then None else sc_fg st in
            let g := if _is_private_use ch then [32%N] else [ch] in
            let cur := sc_cur st ++ [(g, fg, sc_bg st)] in
            if width =? 2
            then scan_line f line (S i)
                   (mkScan fg (sc_bg st) (sc_col st + 2)
                      (cur ++ [([], fg, sc_bg st)]))
            else scan_line f line (S i)
                   (mkScan fg (sc_bg st) (sc_col st + 1) cur)
  end.

(** One line of [parse_ansi_lines]: the colours start unset. *)
Definition parse_ansi_line (line : str) : result (list cell) :=
  bind (scan_line (length line) line 0 (mkScan None None 0 []))
       (fun st => Ok (sc_cur st)).

Fixpoint parse_ansi_lines (lines : list str) : result (list (list cell)) :=
  match lines with
  | [] => Ok []
  | line :: rest =>
      bind (parse_ansi_line line) (fun row =>
      bind (parse_ansi_lines rest) (fun rows => Ok (row :: rows)))
  end.

(** ** Block previews: downsampling and rendering *)

Definition FILL_THRESHOLD : Q := 2 # 10.
Definition COLOR_THRESHOLD : Q := 35 # 100.
Definition COLOR_TOTAL_THRESHOLD : Q := 0.

(** [a / max(b, 1) >= threshold] for two counts. *)
Definition fraction_reaches (a b : Z) (threshold : Q) : bool :=
  Qle_bool threshold (inject_Z a / inject_Z (Z.max b 1)).

(** The source rows (columns) [lo, hi) behind output row (column) [k] of
    [n], out of [src]: [int(k * src / n)] and [int((k + 1) * src / n)],
    widened to one row when empty. *)
Definition span (k src n : Z) : Z * Z :=
  let lo := k * src / n in
  let hi := (k + 1) * src / n in
  (lo, if hi <=? lo then Z.min src (lo + 1) else hi).

(** The pairs [(sr, sc)] in the order the two nested loops visit them. *)
Definition region (rows cols : Z * Z) : list (Z * Z) :=
  flat_map (fun sr => map (fun sc => (sr, sc)) (range (fst cols) (snd cols)))
           (range (fst rows) (snd rows)).

Definition max_len_of {A} (lines : list (list A)) : Z :=
  Z.max (fold_right Z.max 0 (map len lines)) 1.

(** One output bit of [downsample_mask]. *)
Definition mask_bit (lines : list str) (rs cs : Z * Z) : bool :=
  let counts :=
    fold_left
      (fun ft p =>
         let line := get lines (fst p) [] in
         let filled := if negb (get line (snd p) 32%N =? 32)%N
                       then fst ft + 1 else fst ft in
         (filled, snd ft + 1))
      (region rs cs) (0, 0) in
  (0 <? fst counts) && fraction_reaches (fst counts) (snd counts) FILL_THRESHOLD.

Definition downsample_mask (lines : list str) (cols rows : Z)
  : list (list bool) :=
  if (rows <=? 0) || (cols <=? 0) then []
  else
    match lines with
    | [] => repeat (repeat false (Z.to_nat cols)) (Z.to_nat rows)
    | _ =>
        let max_len := max_len_of lines in
        let src_rows := len lines in
        map (fun r =>
               map (fun c => mask_bit lines (span r src_rows rows)
                                      (span c max_len cols))
                   (range 0 cols))
            (range 0 rows)
    end.

(** [_content_row_count_cells] and the same loop of the plain path: one
    more than the index of the last row with content, [min(len, 1)] when
    no row has any. *)
Fixpoint last_content {A} (has : A -> bool) (rows_rev : list A) : option Z :=
  match rows_rev with
  | [] => None
  | r :: rest => if has r then Some (len rows_rev) else last_content has rest
  end.

Definition content_rows {A} (has : A -> bool) (lines : list A) : Z :=
  match last_content has (rev lines) with
  | Some n => n
  | None => Z.min (len lines) 1
  end.

Definition cell_row_has_content (row : list cell) : bool :=
  existsb (fun c => has_visible (glyph c)) row.

Definition _content_row_count_cells (lines : list (list cell)) : Z :=
  content_rows cell_row_has_content lines.

Definition rgb_eqb (a b : rgb) : bool :=
  let '(r1, g1, b1) := a in
  let '(r2, g2, b2) := b in
  (r1 =? r2) && (g1 =? g2) && (b1 =? b2).

(** [d[k] = d.get(k, 0) + 1] on a dictionary keyed by colours. *)
Fixpoint count_incr (d : list (rgb * Z)) (k : rgb) : list (rgb * Z) :=
  match d with
  | [] => [(k, 1)]
  | (k', n) :: r =>
      if rgb_eqb k' k then (k', n + 1) :: r else (k', n) :: count_incr r k
  end.

(** [max(d.items(), key=lambda kv: kv[1])[0]]: the first of the largest. *)
Definition most_frequent (d : list (rgb * Z)) : option rgb :=
  match d with
  | [] => None
  | kv :: r =>
      Some (fst (fold_left (fun best x => if snd best <? snd x then x else best)
                           r kv))
  end.

(** What the inner loops of [_downsample_color] count in one region. *)
Record tally : Type := mkTally {
  filled : Z;
  total : Z;
  colored : Z;
  bg_filled : Z;
  fg_counts : list (rgb * Z);
  bg_counts : list (rgb * Z)
}.

Definition blank_cell : cell := ([32%N], None, None).

Definition cell_at (lines : list (list cell)) (p : Z * Z) : cell :=
  get (get lines (fst p) []) (snd p) blank_cell.

Definition tally_cell (t : tally) (c : cell) : tally :=
  let t1 := mkTally (filled t) (total t + 1) (colored t) (bg_filled t)
                    (fg_counts t) (bg_counts t) in
  let t2 :=
    if negb (str_eqb (glyph c) [32%N])
    then match cell_fg c with
         | Some fg =>
             mkTally (filled t1 + 1) (total t1) (colored t1 + 1) (bg_filled t1)
                     (count_incr (fg_counts t1) fg) (bg_counts t1)
         | None =>
             mkTally (filled t1 + 1) (total t1) (colored t1) (bg_filled t1)
                     (fg_counts t1) (bg_counts t1)
         end
    else t1 in
  match cell_bg c with
  | Some bg =>
      mkTally (filled t2) (total t2) (colored t2) (bg_filled t2 + 1)
              (fg_counts t2) (count_incr (bg_counts t2) bg)
  | None => t2
  end.

Definition tally_region (lines : list (list cell)) (rs cs : Z * Z) : tally :=
  fold_left (fun t p => tally_cell t (cell_at lines p)) (region rs cs)
            (mkTally 0 0 0 0 [] []).

Definition passes_fill (t : tally) : bool :=
  (0 <? filled t) && fraction_reaches (filled t) (total t) FILL_THRESHOLD.

Definition has_fg_counts (t : tally) : bool :=
  match fg_counts t with [] => false | _ => true end.

Definition passes_color (t : tally) : bool :=
  has_fg_counts t
  && fraction_reaches (colored t) (filled t) COLOR_THRESHOLD
  && fraction_reaches (colored t) (total t) COLOR_TOTAL_THRESHOLD.

(** An output cell of [_downsample_color]: filled, foreground,
    background. *)
Definition block : Type := bool * option rgb * option rgb.

Definition empty_block : block := (false, None, None).

Definition color_block (t : tally) : block :=
  if passes_fill t || (0 <? bg_filled t)
  then (true,
        if passes_color t then most_frequent (fg_counts t) else None,
        most_frequent (bg_counts t))
  else empty_block.

(** [_downsample_color].  For an empty grid the source returns rows of
    pairs [(False, None)]; [render_block_preview] never passes one. *)
Definition _downsample_color (lines : list (list cell)) (cols rows : Z)
  : list (list block) :=
  if (rows <=? 0) || (cols <=? 0) then []
  else
    match lines with
    | [] => repeat (repeat empty_block (Z.to_nat cols)) (Z.to_nat rows)
    | _ =>
        let max_len := max_len_of lines in
        let src_rows := len lines in
        map (fun r =>
               map (fun c => color_block
                               (tally_region lines (span r src_rows rows)
                                             (span c max_len cols)))
                   (range 0 cols))
            (range 0 rows)
    end.

Inductive ColorMode : Set := ModeNone | ModeFg | ModeBg | ModeBoth.

(** The mode named by [color_mode]; a name not in [COLOR_MODES] is
    ["both"]. *)
Definition color_mode_of (name : str) : ColorMode :=
  if str_eqb name [110; 111; 110; 101]%N then ModeNone
  else if str_eqb name [102; 103]%N then ModeFg
  else if str_eqb name [98; 103]%N then ModeBg
  else ModeBoth.

Definition FULL_BLOCK : N := 9608.
Definition UPPER_HALF : N := 9600.
Definition LOWER_HALF : N := 9604.

Definition RESET : str := [27; 91; 48; 109]%N.

(** ["\x1b[38;2;r;g;bm"] for [kind = 38], the background one for 48. *)
Definition truecolor (kind : N) (c : rgb) : str :=
  let '(r, g, b) := c in
  [27; 91]%N ++ str_of_N kind ++ [59; 50; 59]%N
  ++ str_of_Z r ++ [59%N] ++ str_of_Z g ++ [59%N] ++ str_of_Z b ++ [109%N].

(** A background without a foreground is shown as the foreground. *)
Definition swap_bg (fg bg : option rgb) : option rgb * option rgb :=
  match fg, bg with
  | None, Some b => (Some b, None)
  | _, _ => (fg, bg)
  end.

(** The glyph and the colours of one output cell of the coloured path. *)
Definition color_glyph (up lo : block) : N * (option rgb * option rgb) :=
  let '(u, upf, upb) := up in
  let '(l, lof, lob) := lo in
  if u && l then (FULL_BLOCK, swap_bg (or_else upf lof) (or_else upb lob))
  else if u then (UPPER_HALF, swap_bg upf upb)
  else if l then (LOWER_HALF, swap_bg lof lob)
  else (32%N, (None, None)).

Definition emit_cell (mode : ColorMode) (up lo : block) : str :=
  let '(ch, (fg, bg)) := color_glyph up lo in
  match mode with
  | ModeNone => RESET ++ [ch]
  | _ =>
      let seq :=
        (match mode, fg with
         | (ModeFg | ModeBoth), Some c => truecolor 38 c
         | _, _ => []
         end)
        ++ (match mode, bg with
            | (ModeBg | ModeBoth), Some c => truecolor 48 c
            | _, _ => []
            end) in
      match seq with
      | [] => RESET ++ [ch]
      | _ => seq ++ [ch] ++ RESET
      end
  end.

Definition plain_glyph (up lo : bool) : N :=
  if up && lo then FULL_BLOCK
  else if up then UPPER_HALF
  else if lo then LOWER_HALF
  else 32%N.

(** [mask[k] if k < len(mask) else [dflt] * cols]. *)
Definition mask_row {A} (mask : list (list A)) (k cols : Z) (dflt : A) : list A :=
  if k <? len mask then get mask k [] else repeat dflt (Z.to_nat cols).

(** The output rows built from a mask, two mask rows for each. *)
Definition assemble {A} (emit : A -> A -> str) (dflt : A)
  (mask : list (list A)) (cols rows : Z) : list str :=
  map (fun r =>
         let upper := mask_row mask (r * 2) cols dflt in
         let lower := mask_row mask (r * 2 + 1) cols dflt in
         flat_map (fun c => emit (get upper c dflt) (get lower c dflt))
                  (range 0 cols))
      (range 0 rows).

(** [any("\x1b[" in line for line in lines)]. *)
Definition has_ansi (lines : list str) : bool :=
  existsb (fun line => match find_pair 27 91 line 0 with
                       | Some _ => true
                       | None => false
                       end) lines.

(** What [render_block_preview] hands to the downsampler: the source rows
    and the number of mask rows asked for. *)
Definition downsample_input {A} (has : A -> bool) (lines : list A) (rows : Z)
  : list A * Z :=
  let content := content_rows has lines in
  (firstn (Z.to_nat content) lines, Z.min content (rows * 2)).

(** [render_block_preview]. *)
Definition render_block_preview (lines : list str) (cols rows : Z)
  (color_mode : str) : result (list str) :=
  if (rows <=? 0) || (cols <=? 0) then Ok []
  else
    let mode := color_mode_of color_mode in
    if has_ansi lines then
      bind (parse_ansi_lines lines) (fun ansi_lines =>
        let input := downsample_input cell_row_has_content ansi_lines rows in
        let mask := _downsample_color (fst input) cols (snd input) in
        Ok (assemble (emit_cell mode) empty_block mask cols rows))
    else
      let input := downsample_input has_visible lines rows in
      let mask := downsample_mask (fst input) cols (snd input) in
      Ok (assemble (fun up lo => [plain_glyph up lo]) false mask cols rows).

End WithUnicode.

End Preview.




(** ** Cards: titles, preview lines and the layout ([tab_switcher.py]) *)
Module Layout.
Import Py Preview.

(** The fields of [Theme] that the layout, the titles and the previews
    read. *)
Record Theme : Type := mkTheme {
  title_align : str;
  title_padding : Z;
  wrap_title : str;
  ellipsis : str;
  gap : Z;
  preview_rows : Z;
  min_preview_rows : Z;
  min_preview_cols : Z;
  card_min_width : Z;
  card_min_height : Z;
  preview_color_mode : str
}.

Definition spaces (n : Z) : str := repeat 32%N (Z.to_nat n).

(** [text[:n]] for [0 <= n]. *)
Definition prefix (text : str) (n : Z) : str := firstn (Z.to_nat n) text.

(** [_truncate]; [ellipsis] is [None] when the argument is left out. *)
Definition _truncate (text : str) (max_len : Z) (ellipsis : option str) : str :=
  if max_len <=? 0 then []
  else if len text <=? max_len then text
  else if max_len <=? 3 then prefix text max_len
  else
    let ell := match ellipsis with
               | Some e => e
               | None => [46; 46; 46]%N
               end in
    if max_len <=? len ell then prefix text max_len
    else prefix text (max_len - len ell) ++ ell.

(** [str.ljust], [str.rjust] and [str.center] with the blank as the fill
    character.  [center] puts the odd blank on the left when the width is
    odd. *)
Definition ljust (s : str) (width : Z) : str := s ++ spaces (width - len s).
Definition rjust (s : str) (width : Z) : str := spaces (width - len s) ++ s.
Definition center (s : str) (width : Z) : str :=
  if width <=? len s then s
  else
    let marg := width - len s in
    let left := marg / 2 + Z.land (Z.land marg width) 1 in
    spaces left ++ s ++ spaces (marg - left).

Definition s_clip : str := [99; 108; 105; 112]%N.
Definition s_center : str := [99; 101; 110; 116; 101; 114]%N.
Definition s_right : str := [114; 105; 103; 104; 116]%N.

(** [_format_title]. *)
Definition _format_title (theme : Theme) (text : str) (width : Z) : str :=
  if width <=? 0 then []
  else
    let pad := Z.max 0 (title_padding theme) in
    let inner := Z.max 0 (width - pad * 2) in
    let content :=
      if str_eqb (wrap_title theme) s_clip then prefix text inner
      else _truncate text inner (Some (ellipsis theme)) in
    let content :=
      if str_eqb (title_align theme) s_center then center content inner
      else if str_eqb (title_align theme) s_right then rjust content inner
      else ljust content inner in
    spaces pad ++ content ++ spaces pad.

(** The [while] loop of [_truncate_ansi]: the output so far, the index and
    the number of visible characters.  Every round moves the index forward,
    so [length text] rounds of fuel are enough. *)
Fixpoint truncate_loop (fuel : nat) (text : str) (max_len : Z) (i : nat)
  (visible : Z) (out : str) : str :=
  match fuel with
  | O => out
  | S f =>
      if (i <? length text)%nat && (visible <? max_len) then
        let ch := char_at text i in
        if (ch =? 27)%N then
          match find_char 109 text (i + 1) with
          | None => out
          | Some e =>
              truncate_loop f text max_len (e + 1) visible
                            (out ++ slice text i (e + 1))
          end
        else truncate_loop f text max_len (i + 1) (visible + 1) (out ++ [ch])
      else out
  end.

(** [_truncate_ansi]. *)
Definition _truncate_ansi (text : str) (max_len : Z) : str :=
  if max_len <=? 0 then []
  else if negb (existsb (N.eqb 27) text) then _truncate text max_len None
  else truncate_loop (length text) text max_len 0 0 [] ++ RESET.

(** [_wrap_preview_line]: both wrap modes truncate alike. *)
Definition _wrap_preview_line (text : str) (max_len : Z) : str :=
  RESET ++ _truncate_ansi text max_len ++ RESET.

(** What [_compute_layout] returns. *)
Record LayoutDict : Type := mkLayout {
  lay_preview_cols : Z;
  lay_preview_rows : Z;
  lay_card_w : Z;
  lay_card_h : Z;
  lay_max_cards : Z;
  lay_title_only : bool
}.

(** The loop that fits the height: one row less while the card is too tall
    and the preview has more rows than the minimum. *)
Fixpoint fit_height (fuel : nat) (rows max_height min_rows : Z) : Z :=
  match fuel with
  | O => rows
  | S f =>
      if (max_height <? rows + 3) && (min_rows <? rows)
      then fit_height f (rows - 1) max_height min_rows
      else rows
  end.

Definition total_width (card_w cards gap_size : Z) : Z :=
  cards * card_w + Z.max 0 (cards - 1) * gap_size.

(** The [for gap_try in (gap, 1, 0)] loop with its [else]: the gap and the
    card width of the first try that fits, the fallback when none does. *)
Fixpoint fit_width (tries : list Z) (min_width max_width target_cards : Z)
  : Z * Z :=
  match tries with
  | [] => (0, Z.max min_width (max_width / target_cards))
  | g :: rest =>
      let available := max_width - g * Z.max 0 (target_cards - 1) in
      if available <=? 0
      then fit_width rest min_width max_width target_cards
      else
        let card_w := Z.max min_width (available / target_cards) in
        if total_width card_w target_cards g <=? max_width then (g, card_w)
        else fit_width rest min_width max_width target_cards
  end.

(** [_compute_layout]; [n_tabs] is [len(self.tabs)]. *)
Definition _compute_layout (theme : Theme) (n_tabs rows cols : Z) : LayoutDict :=
  let max_height := Z.max 1 (rows - 2) in
  let max_width := Z.max 1 (cols - 2) in
  let target_cards := Z.max 1 n_tabs in
  let p_rows :=
    fit_height (Z.to_nat (preview_rows theme - min_preview_rows theme))
               (preview_rows theme) max_height (min_preview_rows theme) in
  let '(g, card_w) :=
    fit_width [gap theme; 1; 0] (card_min_width theme) max_width target_cards in
  let p_cols := Z.max 0 (card_w - 4) in
  let card_h := p_rows + 3 in
  if (p_cols <? min_preview_cols theme) || (max_height <? card_h)
     || (card_w <? card_min_width theme)
  then
    let available := max_width - g * Z.max 0 (target_cards - 1) in
    mkLayout 0 0 (Z.max (card_min_width theme) (available / target_cards))
             (Z.max (card_min_height theme) 3) target_cards true
  else mkLayout p_cols p_rows card_w card_h target_cards false.

End Layout.
(** ** The switcher: MRU reconciliation, the event loop, commit *)
Module Switcher.
Import Py Keys Preview Layout.

Definition PREVIEW_COLS : Z := 40.
Definition PREVIEW_ROWS : Z := 12.
Definition PREVIEW_REFRESH_SECS : Q := 5 # 10.

Record TabInfo : Type := mkTab {
  id : Z;
  title : str;
  window_id : Z;
  is_active : bool;
  last_focused : option Q
}.

Definition Qltb (a b : Q) : bool := negb (Qle_bool b a).

(** [max(a, b)] of Python: the first argument unless the second is larger. *)
Definition py_max (a b : Q) : Q := if Qltb a b then b else a.

Definition get_or {V} (d : list (Z * V)) (k : Z) (dflt : V) : V :=
  match dict_get d k with Some v => v | None => dflt end.

(** [sorted(l, key=...)]: a stable sort; [lt a b] compares the keys. *)
Fixpoint insert_sorted {A} (lt : A -> A -> bool) (x : A) (l : list A) : list A :=
  match l with
  | [] => [x]
  | y :: r => if lt y x then y :: insert_sorted lt x r else x :: l
  end.

Definition sorted_by {A} (lt : A -> A -> bool) (l : list A) : list A :=
  fold_right (insert_sorted lt) [] l.

(** Order of the tuples [(-score, rank)]. *)
Definition key_lt (a b : Q * Z) : bool :=
  Qltb (fst a) (fst b) || (Qeq_bool (fst a) (fst b) && (snd a <? snd b)).

(** [_active_tab_id]: the first active tab, else the first tab. *)
Definition _active_tab_id (tabs : list TabInfo) : option Z :=
  match find is_active tabs with
  | Some t => Some (id t)
  | None => match tabs with t :: _ => Some (id t) | [] => None end
  end.

(** [{tid: idx for idx, tid in enumerate(base_order)}]. *)
Definition base_rank_of (base_order : list Z) : list (Z * Z) :=
  fold_left (fun d it => dict_set d (snd it) (fst it))
            (combine (range 0 (len base_order)) base_order) [].

(** [{t.id: t for t in base_tabs}]. *)
Definition by_id_of (tabs : list TabInfo) : list (Z * TabInfo) :=
  fold_left (fun d t => dict_set d (id t) t) tabs [].

Definition mru_key (base_rank : list (Z * Z)) (kv : Z * Q) : Q * Z :=
  (Qopp (snd kv), get_or base_rank (fst kv) (10 ^ 9)).

Definition mru_sorted (base_rank : list (Z * Z)) (out : list (Z * Q))
  : list (Z * Q) :=
  sorted_by (fun a b => key_lt (mru_key base_rank a) (mru_key base_rank b)) out.

(** [[by_id[tid] for tid, _ in ordered if tid in by_id]]. *)
Definition tabs_in_order (by_id : list (Z * TabInfo)) (ordered : list (Z * Q))
  : list TabInfo :=
  flat_map (fun kv => match dict_get by_id (fst kv) with
                      | Some t => [t]
                      | None => []
                      end) ordered.

Definition force_active (tabs : list TabInfo) (now : Q) (out : list (Z * Q))
  : list (Z * Q) :=
  match _active_tab_id tabs with
  | Some a => dict_set out a (py_max (get_or out a 0%Q) now)
  | None => out
  end.

Definition has_last_focused (t : TabInfo) : bool :=
  match last_focused t with Some _ => true | None => false end.

(** The scores before the active tab is forced: from the native timestamps
    in the first branch, from the persisted map in the second. *)
Definition scores_from_focus (tabs : list TabInfo) : list (Z * Q) :=
  fold_left (fun d t => dict_set d (id t)
                          (match last_focused t with
                           | Some x => x
                           | None => 0%Q
                           end)) tabs [].

Definition scores_from_cache (base_order : list Z) (last_used : list (Z * Q))
  : list (Z * Q) :=
  fold_left (fun d tid =>
               let d1 := match dict_get last_used tid with
                         | Some v => dict_set d tid v
                         | None => d
                         end in
               if dict_mem d1 tid then d1 else dict_set d1 tid 0%Q)
            base_order [].

(** [_reconcile_mru]: the new [self.tabs] and the returned score map. *)
Definition _reconcile_mru (tabs : list TabInfo) (last_used : list (Z * Q))
  (now : Q) : list TabInfo * list (Z * Q) :=
  let base_order := map id tabs in
  let base_rank := base_rank_of base_order in
  let by_id := by_id_of tabs in
  if existsb has_last_focused tabs then
    let out := force_active tabs now (scores_from_focus tabs) in
    let ordered := mru_sorted base_rank out in
    (tabs_in_order by_id ordered,
     fold_left (fun d tid => dict_set d tid (get_or out tid 0%Q)) base_order [])
  else
    let out := force_active tabs now (scores_from_cache base_order last_used) in
    let ordered := mru_sorted base_rank out in
    (tabs_in_order by_id ordered, out).

(** What the switcher does to the outside, in order. *)
Inductive Effect : Type :=
| EDraw (force : bool) (selected : Z)
| ESavePreviews (ids : list Z)
| ESaveMRU (scores : list (Z * Q))
| EFocusTab (tab : Z)
| ESendMarker.

Record RawSwitcher : Type := mkSwitcher {
  tabs : list TabInfo;
  theme : Theme;
  last_used : list (Z * Q);
  original_tab_id : option Z;
  mru_order : list Z;
  selected_index : Z;
  last_draw : Q;
  ctrl_down : bool;
  start_time : Q;
  saw_tab_event : bool;
  ctrl_seen : bool;
  ctrl_mask : option Z;
  last_input_time : Q;
  poll_ctrl_seen : bool;
  any_key_event : bool;
  ctrl_up_streak : Z;
  marker_seen : bool;
  marker_sent : bool;
  initial_mods_checked : bool;
  initial_ctrl_down : bool;
  preview_cache : list (Z * list str);
  preview_cache_ts : list (Z * Q);
  preview_queue : list Z;
  effects : list Effect
}.

Definition with_tabs (v : list TabInfo) (s : RawSwitcher) : RawSwitcher :=
  mkSwitcher v (theme s) (last_used s) (original_tab_id s) (mru_order s) (selected_index s) (last_draw s) (ctrl_down s) (start_time s) (saw_tab_event s) (ctrl_seen s) (ctrl_mask s) (last_input_time s) (poll_ctrl_seen s) (any_key_event s) (ctrl_up_streak s) (marker_seen s) (marker_sent s) (initial_mods_checked s) (initial_ctrl_down s) (preview_cache s) (preview_cache_ts s) (preview_queue s) (effects s).
Definition with_last_used (v : list (Z * Q)) (s : RawSwitcher) : RawSwitcher :=
  mkSwitcher (tabs s) (theme s) v (original_tab_id s) (mru_order s) (selected_index s) (last_draw s) (ctrl_down s) (start_time s) (saw_tab_event s) (ctrl_seen s) (ctrl_mask s) (last_input_time s) (poll_ctrl_seen s) (any_key_event s) (ctrl_up_streak s) (marker_seen s) (marker_sent s) (initial_mods_checked s) (initial_ctrl_down s) (preview_cache s) (preview_cache_ts s) (preview_queue s) (effects s).
Definition with_mru_order (v : list Z) (s : RawSwitcher) : RawSwitcher :=
  mkSwitcher (tabs s) (theme s) (last_used s) (original_tab_id s) v (selected_index s) (last_draw s) (ctrl_down s) (start_time s) (saw_tab_event s) (ctrl_seen s) (ctrl_mask s) (last_input_time s) (poll_ctrl_seen s) (any_key_event s) (ctrl_up_streak s) (marker_seen s) (marker_sent s) (initial_mods_checked s) (initial_ctrl_down s) (preview_cache s) (preview_cache_ts s) (preview_queue s) (effects s).
Definition with_selected_index (v : Z) (s : RawSwitcher) : RawSwitcher :=
  mkSwitcher (tabs s) (theme s) (last_used s) (original_tab_id s) (mru_order s) v (last_draw s) (ctrl_down s) (start_time s) (saw_tab_event s) (ctrl_seen s) (ctrl_mask s) (last_input_time s) (poll_ctrl_seen s) (any_key_event s) (ctrl_up_streak s) (marker_seen s) (marker_sent s) (initial_mods_checked s) (initial_ctrl_down s) (preview_cache s) (preview_cache_ts s) (preview_queue s) (effects s).
Definition with_last_draw (v : Q) (s : RawSwitcher) : RawSwitcher :=
  mkSwitcher (tabs s) (theme s) (last_used s) (original_tab_id s) (mru_order s) (selected_index s) v (ctrl_down s) (start_time s) (saw_tab_event s) (ctrl_seen s) (ctrl_mask s) (last_input_time s) (poll_ctrl_seen s) (any_key_event s) (ctrl_up_streak s) (marker_seen s) (marker_sent s) (initial_mods_checked s) (initial_ctrl_down s) (preview_cache s) (preview_cache_ts s) (preview_queue s) (effects s).
Definition with_ctrl_down (v : bool) (s : RawSwitcher) : RawSwitcher :=
  mkSwitcher (tabs s) (theme s) (last_used s) (original_tab_id s) (mru_order s) (selected_index s) (last_draw s) v (start_time s) (saw_tab_event s) (ctrl_seen s) (ctrl_mask s) (last_input_time s) (poll_ctrl_seen s) (any_key_event s) (ctrl_up_streak s) (marker_seen s) (marker_sent s) (initial_mods_checked s) (initial_ctrl_down s) (preview_cache s) (preview_cache_ts s) (preview_queue s) (effects s).
Definition with_saw_tab_event (v : bool) (s : RawSwitcher) : RawSwitcher :=
  mkSwitcher (tabs s) (theme s) (last_used s) (original_tab_id s) (mru_order s) (selected_index s) (last_draw s) (ctrl_down s) (start_time s) v (ctrl_seen s) (ctrl_mask s) (last_input_time s) (poll_ctrl_seen s) (any_key_event s) (ctrl_up_streak s) (marker_seen s) (marker_sent s) (initial_mods_checked s) (initial_ctrl_down s) (preview_cache s) (preview_cache_ts s) (preview_queue s) (effects s).
Definition with_ctrl_seen (v : bool) (s : RawSwitcher) : RawSwitcher :=
  mkSwitcher (tabs s) (theme s) (last_used s) (original_tab_id s) (mru_order s) (selected_index s) (last_draw s) (ctrl_down s) (start_time s) (saw_tab_event s) v (ctrl_mask s) (last_input_time s) (poll_ctrl_seen s) (any_key_event s) (ctrl_up_streak s) (marker_seen s) (marker_sent s) (initial_mods_checked s) (initial_ctrl_down s) (preview_cache s) (preview_cache_ts s) (preview_queue s) (effects s).
Definition with_last_input_time (v : Q) (s : RawSwitcher) : RawSwitcher :=
  mkSwitcher (tabs s) (theme s) (last_used s) (original_tab_id s) (mru_order s) (selected_index s) (last_draw s) (ctrl_down s) (start_time s) (saw_tab_event s) (ctrl_seen s) (ctrl_mask s) v (poll_ctrl_seen s) (any_key_event s) (ctrl_up_streak s) (marker_seen s) (marker_sent s) (initial_mods_checked s) (initial_ctrl_down s) (preview_cache s) (preview_cache_ts s) (preview_queue s) (effects s).
Definition with_poll_ctrl_seen (v : bool) (s : RawSwitcher) : RawSwitcher :=
  mkSwitcher (tabs s) (theme s) (last_used s) (original_tab_id s) (mru_order s) (selected_index s) (last_draw s) (ctrl_down s) (start_time s) (saw_tab_event s) (ctrl_seen s) (ctrl_mask s) (last_input_time s) v (any_key_event s) (ctrl_up_streak s) (marker_seen s) (marker_sent s) (initial_mods_checked s) (initial_ctrl_down s) (preview_cache s) (preview_cache_ts s) (preview_queue s) (effects s).
Definition with_any_key_event (v : bool) (s : RawSwitcher) : RawSwitcher :=
  mkSwitcher (tabs s) (theme s) (last_used s) (original_tab_id s) (mru_order s) (selected_index s) (last_draw s) (ctrl_down s) (start_time s) (saw_tab_event s) (ctrl_seen s) (ctrl_mask s) (last_input_time s) (poll_ctrl_seen s) v (ctrl_up_streak s) (marker_seen s) (marker_sent s) (initial_mods_checked s) (initial_ctrl_down s) (preview_cache s) (preview_cache_ts s) (preview_queue s) (effects s).
Definition with_ctrl_up_streak (v : Z) (s : RawSwitcher) : RawSwitcher :=
  mkSwitcher (tabs s) (theme s) (last_used s) (original_tab_id s) (mru_order s) (selected_index s) (last_draw s) (ctrl_down s) (start_time s) (saw_tab_event s) (ctrl_seen s) (ctrl_mask s) (last_input_time s) (poll_ctrl_seen s) (any_key_event s) v (marker_seen s) (marker_sent s) (initial_mods_checked s) (initial_ctrl_down s) (preview_cache s) (preview_cache_ts s) (preview_queue s) (effects s).
Definition with_marker_seen (v : bool) (s : RawSwitcher) : RawSwitcher :=
  mkSwitcher (tabs s) (theme s) (last_used s) (original_tab_id s) (mru_order s) (selected_index s) (last_draw s) (ctrl_down s) (start_time s) (saw_tab_event s) (ctrl_seen s) (ctrl_mask s) (last_input_time s) (poll_ctrl_seen s) (any_key_event s) (ctrl_up_streak s) v (marker_sent s) (initial_mods_checked s) (initial_ctrl_down s) (preview_cache s) (preview_cache_ts s) (preview_queue s) (effects s).
Definition with_marker_sent (v : bool) (s : RawSwitcher) : RawSwitcher :=
  mkSwitcher (tabs s) (theme s) (last_used s) (original_tab_id s) (mru_order s) (selected_index s) (last_draw s) (ctrl_down s) (start_time s) (saw_tab_event s) (ctrl_seen s) (ctrl_mask s) (last_input_time s) (poll_ctrl_seen s) (any_key_event s) (ctrl_up_streak s) (marker_seen s) v (initial_mods_checked s) (initial_ctrl_down s) (preview_cache s) (preview_cache_ts s) (preview_queue s) (effects s).
Definition with_initial_mods_checked (v : bool) (s : RawSwitcher) : RawSwitcher :=
  mkSwitcher (tabs s) (theme s) (last_used s) (original_tab_id s) (mru_order s) (selected_index s) (last_draw s) (ctrl_down s) (start_time s) (saw_tab_event s) (ctrl_seen s) (ctrl_mask s) (last_input_time s) (poll_ctrl_seen s) (any_key_event s) (ctrl_up_streak s) (marker_seen s) (marker_sent s) v (initial_ctrl_down s) (preview_cache s) (preview_cache_ts s) (preview_queue s) (effects s).
Definition with_initial_ctrl_down (v : bool) (s : RawSwitcher) : RawSwitcher :=
  mkSwitcher (tabs s) (theme s) (last_used s) (original_tab_id s) (mru_order s) (selected_index s) (last_draw s) (ctrl_down s) (start_time s) (saw_tab_event s) (ctrl_seen s) (ctrl_mask s) (last_input_time s) (poll_ctrl_seen s) (any_key_event s) (ctrl_up_streak s) (marker_seen s) (marker_sent s) (initial_mods_checked s) v (preview_cache s) (preview_cache_ts s) (preview_queue s) (effects s).
Definition with_preview_cache (v : list (Z * list str)) (s : RawSwitcher) : RawSwitcher :=
  mkSwitcher (tabs s) (theme s) (last_used s) (original_tab_id s) (mru_order s) (selected_index s) (last_draw s) (ctrl_down s) (start_time s) (saw_tab_event s) (ctrl_seen s) (ctrl_mask s) (last_input_time s) (poll_ctrl_seen s) (any_key_event s) (ctrl_up_streak s) (marker_seen s) (marker_sent s) (initial_mods_checked s) (initial_ctrl_down s) v (preview_cache_ts s) (preview_queue s) (effects s).
Definition with_preview_cache_ts (v : list (Z * Q)) (s : RawSwitcher) : RawSwitcher :=
  mkSwitcher (tabs s) (theme s) (last_used s) (original_tab_id s) (mru_order s) (selected_index s) (last_draw s) (ctrl_down s) (start_time s) (saw_tab_event s) (ctrl_seen s) (ctrl_mask s) (last_input_time s) (poll_ctrl_seen s) (any_key_event s) (ctrl_up_streak s) (marker_seen s) (marker_sent s) (initial_mods_checked s) (initial_ctrl_down s) (preview_cache s) v (preview_queue s) (effects s).
Definition with_preview_queue (v : list Z) (s : RawSwitcher) : RawSwitcher :=
  mkSwitcher (tabs s) (theme s) (last_used s) (original_tab_id s) (mru_order s) (selected_index s) (last_draw s) (ctrl_down s) (start_time s) (saw_tab_event s) (ctrl_seen s) (ctrl_mask s) (last_input_time s) (poll_ctrl_seen s) (any_key_event s) (ctrl_up_streak s) (marker_seen s) (marker_sent s) (initial_mods_checked s) (initial_ctrl_down s) (preview_cache s) (preview_cache_ts s) v (effects s).
Definition with_effects (v : list Effect) (s : RawSwitcher) : RawSwitcher :=
  mkSwitcher (tabs s) (theme s) (last_used s) (original_tab_id s) (mru_order s) (selected_index s) (last_draw s) (ctrl_down s) (start_time s) (saw_tab_event s) (ctrl_seen s) (ctrl_mask s) (last_input_time s) (poll_ctrl_seen s) (any_key_event s) (ctrl_up_streak s) (marker_seen s) (marker_sent s) (initial_mods_checked s) (initial_ctrl_down s) (preview_cache s) (preview_cache_ts s) (preview_queue s) v.

(** The places where the start of [run] and one iteration of its loop
    call [time.time()].  Every call has a reading of its own; a loop that
    calls it once per round has one place per round. *)
Inductive Site : Set :=
| AtInput             (* run: self.last_input_time = time.time() *)
| AtRelease           (* _should_commit_on_ctrl_release *)
| AtGuard (k : Z)     (* run: the k-th timeout guard of a tick *)
| AtCommit            (* _update_mru *)
| AtDraw              (* draw: now = time.time() *)
| AtCard (k : Z)      (* draw: _preview_stale of the k-th card *)
| AtTarget (k : Z)    (* _schedule_preview_fetch: _preview_stale of the
                         k-th target *)
| AtFill (k : Z)      (* _ensure_preview_cache: the timestamp stored in
                         the k-th round *)
| AtDrain             (* _drain_preview_queue: _preview_stale *)
| AtRefresh           (* _drain_preview_queue: the timestamp stored *).

(** The world as one iteration of the loop sees it: the clock at each
    place it is read, the host's answer to a screen capture of a window
    ([None]: the call failed), the size of the terminal as [screen_size]
    returns it (rows, columns), and the place of an element in the hash
    table of a [set], which decides the order a loop visits the set in. *)
Record Env : Type := mkEnv {
  clock : Site -> Q;
  capture : Z -> option (list str);
  screen : Z * Z;
  set_slot : Z -> Z
}.

Definition log_effect (e : Effect) (s : RawSwitcher) : RawSwitcher :=
  with_effects (effects s ++ [e]) s.

Definition tab_at (s : RawSwitcher) (i : Z) : option TabInfo :=
  if i <? 0 then None else nth_error (tabs s) (Z.to_nat i).

(** [_current_tab_id].  The selected index stays within the tab list; an
    index outside it reads as no tab. *)
Definition _current_tab_id (s : RawSwitcher) : option Z :=
  match tabs s with
  | [] => None
  | _ => option_map id (tab_at s (selected_index s))
  end.

Definition _initial_index (tabs : list TabInfo) (direction : Z) : Z :=
  match tabs with
  | [] => 0
  | _ => if 0 <=? direction then 1 mod len tabs
         else (len tabs - 1) mod len tabs
  end.

(** [_preview_stale]; [t] is what [time.time()] reads in this call. *)
Definition _preview_stale (t : Q) (s : RawSwitcher) (tab : Z) : bool :=
  if negb (dict_mem (preview_cache s) tab) then true
  else Qle_bool PREVIEW_REFRESH_SECS (t - get_or (preview_cache_ts s) tab 0%Q).

Definition mem (x : Z) (l : list Z) : bool := existsb (Z.eqb x) l.

(** [if tab_id not in self.preview_queue: self.preview_queue.append(tab_id)]. *)
Definition enqueue (x : Z) (s : RawSwitcher) : RawSwitcher :=
  if mem x (preview_queue s) then s
  else with_preview_queue (preview_queue s ++ [x]) s.

(** [_fetch_preview]: a failed or empty capture gives the blank card. *)
Definition _fetch_preview (env : Env) (tab : TabInfo) : list str :=
  match capture env (window_id tab) with
  | Some (l :: ls) => l :: ls
  | _ => repeat (repeat 32%N (Z.to_nat PREVIEW_COLS)) (Z.to_nat PREVIEW_ROWS)
  end.

(** A preview is fetched, stamped with the reading [t] of the clock and
    the cache saved. *)
Definition store_preview (env : Env) (t : Q) (tab : TabInfo) (s : RawSwitcher)
  : RawSwitcher :=
  let s1 := with_preview_cache
              (dict_set (preview_cache s) (id tab) (_fetch_preview env tab)) s in
  let s2 := with_preview_cache_ts
              (dict_set (preview_cache_ts s1) (id tab) t) s1 in
  log_effect (ESavePreviews (map fst (preview_cache s2))) s2.

(** The three indices kept fresh: the selection and its two neighbours. *)
Definition neighbourhood (s : RawSwitcher) : list Z :=
  [selected_index s;
   (selected_index s - 1) mod len (tabs s);
   (selected_index s + 1) mod len (tabs s)].

(** [enumerate(l)]. *)
Definition enumerate {A} (l : list A) : list (Z * A) :=
  combine (range 0 (len l)) l.

(** The order in which a [for] loop visits the [set] built from [l]: each
    element once, by its place in the hash table. *)
Definition set_iter (env : Env) (l : list Z) : list Z :=
  sorted_by (fun a b => set_slot env a <? set_slot env b) (nodup Z.eq_dec l).

(** [_ensure_preview_cache]: a loop over the set of the three indices. *)
Definition _ensure_preview_cache (env : Env) (s : RawSwitcher) : RawSwitcher :=
  match tabs s with
  | [] => s
  | _ =>
      fold_left
        (fun st it =>
           match tab_at st (snd it) with
           | Some tab =>
               if dict_mem (preview_cache st) (id tab) then st
               else store_preview env (clock env (AtFill (fst it))) tab st
           | None => st
           end)
        (enumerate (set_iter env (neighbourhood s))) s
  end.

(** [_schedule_preview_fetch]: a loop over the list of the three indices. *)
Definition _schedule_preview_fetch (env : Env) (s : RawSwitcher) : RawSwitcher :=
  match tabs s with
  | [] => s
  | _ =>
      fold_left
        (fun st it =>
           match tab_at st (snd it) with
           | Some tab =>
               if negb (_preview_stale (clock env (AtTarget (fst it))) st (id tab))
               then st
               else enqueue (id tab) st
           | None => st
           end)
        (enumerate (neighbourhood s)) s
  end.

(** [_visible_cards]. *)
Definition _visible_cards (s : RawSwitcher) (max_cards : Z) : list TabInfo :=
  if len (tabs s) <=? max_cards then tabs s
  else
    let half := max_cards / 2 in
    let start := Z.max 0 (selected_index s - half) in
    let stop := Z.min (len (tabs s)) (start + max_cards) in
    let start := Z.max 0 (stop - max_cards) in
    firstn (Z.to_nat (stop - start)) (skipn (Z.to_nat start) (tabs s)).


Section Drawing.
Variable U : unicode_db.

(** [_draw_card].  The border and the title go to the terminal; the
    preview is rendered from the cached lines unless the layout has titles
    only, and [render_block_preview] can raise.  The result is the preview
    lines written. *)
Definition _draw_card (layout : LayoutDict) (s : RawSwitcher) (tab : TabInfo)
  : result (list str) :=
  if lay_title_only layout then Ok []
  else
    bind (render_block_preview U (get_or (preview_cache s) (id tab) [])
            (lay_preview_cols layout) (lay_preview_rows layout)
            (preview_color_mode (theme s)))
         (fun preview =>
            Ok (map (fun line => _wrap_preview_line line (lay_preview_cols layout))
                    (firstn (Z.to_nat (lay_preview_rows layout)) preview))).

(** The loop of [draw] over the cards: a card whose preview is stale joins
    the refetch queue, then the card is drawn; an exception ends the loop
    and leaves [draw]. *)
Fixpoint draw_cards (env : Env) (layout : LayoutDict)
  (cards : list (Z * TabInfo)) (st : RawSwitcher) : RawSwitcher * option exn :=
  match cards with
  | [] => (st, None)
  | (k, tab) :: rest =>
      let st1 := if _preview_stale (clock env (AtCard k)) st (id tab)
                 then enqueue (id tab) st else st in
      match _draw_card layout st1 tab with
      | Raise e => (st1, Some e)
      | Ok _ => draw_cards env layout rest st1
      end
  end.

(** [draw]: the state it leaves, and the exception it raises if any.  What
    goes to the terminal is recorded as one [EDraw] when the frame is
    begun.  Failures of the terminal itself are not modelled. *)
Definition draw (env : Env) (force : bool) (s : RawSwitcher)
  : RawSwitcher * option exn :=
  if negb force && Qltb (clock env AtDraw - last_draw s) (16 # 1000)
  then (s, None)
  else
    let s1 := log_effect (EDraw force (selected_index s))
                         (with_last_draw (clock env AtDraw) s) in
    match tabs s1 with
    | [] => (s1, None)
    | _ =>
        let layout := _compute_layout (theme s1) (len (tabs s1))
                                      (fst (screen env)) (snd (screen env)) in
        draw_cards env layout
                   (enumerate (_visible_cards s1 (lay_max_cards layout))) s1
    end.

End Drawing.

(** [_move]. *)
Definition _move (env : Env) (delta : Z) (s : RawSwitcher) : RawSwitcher :=
  match tabs s with
  | [] => s
  | _ =>
      _ensure_preview_cache env
        (with_selected_index ((selected_index s + delta) mod len (tabs s)) s)
  end.

(** [_tab_by_id]. *)
Definition _tab_by_id (s : RawSwitcher) (tab : Z) : option TabInfo :=
  find (fun t => id t =? tab) (tabs s).

(** [_drain_preview_queue]: the state and the returned flag. *)
Definition _drain_preview_queue (env : Env) (s : RawSwitcher)
  : RawSwitcher * bool :=
  match preview_queue s with
  | [] => (s, false)
  | tid :: rest =>
      let s1 := with_preview_queue rest s in
      match _tab_by_id s1 tid with
      | Some tab =>
          if _preview_stale (clock env AtDrain) s1 (id tab)
          then (store_preview env (clock env AtRefresh) tab s1, true)
          else (s1, false)
      | None => (s1, false)
      end
  end.

(** [_update_mru]: the new order. *)
Definition new_mru_order (mru_order : list Z) (tab : Z) (original : option Z)
  : list Z :=
  let base :=
    filter (fun tid => negb ((tid =? tab)
                             || match original with
                                | Some o => tid =? o
                                | None => false
                                end)) mru_order in
  [tab]
  ++ match original with
     | Some o => if negb (o =? tab) then [o] else []
     | None => []
     end
  ++ base.

(** [{tid: now - (idx * 0.001) for idx, tid in enumerate(order)}]. *)
Definition scores_of_order (now : Q) (order : list Z) : list (Z * Q) :=
  fold_left (fun d it => dict_set d (snd it)
                           (now - inject_Z (fst it) * (1 # 1000))%Q)
            (combine (range 0 (len order)) order) [].

Definition _update_mru (env : Env) (tab : Z) (s : RawSwitcher) : RawSwitcher :=
  let s1 := with_mru_order
              (new_mru_order (mru_order s) tab (original_tab_id s)) s in
  let s2 := with_last_used
              (scores_of_order (clock env AtCommit) (mru_order s1)) s1 in
  log_effect (ESaveMRU (last_used s2)) s2.

(** [commit]; without a current tab it is [cancel], which does nothing. *)
Definition commit (env : Env) (s : RawSwitcher) : RawSwitcher :=
  match _current_tab_id s with
  | None => s
  | Some tab => log_effect (EFocusTab tab) (_update_mru env tab s)
  end.

(** How [run] ended: one of its eight returns, or an exception that
    leaves it. *)
Inductive Exit : Set :=
| CtrlPollCommit
| MarkerNoCtrlTimeoutCommit
| InitialCtrlUpCommit
| NoMarkerTimeoutCommit
| NoTabTimeoutCommit
| CtrlReleaseCommit
| EscapeCancel
| QuitCancel
| Raised (e : exn).

(** [(t - self.start_time) > limit] for a reading [t] of the clock. *)
Definition elapsed_over (t : Q) (s : RawSwitcher) (limit : Q) : bool :=
  Qltb limit (t - start_time s).

(** The four timeout guards of an idle tick, in the order of the source. *)
Definition timeout_guards (env : Env) (s : RawSwitcher)
  : RawSwitcher * option Exit :=
  if marker_seen s && negb (ctrl_down s) && negb (saw_tab_event s)
     && elapsed_over (clock env (AtGuard 0)) s (15 # 100)
  then (commit env s, Some MarkerNoCtrlTimeoutCommit)
  else if negb (marker_sent s) && initial_mods_checked s
          && negb (initial_ctrl_down s) && negb (saw_tab_event s)
          && negb (marker_seen s) && negb (ctrl_seen s)
          && elapsed_over (clock env (AtGuard 1)) s (8 # 100)
  then (commit env s, Some InitialCtrlUpCommit)
  else if marker_sent s && negb (any_key_event s) && negb (marker_seen s)
          && elapsed_over (clock env (AtGuard 2)) s (2 # 10)
  then (commit env s, Some NoMarkerTimeoutCommit)
  else if any_key_event s && negb (saw_tab_event s) && negb (ctrl_down s)
          && elapsed_over (clock env (AtGuard 3)) s (2 # 10)
  then (commit env s, Some NoTabTimeoutCommit)
  else (s, None).

(** What follows a call of [draw] in [run]: an exception ends [run], since
    nothing catches it; otherwise [k] goes on. *)
Definition after_draw (r : RawSwitcher * option exn)
  (k : RawSwitcher -> RawSwitcher * option Exit) : RawSwitcher * option Exit :=
  match r with
  | (s1, Some e) => (s1, Some (Raised e))
  | (s1, None) => k s1
  end.

(** The oracle path followed by the timeout guards.  [poll] is what
    [mod_query] answers on this tick, [None] for unknown; it is asked only
    when the oracle was resolved. *)
Definition poll_oracle (env : Env) (poll : option Z) (s : RawSwitcher)
  : RawSwitcher * option Exit :=
  match ctrl_mask s, poll with
  | Some mask, Some m =>
      if ctrl_is_down m mask
      then timeout_guards env
             (with_ctrl_up_streak 0
                (with_ctrl_down true (with_poll_ctrl_seen true s)))
      else
        let s2 := with_ctrl_up_streak (ctrl_up_streak s + 1) s in
        if poll_ctrl_seen s2 && (2 <=? ctrl_up_streak s2)
        then (commit env s2, Some CtrlPollCommit)
        else timeout_guards env s2
  | _, _ => timeout_guards env s
  end.

Definition cmd_next : str := [110; 101; 120; 116]%N.
Definition cmd_prev : str := [112; 114; 101; 118]%N.

(** [_should_commit_on_ctrl_release]. *)
Definition _should_commit_on_ctrl_release (env : Env) (s : RawSwitcher) : bool :=
  let elapsed_long := elapsed_over (clock env AtRelease) s (2 # 10) in
  if saw_tab_event s then true else elapsed_long.

Definition is_ctrl_key (ev : KeyEvent) : bool := mem (key_code ev) CTRL_KEY_CODES.

(** What one iteration of the loop of [run] handles. *)
Inductive Event : Type :=
| Tick (poll : option Z)
| Command (cmd : str)
| Key (ev : KeyEvent).

Section Loop.
Variable U : unicode_db.

(** The idle work of a tick: one stale preview is refetched, and the
    frame redrawn if that changed something. *)
Definition idle_refresh (env : Env) (s : RawSwitcher)
  : RawSwitcher * option exn :=
  match _drain_preview_queue env s with
  | (s', true) => draw U env false s'
  | (s', false) => (s', None)
  end.

(** An iteration whose [select] timed out. *)
Definition on_tick (env : Env) (poll : option Z) (s : RawSwitcher)
  : RawSwitcher * option Exit :=
  after_draw (idle_refresh env s) (poll_oracle env poll).

(** A message on the command socket. *)
Definition on_command (env : Env) (cmd : str) (s : RawSwitcher)
  : RawSwitcher * option Exit :=
  if str_eqb cmd cmd_next || str_eqb cmd cmd_prev
  then after_draw
         (draw U env true (_move env (if str_eqb cmd cmd_prev then -1 else 1) s))
         (fun s1 => (s1, None))
  else (s, None).

(** [self.draw(force=True); self._schedule_preview_fetch(); continue]. *)
Definition redraw_and_schedule (env : Env) (s : RawSwitcher)
  : RawSwitcher * option Exit :=
  after_draw (draw U env true s)
             (fun s1 => (_schedule_preview_fetch env s1, None)).

(** A key event read from the terminal. *)
Definition on_key (env : Env) (ev : KeyEvent) (s : RawSwitcher)
  : RawSwitcher * option Exit :=
  let s := with_last_input_time (clock env AtInput) (with_any_key_event true s) in
  if (key_code ev =? MARKER_KEY_CODE) && (event_type ev =? 1)
  then (with_ctrl_seen true (with_ctrl_down true (with_marker_seen true s)),
        None)
  else if (key_code ev =? MARKER_KEY_CODE) && (event_type ev =? 3)
  then (with_ctrl_down false s, None)
  else
    let s := if is_ctrl_key ev && (event_type ev =? 1)
             then with_ctrl_seen true (with_ctrl_down true s) else s in
    let s := if is_ctrl_key ev && (event_type ev =? 3)
             then with_ctrl_down false s else s in
    if is_ctrl_key ev && (event_type ev =? 3)
       && _should_commit_on_ctrl_release env s
    then (commit env s, Some CtrlReleaseCommit)
    else if (key_code ev =? ESC_CODE) && (event_type ev =? 1)
    then (s, Some EscapeCancel)
    else if (key_code ev =? TAB_CODE)
            && ((event_type ev =? 1) || (event_type ev =? 2))
    then
      let s := with_saw_tab_event true s in
      let s := if ctrl ev then with_ctrl_down true s else s in
      let s := _move env (if shift ev then -1 else 1) s in
      redraw_and_schedule env s
    else if key_code ev =? - TAB_CODE
    then
      let s := with_saw_tab_event true s in
      let s := _move env (-1) s in
      redraw_and_schedule env s
    else if (key_code ev =? 113) && (event_type ev =? 1)
    then (s, Some QuitCancel)
    else (s, None).

Definition step (env : Env) (e : Event) (s : RawSwitcher)
  : RawSwitcher * option Exit :=
  match e with
  | Tick poll => on_tick env poll s
  | Command cmd => on_command env cmd s
  | Key ev => on_key env ev s
  end.

(** The loop over the iterations that happen, until [run] returns or
    raises. *)
Fixpoint run_loop (s : RawSwitcher) (evs : list (Env * Event))
  : RawSwitcher * option Exit :=
  match evs with
  | [] => (s, None)
  | (env, e) :: rest =>
      match step env e s with
      | (s', Some x) => (s', Some x)
      | (s', None) => run_loop s' rest
      end
  end.

End Loop.

(** What [__init__] reads from its arguments and from the world; the clock
    is read in [_reconcile_mru] ([l_now]), for the score of the active tab,
    for [start_time] and for [last_input_time]. *)
Record Launch : Type := mkLaunch {
  l_tabs : list TabInfo;
  l_mru : list (Z * Q);
  l_direction : Z;
  l_theme : Theme;
  l_now : Q;
  l_now_active : Q;
  l_start : Q;
  l_first_input : Q;
  l_oracle : option Z;
  l_cached : list (Z * list str);
  l_cached_ts : list (Z * Q)
}.

(** [RawSwitcher.__init__]. *)
Definition init (l : Launch) : RawSwitcher :=
  let r := _reconcile_mru (l_tabs l) (l_mru l) (l_now l) in
  let tabs := fst r in
  let original := _active_tab_id tabs in
  let last_used := match original with
                   | Some o => dict_set (snd r) o (l_now_active l)
                   | None => snd r
                   end in
  mkSwitcher tabs (l_theme l) last_used original (map id tabs)
             (_initial_index tabs (l_direction l))
             0%Q false (l_start l) false false (l_oracle l) (l_first_input l)
             false false 0 false false false false
             (l_cached l) (l_cached_ts l) [] [].

(** The start of [run], before the loop: [_send_marker] ([sent] is the
    outcome of the host call, [None] when it was not made or failed with an
    exception), [_check_initial_mods], the first frame and the first
    scheduling. *)
Definition run_prelude (U : unicode_db) (env : Env) (sent : option bool)
  (poll : option Z) (s : RawSwitcher) : RawSwitcher * option exn :=
  let s1 := match sent with
            | Some ok => log_effect ESendMarker (with_marker_sent ok s)
            | None => s
            end in
  let s2 := match ctrl_mask s1, poll with
            | Some mask, Some m =>
                with_initial_ctrl_down (ctrl_is_down m mask)
                  (with_initial_mods_checked true s1)
            | _, _ => s1
            end in
  match draw U env false s2 with
  | (s3, Some e) => (s3, Some e)
  | (s3, None) => (_schedule_preview_fetch env s3, None)
  end.

Definition run (U : unicode_db) (l : Launch) (env : Env) (sent : option bool)
  (poll : option Z) (evs : list (Env * Event)) : RawSwitcher * option Exit :=
  after_draw (run_prelude U env sent poll (init l)) (fun s => run_loop U s evs).

End Switcher.

(** ** Sample sessions *)
Module Samples.
Import Py Keys Switcher Preview Layout.

Definition tab5 : TabInfo := mkTab 5 [] 11 true None.
Definition tab2 : TabInfo := mkTab 2 [] 12 false None.
Definition tab7 : TabInfo := mkTab 7 [] 13 false None.

Definition mode_both : str := [98; 111; 116; 104]%N.

(** The theme of [Theme()]: left-aligned titles with one blank of padding,
    truncated with ["..."], a gap of 2, 12 preview rows, previews in both
    colours. *)
Definition default_theme : Theme :=
  mkTheme [108; 101; 102; 116]%N 1
          [116; 114; 117; 110; 99; 97; 116; 101]%N [46; 46; 46]%N
          2 12 6 24 7 3 mode_both.

(** Unicode tables that know nothing above Latin-1. *)
Definition latin1_only : unicode_db :=
  mkUnicode (fun _ => false) (fun _ => false) (fun _ => false)
            (fun _ => false) (fun _ => None) (fun _ => false).

(** Three tabs, tab 5 active, nothing persisted, the default theme, the
    oracle resolved with mask 4, launched at time 1000 in the "next"
    direction. *)
Definition launch0 : Launch :=
  mkLaunch [tab5; tab2; tab7] [] 1 default_theme
           (1000 # 1) (1000 # 1) (1000 # 1) (1000 # 1) (Some 4) [] [].

(** The world when every reading of the clock is [t]: no screen capture
    available, a terminal of 24 rows and 80 columns, sets visited in
    ascending order. *)
Definition env_at (t : Q) : Env :=
  mkEnv (fun _ => t) (fun _ => None) (24, 80) (fun i => i).

(** The state when the loop is entered: no marker sent, the first poll
    answered "held". *)
Definition session0 : RawSwitcher :=
  fst (run_prelude latin1_only (env_at (1000 # 1)) None (Some 4) (init launch0)).

(** The same launch with a preview of every tab in the store, taken at
    time 1000.05. *)
Definition launch_cached : Launch :=
  mkLaunch [tab5; tab2; tab7] [] 1 default_theme
           (1000 # 1) (1000 # 1) (1000 # 1) (1000 # 1) (Some 4)
           [(5, [[97%N]]); (2, [[98%N]]); (7, [[99%N]])]
           [(5, 100005 # 100); (2, 100005 # 100); (7, 100005 # 100)].

(** The state of that session when the loop is entered at time 1000.1:
    every preview is fresh and the refetch queue is empty. *)
Definition session_cached : RawSwitcher :=
  fst (run_prelude latin1_only (env_at (10001 # 10)) None (Some 4)
                   (init launch_cached)).

(** An iteration during which the clock moves on: [draw] reads 1000.5499
    when it looks at the cards, the scheduling reads 1000.55. *)
Definition env_drift : Env :=
  mkEnv (fun site => match site with
                     | AtTarget _ => 100055 # 100
                     | _ => 10005499 # 10000
                     end)
        (fun _ => None) (24, 80) (fun i => i).

Definition tab_press : KeyEvent := mkKeyEvent TAB_CODE 1 1.
Definition shift_tab_press : KeyEvent := mkKeyEvent TAB_CODE 2 1.

(** Ticks 50 ms apart: held, not held, not held. *)
Definition ticks_release : list (Env * Event) :=
  [(env_at (100005 # 100), Tick (Some 4));
   (env_at (100010 # 100), Tick (Some 0));
   (env_at (100015 # 100), Tick (Some 0))].


(** The line [ESC [ ² m]: an SGR sequence whose parameter is a superscript
    two. *)
Definition superscript_sgr : str := [27; 91; 178; 109]%N.

(** A terminal of 120 columns, wide enough for three cards with
    previews; on 80 columns the layout has titles only. *)
Definition env_wide (t : Q) : Env :=
  mkEnv (fun _ => t) (fun _ => None) (24, 120) (fun i => i).

(** The launch [launch0] with a preview of tab 5 in the store that holds
    the line [ESC [ ² m]. *)
Definition launch_bad : Launch :=
  mkLaunch [tab5; tab2; tab7] [] 1 default_theme
           (1000 # 1) (1000 # 1) (1000 # 1) (1000 # 1) (Some 4)
           [(5, [superscript_sgr])] [(5, 1000 # 1)].

(** Five lines of text. *)
Definition five_lines : list str := repeat [97%N] 5.

Definition red : rgb := (255, 0, 0).
Definition blue : rgb := (0, 0, 255).
Definition red_x : cell := ([120%N], Some red, None).
Definition plain_x : cell := ([120%N], None, None).

(** Ten cells: four red, six without colour; three red, seven without. *)
Definition row_40 : list cell := repeat red_x 4 ++ repeat plain_x 6.


End Samples.

(** ** Notions used to state the properties *)
Module Notions.
Import Py Keys Switcher Preview Samples.

Definition is_digit (c : N) : Prop := (48 <= c <= 57)%N.

(** Characters of a report payload: digits, [:] and [;]. *)
Definition payload_char (c : N) : Prop := (48 <= c <= 59)%N.





(** The part of the state the oracle path reads and writes. *)
Definition oracle_state (s : RawSwitcher) : option Z * bool * Z :=
  (ctrl_mask s, poll_ctrl_seen s, ctrl_up_streak s).


(** The polls of the ticks of a trace, unknown ones included. *)
Definition tick_polls (evs : list (Env * Event)) : list (option Z) :=
  flat_map (fun ee => match snd ee with
                      | Tick p => [p]
                      | _ => []
                      end) evs.


(** Two ticks in a row report the modifier not held. *)
Fixpoint two_in_a_row (mask : Z) (ps : list (option Z)) : bool :=
  match ps with
  | [] => false
  | p :: r =>
      match p, r with
      | Some a, Some b :: _ =>
          (negb (ctrl_is_down a mask) && negb (ctrl_is_down b mask))
          || two_in_a_row mask r
      | _, _ => two_in_a_row mask r
      end
  end.

(** Some tick reports the modifier held and, after it, two ticks in a row
    report it not held. *)
Fixpoint held_then_two_in_a_row (mask : Z) (ps : list (option Z)) : bool :=
  match ps with
  | [] => false
  | Some a :: r =>
      (ctrl_is_down a mask && two_in_a_row mask r)
      || held_then_two_in_a_row mask r
  | None :: r => held_then_two_in_a_row mask r
  end.

(** What a key event that is a cycle key records besides moving. *)
Definition mark_cycle_key (t : Q) (s : RawSwitcher) : RawSwitcher :=
  with_saw_tab_event true (with_last_input_time t (with_any_key_event true s)).

(** What a press of the cycle key leaves, from what the command leaves: the
    marks of a key event at the time [t] of the input and, when the redraw
    did not raise, the scheduling that follows it. *)
Definition cycle_key_after (env : Env) (c : RawSwitcher * option Exit)
  : RawSwitcher * option Exit :=
  match snd c with
  | None =>
      (_schedule_preview_fetch env (mark_cycle_key (clock env AtInput) (fst c)),
       None)
  | Some x => (mark_cycle_key (clock env AtInput) (fst c), Some x)
  end.

(** A tab id that the scheduling queues in state [s]: the tab at one of the
    three targets, which is stale at the reading of the clock the
    scheduling makes for it and is not in the queue. *)
Definition scheduled (env : Env) (s : RawSwitcher) (x : Z) : Prop :=
  exists k i tab,
    In (k, i) (enumerate (neighbourhood s)) /\ tab_at s i = Some tab
    /\ id tab = x /\ _preview_stale (clock env (AtTarget k)) s x = true
    /\ ~ In x (preview_queue s).

(** The preview of tab [x] was fresh each time the redraw of this
    iteration looked at a card of it. *)
Definition fresh_at_redraw (env : Env) (s : RawSwitcher) (x : Z) : Prop :=
  forall k tab,
    In (k, tab) (enumerate (tabs s)) -> id tab = x ->
    _preview_stale (clock env (AtCard k)) s x = false.

(** A tab id that the scheduling of a key press queues after the redraw:
    a target whose preview the redraw found fresh and the scheduling, at
    its later reading of the clock, finds stale. *)
Definition turned_stale (env : Env) (s : RawSwitcher) (x : Z) : Prop :=
  scheduled env s x /\ fresh_at_redraw env s x.

(** The place of a tab id in the list the host reported. *)
Fixpoint position (ids : list Z) (k : Z) : Z :=
  match ids with
  | [] => 0
  | x :: r => if x =? k then 0 else 1 + position r k
  end.

(** The score of a tab before the active tab is forced: its native
    timestamp when any tab has one, else its persisted score; 0 when the
    tab has none. *)
Definition base_score (tabs : list TabInfo) (mru : list (Z * Q)) (t : TabInfo)
  : Q :=
  if existsb has_last_focused tabs
  then match last_focused t with Some x => x | None => 0%Q end
  else get_or mru (id t) 0%Q.

(** The score after the active tab is forced to [max(score, now)]. *)
Definition final_score (tabs : list TabInfo) (mru : list (Z * Q)) (now : Q)
  (t : TabInfo) : Q :=
  match _active_tab_id tabs with
  | Some a => if id t =? a then py_max (base_score tabs mru t) now
              else base_score tabs mru t
  | None => base_score tabs mru t
  end.

(** The sort key [(-score, position)] of a tab and its order. *)
Definition tab_key (tabs : list TabInfo) (mru : list (Z * Q)) (now : Q)
  (t : TabInfo) : Q * Z :=
  (Qopp (final_score tabs mru now t), position (map id tabs) (id t)).

Definition tab_before (tabs : list TabInfo) (mru : list (Z * Q)) (now : Q)
  (a b : TabInfo) : bool :=
  key_lt (tab_key tabs mru now a) (tab_key tabs mru now b).

(** [a] comes before [b] in the reconciled order: a higher score, or the
    same score and an earlier place in the host's list. *)
Definition mru_before (tabs : list TabInfo) (mru : list (Z * Q)) (now : Q)
  (a b : TabInfo) : Prop :=
  (final_score tabs mru now b < final_score tabs mru now a)%Q
  \/ ((final_score tabs mru now a == final_score tabs mru now b)%Q
      /\ position (map id tabs) (id a) < position (map id tabs) (id b)).

Definition tab1 : TabInfo := mkTab 1 [] 21 false None.
Definition tab2' : TabInfo := mkTab 2 [] 22 false None.
Definition tab3 : TabInfo := mkTab 3 [] 23 true None.











(** The order of the sort keys, as a proposition. *)
Definition key_lt_prop (a b : Q * Z) : Prop :=
  (fst a < fst b)%Q \/ ((fst a == fst b)%Q /\ snd a < snd b).


End Notions.


(** ** Notions used to state further properties of the code *)
Module MoreNotions.
Import Py Keys Switcher Preview Layout Samples Notions.

(** A byte that does not end a control sequence. *)
Definition not_final (b : byte) : Prop := is_final b = false.

(** What the terminal sends for [ESC [ params final], followed by what it
    sends next. *)
Definition csi_input (params : list byte) (final : byte) (rest : source)
  : source :=
  Data "027"%byte :: Data "["%byte :: map Data params ++ Data final :: rest.

(** [buf[2:-1].decode("ascii", "ignore").strip()] of the sequence. *)
Definition tilde_params (params : list byte) : str :=
  strip ascii_isspace (decode_ascii_ignore params).

(** One write of the switcher to its own state, as the source makes it while
    [run] has not returned.  Every function of the loop is a sequence of
    these. *)
Inductive update (s : RawSwitcher) : RawSwitcher -> Prop :=
| upd_any_key : update s (with_any_key_event true s)
| upd_input_time t : update s (with_last_input_time t s)
| upd_marker_seen : update s (with_marker_seen true s)
| upd_ctrl_down b : update s (with_ctrl_down b s)
| upd_ctrl_seen : update s (with_ctrl_seen true s)
| upd_saw_tab : update s (with_saw_tab_event true s)
| upd_poll_seen : update s (with_poll_ctrl_seen true s)
| upd_streak_reset : update s (with_ctrl_up_streak 0 s)
| upd_streak_incr : update s (with_ctrl_up_streak (ctrl_up_streak s + 1) s)
| upd_select d :
    tabs s <> [] ->
    update s (with_selected_index ((selected_index s + d) mod len (tabs s)) s)
| upd_store env t tab : In tab (tabs s) -> update s (store_preview env t tab s)
| upd_enqueue x :
    mem x (preview_queue s) = false ->
    update s (with_preview_queue (preview_queue s ++ [x]) s)
| upd_dequeue x rest :
    preview_queue s = x :: rest -> update s (with_preview_queue rest s)
| upd_frame t force :
    update s (log_effect (EDraw force (selected_index s)) (with_last_draw t s))
| upd_marker_sent ok : update s (log_effect ESendMarker (with_marker_sent ok s))
| upd_initial_mods b :
    update s (with_initial_ctrl_down b (with_initial_mods_checked true s)).

Inductive updates (s : RawSwitcher) : RawSwitcher -> Prop :=
| updates_refl : updates s s
| updates_step s1 s2 : updates s s1 -> update s1 s2 -> updates s s2.

(** The exits that commit; two cancel, and an exception does neither. *)
Definition is_commit (x : Exit) : bool :=
  match x with
  | EscapeCancel | QuitCancel | Raised _ => false
  | _ => true
  end.

(** The state [run] ends with, from the state [s0] in which it decided
    to return or in which an exception left it. *)
Definition finish (env : Env) (x : option Exit) (s0 : RawSwitcher)
  : RawSwitcher :=
  match x with
  | Some c => if is_commit c then commit env s0 else s0
  | None => s0
  end.

(** An effect that neither persists the MRU order nor switches tabs. *)
Definition quiet (e : Effect) : Prop :=
  match e with
  | ESaveMRU _ | EFocusTab _ => False
  | _ => True
  end.

(** The effects of a commit, read off the state [run] returned with. *)
Definition closing_effects (x : option Exit) (s' : RawSwitcher) : list Effect :=
  match x with
  | Some c =>
      if is_commit c
      then match _current_tab_id s' with
           | Some t => [ESaveMRU (last_used s'); EFocusTab t]
           | None => []
           end
      else []
  | None => []
  end.

Definition in_range (s : RawSwitcher) : Prop :=
  0 <= selected_index s < len (tabs s).

(** The step a cycling event asks for: Tab pressed or repeating (backwards
    with shift), the legacy back-tab, and the commands [next] and [prev]. *)
Definition cycle_delta (e : Event) : option Z :=
  match e with
  | Key ev =>
      if (key_code ev =? TAB_CODE)
         && ((event_type ev =? 1) || (event_type ev =? 2))
      then Some (if shift ev then -1 else 1)
      else if key_code ev =? - TAB_CODE then Some (-1)
      else None
  | Command cmd =>
      if str_eqb cmd cmd_prev then Some (-1)
      else if str_eqb cmd cmd_next then Some 1
      else None
  | Tick _ => None
  end.

Definition total_delta (evs : list (Env * Event)) : Z :=
  fold_right (fun ee acc => match cycle_delta (snd ee) with
                            | Some d => d + acc
                            | None => acc
                            end) 0 evs.

(** The events of a trace that were handled when the loop ended: all of
    them while the loop runs, else those up to the one that ended it. *)
Fixpoint handled (U : unicode_db) (s : RawSwitcher) (evs : list (Env * Event))
  : list (Env * Event) :=
  match evs with
  | [] => []
  | (env, e) :: rest =>
      match step U env e s with
      | (_, Some _) => [(env, e)]
      | (s', None) => (env, e) :: handled U s' rest
      end
  end.

(** A preview that [render_block_preview] takes without raising: none of
    its lines holds [ESC \[], or all of them parse. *)
Definition renders (U : unicode_db) (lines : list str) : Prop :=
  has_ansi lines = false \/ exists cells, parse_ansi_lines U lines = Ok cells.

(** Every preview in the cache renders. *)
Definition cache_renders (U : unicode_db) (s : RawSwitcher) : Prop :=
  Forall (fun kv => renders U (snd kv)) (preview_cache s).

(** Every capture the host answers with renders. *)
Definition captures_render (U : unicode_db) (env : Env) : Prop :=
  forall w lines, capture env w = Some lines -> renders U lines.

Definition is_save_previews (e : Effect) : bool :=
  match e with ESavePreviews _ => true | _ => false end.

(** The four glyphs of a plain preview. *)
Definition is_block_glyph (c : N) : Prop :=
  c = 32%N \/ c = UPPER_HALF \/ c = LOWER_HALF \/ c = FULL_BLOCK.

(** The bit at row [r], column [c] of the mask of [downsample_mask]. *)
Definition mask_at (lines : list str) (cols rows r c : Z) : bool :=
  get (get (downsample_mask lines cols rows) r []) c false.

(** The character at a place of the source text as the downsampler reads
    it: a space beyond the end of a line. *)
Definition char_of (lines : list str) (r c : Z) : N :=
  get (get lines r []) c 32%N.

(** Every place filled in [a] is filled in [b]. *)
Definition covers (a b : list str) : Prop :=
  forall r c, char_of a r c <> 32%N -> char_of b r c <> 32%N.

Definition component_ok (v : Z) : Prop := 0 <= v <= 255.

Definition rgb_ok (c : rgb) : Prop :=
  component_ok (fst (fst c)) /\ component_ok (snd (fst c)) /\ component_ok (snd c).

(** The scan of a line from its first character in a given state, as the
    loop of [parse_ansi_lines] runs it. *)
Definition scan_from (U : unicode_db) (st : scan) (l : str) : result scan :=
  scan_line U (length l) l 0 st.

(** A character the parser takes as one cell of width one: not the start
    of a sequence, not a tab or carriage return, not a private-use or wide
    glyph, not a control or combining character. *)
Definition narrow (U : unicode_db) (c : N) : Prop :=
  c <> 27%N /\ c <> 9%N /\ c <> 13%N
  /\ _char_width U c = 1 /\ _is_private_use c = false.

Definition printable (c : N) : Prop := (32 <= c <= 126)%N.

(** The tables class the three block glyphs as narrow characters. *)
Definition blocks_narrow (U : unicode_db) : Prop :=
  narrow U UPPER_HALF /\ narrow U LOWER_HALF /\ narrow U FULL_BLOCK.

(** What one rendered cell shows: its glyph, and the colours of the block
    that the colour mode lets through. *)
Definition shown_cell (mode : ColorMode) (up lo : block) : cell :=
  let '(ch, (fg, bg)) := color_glyph up lo in
  ([ch],
   match mode with ModeFg | ModeBoth => fg | _ => None end,
   match mode with ModeBg | ModeBoth => bg | _ => None end).

(** The line [render_block_preview] writes for a row of block pairs. *)
Definition rendered_line (mode : ColorMode) (pairs : list (block * block))
  : str :=
  flat_map (fun ul => emit_cell mode (fst ul) (snd ul)) pairs.

(** The block pairs behind output row [r]: for each column the cell of
    the upper and of the lower mask row. *)
Definition row_pairs (mask : list (list block)) (cols r : Z)
  : list (block * block) :=
  map (fun c => (get (mask_row mask (r * 2) cols empty_block) c empty_block,
                 get (mask_row mask (r * 2 + 1) cols empty_block) c empty_block))
      (range 0 cols).

(** A text as the terminal reads it: visible characters and escape
    sequences [ESC body m]. *)
Inductive token : Type :=
| Glyph (c : N)
| Seq (body : str).

Definition token_text (t : token) : str :=
  match t with
  | Glyph c => [c]
  | Seq body => 27%N :: body ++ [109%N]
  end.

Definition text_of (ts : list token) : str := flat_map token_text ts.

(** A glyph is not [ESC]; the body of a sequence holds neither an [m],
    which would end it early, nor an [ESC]. *)
Definition well_formed (t : token) : Prop :=
  match t with
  | Glyph c => c <> 27%N
  | Seq body => ~ In 109%N body
  end.

Definition is_seq (t : token) : bool :=
  match t with Seq _ => true | Glyph _ => false end.

(** The visible characters of a text. *)
Definition visible_of (ts : list token) : str :=
  flat_map (fun t => match t with Glyph c => [c] | Seq _ => [] end) ts.

(** The tokens up to the [n]-th visible character, that one included. *)
Fixpoint take_visible (n : Z) (ts : list token) : list token :=
  match ts with
  | [] => []
  | t :: r =>
      if n <=? 0 then []
      else match t with
           | Glyph _ => t :: take_visible (n - 1) r
           | Seq _ => t :: take_visible n r
           end
  end.

End MoreNotions.
(** * Properties *)

(** ** Facts about the Python primitives *)
Module PyFacts.
Import Py Notions.

Lemma ascii_digit_of_digit c :
  is_digit c -> ascii_digit c = Some (c - 48)%N.
Proof.
  unfold is_digit, ascii_digit. intros [H1 H2].
  apply N.leb_le in H1. apply N.leb_le in H2. now rewrite H1, H2.
Qed.

Lemma split_app_sep sep a b :
  Forall (fun c => c <> sep) a ->
  split sep (a ++ sep :: b) = a :: split sep b.
Proof.
  induction 1 as [|c a Hc _ IH]; simpl.
  - now rewrite N.eqb_refl.
  - apply N.eqb_neq in Hc. now rewrite Hc, IH.
Qed.

Lemma split_no_sep sep a :
  Forall (fun c => c <> sep) a -> split sep a = [a].
Proof.
  induction 1 as [|c a Hc _ IH]; simpl; [reflexivity|].
  apply N.eqb_neq in Hc. now rewrite Hc, IH.
Qed.

Lemma split_once_app_sep sep a b :
  Forall (fun c => c <> sep) a ->
  split_once sep (a ++ sep :: b) = Some (a, b).
Proof.
  induction 1 as [|c a Hc _ IH]; simpl.
  - now rewrite N.eqb_refl.
  - apply N.eqb_neq in Hc. now rewrite Hc, IH.
Qed.

Lemma split_once_no_sep sep a :
  Forall (fun c => c <> sep) a -> split_once sep a = None.
Proof.
  induction 1 as [|c a Hc _ IH]; simpl; [reflexivity|].
  apply N.eqb_neq in Hc. now rewrite Hc, IH.
Qed.

Lemma lstrip_head sp c s : sp c = false -> lstrip sp (c :: s) = c :: s.
Proof. intros H. simpl. now rewrite H. Qed.

Lemma digit_not_space c : is_digit c -> c_isspace c = false.
Proof.
  unfold is_digit, c_isspace. intros [H1 H2].
  destruct (N.leb_spec c 13); [lia|]. rewrite andb_false_r. simpl.
  apply N.eqb_neq. lia.
Qed.

Lemma strip_digits s :
  Forall is_digit s -> strip c_isspace s = s.
Proof.
  intros H. unfold strip.
  assert (L : forall t, Forall is_digit t -> lstrip c_isspace t = t).
  { intros t Ht. destruct Ht as [|c t Hc _]; [reflexivity|].
    apply lstrip_head. now apply digit_not_space. }
  rewrite (L s H). rewrite L by now apply Forall_rev.
  apply rev_involutive.
Qed.

Lemma digits_of_S f n acc :
  digits_of (S f) n acc =
  if (n / 10 =? 0)%N then (48 + n mod 10)%N :: acc
  else digits_of f (n / 10)%N ((48 + n mod 10)%N :: acc).
Proof. reflexivity. Qed.

(** The digits [digits_of] puts in front of its accumulator read back as
    the number. *)
Lemma digits_of_spec fuel : forall n acc,
  (n < 2 ^ N.of_nat fuel)%N ->
  exists ds,
    digits_of (S fuel) n acc = ds ++ acc /\ ds <> [] /\ Forall is_digit ds /\
    forall a b rest,
      int_digits a b (ds ++ rest)
      = int_digits (a * 10 ^ N.of_nat (length ds) + n) true rest.
Proof.
  induction fuel as [|f IH]; intros n acc Hn.
  - assert (n = 0%N) by (simpl in Hn; lia). subst n.
    exists [48%N]. split; [reflexivity|]. split; [discriminate|]. split.
    + constructor; [unfold is_digit; lia | constructor].
    + intros a b rest. cbn. f_equal; lia.
  - rewrite digits_of_S.
    assert (Hm : (n mod 10 < 10)%N) by (apply N.mod_lt; lia).
    pose proof (N.div_mod n 10 ltac:(lia)) as Hdm.
    revert Hm Hdm. generalize (n mod 10)%N as m. intros m Hm Hdm.
    assert (Hd : is_digit (48 + m)%N) by (unfold is_digit; lia).
    destruct (N.eqb_spec (n / 10) 0) as [Hz|Hnz].
    + exists [(48 + m)%N].
      split; [reflexivity|]. split; [discriminate|]. split.
      * constructor; [exact Hd | constructor].
      * intros a b rest. cbn [app int_digits length].
        rewrite (ascii_digit_of_digit _ Hd). f_equal.
        change (N.of_nat 1) with 1%N. rewrite N.pow_1_r. lia.
    + assert (Hq : (n / 10 < 2 ^ N.of_nat f)%N).
      { rewrite Nnat.Nat2N.inj_succ, N.pow_succ_r' in Hn.
        apply N.Div0.div_lt_upper_bound. lia. }
      revert Hnz Hq Hdm. generalize (n / 10)%N as q. intros q Hnz Hq Hdm.
      destruct (IH q ((48 + m)%N :: acc) Hq)
        as (ds & Heq & Hne & Hds & Hval).
      exists (ds ++ [(48 + m)%N]).
      split; [rewrite Heq, <- app_assoc; reflexivity|].
      split; [destruct ds; discriminate|]. split.
      * apply Forall_app. split; [exact Hds|].
        constructor; [exact Hd | constructor].
      * intros a b rest. rewrite <- app_assoc. cbn [app].
        rewrite Hval. cbn [int_digits].
        rewrite (ascii_digit_of_digit _ Hd). f_equal.
        rewrite length_app. cbn [length].
        rewrite Nat.add_1_r, Nnat.Nat2N.inj_succ, N.pow_succ_r'.
        replace (48 + m - 48)%N with m by lia. subst n. ring.
Qed.

Lemma str_of_N_spec n :
  str_of_N n <> [] /\ Forall is_digit (str_of_N n) /\
  int_digits 0 false (str_of_N n) = Some n.
Proof.
  unfold str_of_N.
  destruct (digits_of_spec (N.to_nat (N.size n)) n []) as (ds & Heq & Hne & Hds & Hval).
  { rewrite Nnat.N2Nat.id. apply N.size_gt. }
  rewrite Heq, app_nil_r. repeat split; try assumption.
  specialize (Hval 0%N false []). rewrite app_nil_r in Hval.
  rewrite Hval. simpl. reflexivity.
Qed.

Lemma int_ascii_str_of_N n : int_ascii (str_of_N n) = Ok (Z.of_N n).
Proof.
  destruct (str_of_N_spec n) as (Hne & Hds & Hval).
  unfold int_ascii. rewrite strip_digits by assumption.
  unfold int_signed. destruct (str_of_N n) as [|c r] eqn:E; [congruence|].
  inversion Hds as [|? ? Hc _]; subst.
  unfold is_digit in Hc.
  destruct (N.eqb_spec c 43); [lia|]. destruct (N.eqb_spec c 45); [lia|].
  now rewrite Hval.
Qed.

End PyFacts.

(** ** The key decoder *)
Module KeysFacts.
Import Py Keys PyFacts Notions.

Lemma digit_payload_char s : Forall is_digit s -> Forall payload_char s.
Proof.
  apply Forall_impl. unfold is_digit, payload_char. intros; lia.
Qed.

Lemma digits_no_sep sep s :
  (58 <= sep)%N -> Forall is_digit s -> Forall (fun c => c <> sep) s.
Proof.
  intros Hs. apply Forall_impl. unfold is_digit. intros; lia.
Qed.

Lemma report_payload_chars k : Forall payload_char (report_payload k).
Proof.
  unfold report_payload.
  assert (D : forall n, Forall payload_char (str_of_N n)).
  { intros n. apply digit_payload_char, str_of_N_spec. }
  assert (C : forall c, (c = 58 \/ c = 59)%N -> payload_char c).
  { unfold payload_char. intros; lia. }
  repeat (apply Forall_app; split); auto.
  - destruct (kr_alt k); auto.
  - destruct (kr_mods k) as [[m [e|]]|]; auto;
      constructor; auto; repeat (apply Forall_app; split); auto.
Qed.

Lemma to_N_byte_of_char c : (c < 256)%N -> Byte.to_N (byte_of_char c) = c.
Proof.
  intros H. unfold byte_of_char.
  destruct (Byte.of_N c) as [b|] eqn:E.
  - now apply Byte.to_of_N.
  - apply Byte.of_N_None_iff in E. lia.
Qed.

Lemma payload_bytes_not_final p :
  Forall payload_char p ->
  Forall (fun b => is_final b = false) (map byte_of_char p).
Proof.
  intros H. apply Forall_map. revert H. apply Forall_impl.
  unfold payload_char, is_final. intros c Hc.
  rewrite to_N_byte_of_char by lia.
  destruct (N.leb_spec 64 c); [lia | reflexivity].
Qed.

Lemma decode_payload_bytes p :
  Forall payload_char p -> decode_ascii_ignore (map byte_of_char p) = p.
Proof.
  unfold decode_ascii_ignore. induction 1 as [|c p Hc _ IH]; [reflexivity|].
  unfold payload_char in Hc. cbn [map filter].
  rewrite to_N_byte_of_char by lia.
  destruct (N.ltb_spec c 128); [|lia]. now rewrite IH.
Qed.

(** The collecting loop takes a whole sequence that fits the buffer. *)
Lemma read_seq_collect bs : forall fuel buf last rest,
  Forall (fun b => is_final b = false) bs -> is_final last = true ->
  (length buf + length bs <= 64)%nat -> (length bs < fuel)%nat ->
  read_seq fuel buf (map Data bs ++ Data last :: rest)
  = (Ok (buf ++ bs ++ [last]), rest).
Proof.
  induction bs as [|b bs IH]; intros fuel buf last rest Hbs Hlast Hlen Hfuel.
  - destruct fuel; [inversion Hfuel|]. cbn. now rewrite Hlast.
  - destruct fuel; [inversion Hfuel|]. inversion Hbs as [|? ? Hb Hbs']; subst.
    cbn [map app read_seq read_with_timeout next_read]. rewrite Hb.
    cbn [length] in Hlen, Hfuel.
    destruct (Nat.ltb_spec 64 (length (buf ++ [b]))) as [Hgt|_].
    + rewrite length_app in Hgt. cbn in Hgt. lia.
    + rewrite IH; try assumption.
      * now rewrite <- app_assoc.
      * rewrite length_app. cbn. lia.
      * lia.
Qed.

Lemma endswith_last buf last b :
  endswith (buf ++ [last]) b = Byte.eqb last b.
Proof. unfold endswith. now rewrite rev_unit. Qed.

Lemma payload_of_frame bs last :
  payload_of (["027"; "["]%byte ++ bs ++ [last]) = bs.
Proof. unfold payload_of. cbn [app skipn]. apply removelast_last. Qed.

Lemma or_default_str_of_N n d : or_default (str_of_N n) d = Ok (Z.of_N n).
Proof.
  destruct (str_of_N_spec n) as (Hne & _ & _).
  unfold or_default. destruct (str_of_N n) eqn:E; [congruence|].
  rewrite <- E. apply int_ascii_str_of_N.
Qed.

Lemma nonempty_match {A B} (l : list A) (x y : B) :
  l <> [] -> match l with [] => x | _ :: _ => y end = y.
Proof. destruct l; [congruence | reflexivity]. Qed.

(** [parse_csi_u] on the frame of a report. *)
Lemma parse_csi_u_report k :
  parse_csi_u (encode_report k)
  = Ok (Some (mkKeyEvent (Z.of_N (kr_key k)) (report_mods k) (report_event k))).
Proof.
  unfold parse_csi_u, encode_report.
  rewrite payload_of_frame, decode_payload_bytes by apply report_payload_chars.
  pose proof (str_of_N_spec (kr_key k)) as (Hkne & Hkd & _).
  assert (S59 : forall n, Forall (fun c => c <> 59%N) (str_of_N n)).
  { intros n. apply digits_no_sep; [lia | apply str_of_N_spec]. }
  assert (S58 : forall n, Forall (fun c => c <> 58%N) (str_of_N n)).
  { intros n. apply digits_no_sep; [lia | apply str_of_N_spec]. }
  assert (K59 : Forall (fun c => c <> 59%N)
                  (str_of_N (kr_key k)
                   ++ match kr_alt k with
                      | Some a => 58%N :: str_of_N a
                      | None => []
                      end)).
  { apply Forall_app. split; [apply S59|].
    destruct (kr_alt k); [constructor; [lia | apply S59] | constructor]. }
  assert (KEY :
    hd [] (split 58 (str_of_N (kr_key k)
                     ++ match kr_alt k with
                        | Some a => 58%N :: str_of_N a
                        | None => []
                        end)) = str_of_N (kr_key k)).
  { destruct (kr_alt k).
    - now rewrite split_app_sep by apply S58.
    - rewrite app_nil_r. now rewrite split_no_sep by apply S58. }
  assert (PNE : report_payload k <> []).
  { unfold report_payload. intros E. apply app_eq_nil in E.
    destruct E. congruence. }
  rewrite (nonempty_match _ _ _ PNE).
  unfold report_payload, report_mods, report_event.
  destruct (kr_mods k) as [[m e]|].
  - rewrite app_assoc, (split_app_sep 59) by exact K59.
    cbn [hd tl]. rewrite KEY, or_default_str_of_N. cbn [bind].
    pose proof (str_of_N_spec m) as (Hmne & _ & _).
    assert (MNE : forall t, str_of_N m ++ t <> []).
    { intros t E. apply app_eq_nil in E. destruct E. congruence. }
    destruct e as [e|].
    + assert (M59 : Forall (fun c => c <> 59%N)
                      (str_of_N m ++ 58%N :: str_of_N e)).
      { apply Forall_app. split; [apply S59|]. constructor; [lia | apply S59]. }
      rewrite (split_no_sep 59) by exact M59. cbn [hd tl].
      rewrite (nonempty_match _ _ _ (MNE _)).
      rewrite split_once_app_sep by apply S58.
      now rewrite !or_default_str_of_N.
    + rewrite app_nil_r, (split_no_sep 59) by apply S59. cbn [hd tl].
      rewrite (nonempty_match _ _ _ Hmne).
      rewrite split_once_no_sep by apply S58.
      now rewrite int_ascii_str_of_N.
  - rewrite app_nil_r, (split_no_sep 59) by exact K59.
    cbn [hd tl]. now rewrite KEY, or_default_str_of_N.
Qed.

(** The decoder raises nowhere else: a [ValueError] comes out of
    [parse_csi_u] on a sequence that ends in [u], an [OSError] out of a
    read of the terminal after the first byte. *)
Lemma interpret_seq_raises buf e :
  interpret_seq buf = Raise e ->
  endswith buf "u"%byte = true /\ parse_csi_u buf = Raise e.
Proof.
  unfold interpret_seq.
  repeat match goal with
         | |- context [if ?x then _ else _] => destruct x eqn:?
         end; try discriminate.
  intros H. split; [|exact H].
  match goal with
  | E : negb (endswith buf "u"%byte) = false |- _ =>
      now apply negb_false_iff in E
  end.
Qed.

Lemma read_seq_raises fuel : forall buf src e r,
  read_seq fuel buf src = (Raise e, r) -> e = OSError.
Proof.
  induction fuel as [|f IH]; intros buf src e r; cbn [read_seq];
    [discriminate|].
  unfold read_with_timeout, next_read.
  destruct src as [|[b| |] rest]; try discriminate.
  - destruct (is_final b); [discriminate|].
    destruct (64 <? length (buf ++ [b]))%nat; [discriminate|]. apply IH.
  - now intros [= <- _].
Qed.

Lemma read_key_raises_only_in_report src e r :
  read_key src = (Raise e, r) ->
  e = OSError
  \/ exists buf, endswith buf "u"%byte = true /\ parse_csi_u buf = Raise e.
Proof.
  unfold read_key, read_with_timeout, next_read.
  destruct src as [|[first| |] rest]; try discriminate.
  destruct (Byte.eqb first "009"); [discriminate|].
  destruct (negb (Byte.eqb first "027")); [discriminate|].
  destruct rest as [|[nxt| |] rest1]; try discriminate.
  - destruct (negb (Byte.eqb nxt "[")); [discriminate|].
    destruct (read_seq 64 ["027"%byte; "["%byte] rest1) as [[buf|e'] r2] eqn:E.
    + intros [= H _]. right. exists buf. now apply interpret_seq_raises.
    + intros [= <- _]. left. now apply (read_seq_raises _ _ _ _ _ E).
  - intros [= <- _]. now left.
Qed.

(** C1, at the failing input [ESC [ ? u]: the terminator is [u], the
    payload is ["?"], and [int("?")] in [parse_csi_u] raises [ValueError],
    which [read_key] does not catch. *)
Theorem read_key_raises_on_bad_report :
  read_key [Data "027"; Data "["; Data "?"; Data "u"]%byte
  = (Raise ValueError, []).
Proof. vm_compute. reflexivity. Qed.

(** C2: a structured key report [ESC [ key[:alt][;mods[:event]] u] that fits
    the decoder's 64-byte buffer decodes to the key event with the encoded
    code, modifiers and event type, and an omitted field takes its default,
    [mods = 1] and [event_type = 1]. *)
Theorem read_key_decodes_report (k : KeyReport) (rest : source) :
  (length (report_payload k) <= 62)%nat ->
  read_key (map Data (encode_report k) ++ rest)
  = (Ok (Some (mkKeyEvent (Z.of_N (kr_key k)) (report_mods k) (report_event k))),
     rest).
Proof.
  intros Hlen.
  pose proof (report_payload_chars k) as Hchars.
  assert (Hseq :
    read_seq 64 ["027"; "["]%byte
      (map Data (map byte_of_char (report_payload k)) ++ Data "u"%byte :: rest)
    = (Ok (encode_report k), rest)).
  { apply read_seq_collect.
    - now apply payload_bytes_not_final.
    - reflexivity.
    - rewrite length_map. cbn [length]. lia.
    - rewrite length_map. lia. }
  unfold encode_report at 1.
  cbn [app map read_key next_read read_with_timeout Byte.eqb negb].
  change (Byte.eqb "027" "009") with false.
  change (Byte.eqb "027" "027") with true.
  change (Byte.eqb "[" "[") with true. cbn [negb].
  rewrite map_app. cbn [map]. rewrite <- app_assoc. cbn [app].
  rewrite Hseq.
  unfold interpret_seq, encode_report.
  rewrite !app_assoc, !endswith_last.
  change (Byte.eqb "u" "Z") with false.
  change (Byte.eqb "u" "I") with false.
  change (Byte.eqb "u" "~") with false.
  change (Byte.eqb "u" "u") with true.
  cbn [andb negb]. rewrite <- !app_assoc.
  f_equal. apply parse_csi_u_report.
Qed.

Lemma read_key_decodes_report_witness :
  read_key (map Data (encode_report (mkKeyReport 57442 (Some 65%N) (Some (5%N, Some 3%N)))) ++ [])
  = (Ok (Some (mkKeyEvent 57442 5 3)), []).
Proof.
  apply (read_key_decodes_report
           (mkKeyReport 57442 (Some 65%N) (Some (5%N, Some 3%N))) []).
  vm_compute. lia.
Defined.

(** C9, as the code has it: [ctrl_is_down mods mask] holds exactly when
    [mods & mask] is non-zero, or [mods] is positive and [(mods - 1) & 4] is
    non-zero; it holds for [mods = 5] with [mask = 4] and fails for
    [mods = 1] with [mask = 4]. *)
Theorem ctrl_is_down_spec (mods mask : Z) :
  (ctrl_is_down mods mask = true <->
   Z.land mods mask <> 0 \/ (0 < mods /\ Z.land (mods - 1) 4 <> 0))
  /\ ctrl_is_down 5 4 = true /\ ctrl_is_down 1 4 = false.
Proof.
  split; [|split; reflexivity].
  unfold ctrl_is_down.
  destruct (Z.eqb_spec (Z.land mods mask) 0) as [E1|E1]; cbn [negb].
  - destruct (Z.ltb_spec 0 mods) as [Hp|Hp]; cbn [andb].
    + destruct (Z.eqb_spec (Z.land (mods - 1) 4) 0) as [E2|E2]; cbn [negb].
      * split; [discriminate|]. intros [H|[_ H]]; contradiction.
      * split; [now right | reflexivity].
    + split; [discriminate|]. intros [H|[H _]]; [contradiction | lia].
  - split; [now left | reflexivity].
Qed.

(** C9 as worded fails at [mods = 0] with [mask = 4]: [(0 - 1) & 4] is 4,
    so the stated condition holds, yet the guard [mods > 0] keeps
    [ctrl_is_down 0 4] false. *)
Lemma ctrl_is_down_zero_mods :
  0 <= 0
  /\ (Z.land 0 4 <> 0 \/ Z.land (0 - 1) 4 <> 0)
  /\ ctrl_is_down 0 4 = false.
Proof.
  split; [lia|]. split; [right; discriminate | reflexivity].
Qed.

End KeysFacts.
(** ** The layout of a frame *)
Module LayoutFacts.
Import Py Preview Layout.

Lemma fit_width_min tries mw maxw target :
  mw <= snd (fit_width tries mw maxw target).
Proof.
  induction tries as [|g rest IH]; cbn [fit_width snd]; [lia|].
  destruct (_ <=? 0); [exact IH|]. cbv zeta.
  destruct (_ <=? maxw); [cbn [snd]; lia | exact IH].
Qed.

Lemma compute_layout_max theme n_tabs rows cols :
  lay_max_cards (_compute_layout theme n_tabs rows cols) = Z.max 1 n_tabs
  /\ card_min_width theme
     <= lay_card_w (_compute_layout theme n_tabs rows cols).
Proof.
  unfold _compute_layout. cbv zeta.
  pose proof (fit_width_min [gap theme; 1; 0] (card_min_width theme)
                (Z.max 1 (cols - 2)) (Z.max 1 n_tabs)) as Hwd.
  destruct (fit_width _ _ _ _) as [g card_w]. cbn [snd] in Hwd.
  destruct (_ || _); cbn; split; lia.
Qed.

End LayoutFacts.

(** ** Commit and the MRU order *)
Module CommitFacts.
Import Py Keys Switcher Samples Notions.

Lemma In_dict_set {V} (d : list (Z * V)) k v k' v' :
  In (k', v') (dict_set d k v) -> (k', v') = (k, v) \/ In (k', v') d.
Proof.
  induction d as [|[k0 v0] d IH]; cbn [dict_set].
  - intros [H|[]]. now left.
  - destruct (Z.eqb_spec k0 k) as [->|Hne].
    + intros [H|H]; [left; congruence | right; now right].
    + intros [H|H]; [right; now left|].
      destruct (IH H) as [E|E]; [now left | right; now right].
Qed.



Lemma range_cons lo n :
  range lo (lo + Z.of_nat (S n)) = lo :: range (lo + 1) (lo + 1 + Z.of_nat n).
Proof.
  unfold range.
  replace (lo + Z.of_nat (S n) - lo) with (Z.of_nat (S n)) by lia.
  replace (lo + 1 + Z.of_nat n - (lo + 1)) with (Z.of_nat n) by lia.
  rewrite !Nat2Z.id. cbn [seq map]. f_equal; [lia|].
  rewrite <- seq_shift, map_map. apply map_ext. intros; lia.
Qed.








End CommitFacts.
(** ** The event loop *)
Module LoopFacts.
Import Py Keys Preview Layout Switcher Samples Notions.

Lemma fold_left_keeps {A B C} (P : A -> C) (f : A -> B -> A) (l : list B) :
  (forall st x, P (f st x) = P st) ->
  forall s, P (fold_left f l s) = P s.
Proof.
  intros Hf. induction l as [|x l IH]; intros s; cbn; [reflexivity|].
  now rewrite IH, Hf.
Qed.

Lemma fold_left_commutes {A B} (g : A -> A) (f : A -> B -> A) (l : list B) :
  (forall st x, f (g st) x = g (f st x)) ->
  forall s, fold_left f l (g s) = g (fold_left f l s).
Proof.
  intros Hf. induction l as [|x l IH]; intros s; cbn; [reflexivity|].
  now rewrite Hf, IH.
Qed.

Ltac split_ifs :=
  repeat match goal with
         | |- context [match ?x with _ => _ end] => destruct x
         | |- context [if ?x then _ else _] => destruct x
         end.

Lemma oracle_store_preview env t tab s :
  oracle_state (store_preview env t tab s) = oracle_state s.
Proof. reflexivity. Qed.



(** What the loop of [draw] over the cards leaves alone: everything but
    the refetch queue. *)
Lemma draw_cards_keeps {C} (P : RawSwitcher -> C) U env layout cards :
  (forall v st, P (with_preview_queue v st) = P st) ->
  forall st, P (fst (draw_cards U env layout cards st)) = P st.
Proof.
  intros HP. induction cards as [|[k tab] cards IH]; intros st;
    cbn [draw_cards]; [reflexivity|].
  set (st1 := if _preview_stale _ st (id tab) then _ else st).
  assert (H1 : P st1 = P st).
  { unfold st1, enqueue. split_ifs; try reflexivity. apply HP. }
  destruct (_draw_card U layout st1 tab); [|exact H1].
  now rewrite IH.
Qed.

Lemma draw_keeps {C} (P : RawSwitcher -> C) U env force s :
  (forall v st, P (with_preview_queue v st) = P st) ->
  (forall e st, P (log_effect e st) = P st) ->
  (forall v st, P (with_last_draw v st) = P st) ->
  P (fst (draw U env force s)) = P s.
Proof.
  intros H1 H2 H3. unfold draw. destruct (negb force && _); [reflexivity|].
  destruct (tabs _); [cbn [fst]; now rewrite H2, H3|].
  rewrite draw_cards_keeps by exact H1. now rewrite H2, H3.
Qed.

Lemma oracle_draw U env force s :
  oracle_state (fst (draw U env force s)) = oracle_state s.
Proof. now apply draw_keeps. Qed.


Lemma oracle_drain env s :
  oracle_state (fst (_drain_preview_queue env s)) = oracle_state s.
Proof. unfold _drain_preview_queue. split_ifs; reflexivity. Qed.



(** What [after_draw] leaves when nothing follows the redraw, and when
    something does. *)
Lemma after_draw_fst r k :
  fst (after_draw r k) = match snd r with
                         | Some _ => fst r
                         | None => fst (k (fst r))
                         end.
Proof. destruct r as [s1 [e|]]; reflexivity. Qed.

Lemma after_draw_snd r k :
  snd (after_draw r k) = match snd r with
                         | Some e => Some (Raised e)
                         | None => snd (k (fst r))
                         end.
Proof. destruct r as [s1 [e|]]; reflexivity. Qed.




(** No other path leaves the loop as a poll commit. *)
Lemma timeout_guards_exit env s :
  snd (timeout_guards env s) <> Some CtrlPollCommit.
Proof. unfold timeout_guards. split_ifs; cbn; discriminate. Qed.




Lemma oracle_idle_refresh U env s :
  oracle_state (fst (idle_refresh U env s)) = oracle_state s.
Proof.
  unfold idle_refresh. pose proof (oracle_drain env s) as H.
  destruct (_drain_preview_queue env s) as [s' [|]]; cbn [fst] in H |- *;
    now rewrite ?oracle_draw.
Qed.







(** The oracle path comes before the timeout guards: once the modifier was
    seen held and one not-held answer was counted, the next not-held answer
    commits, whatever the guards would say. *)
Lemma oracle_path_before_timeouts U env m s mask :
  ctrl_mask s = Some mask -> poll_ctrl_seen s = true ->
  1 <= ctrl_up_streak s -> ctrl_is_down m mask = false ->
  snd (idle_refresh U env s) = None ->
  snd (on_tick U env (Some m) s) = Some CtrlPollCommit.
Proof.
  intros Hmask Hseen Hstreak Hup Hdraw. unfold on_tick.
  rewrite after_draw_snd, Hdraw. unfold poll_oracle.
  pose proof (oracle_idle_refresh U env s) as Ho. injection Ho as E1 E2 E3.
  rewrite E1, Hmask, Hup. cbv zeta.
  cbn [poll_ctrl_seen ctrl_up_streak with_ctrl_up_streak].
  rewrite E2, E3, Hseen.
  destruct (Z.leb_spec 2 (ctrl_up_streak s + 1)); [reflexivity | lia].
Qed.



Example release_has_two_in_a_row :
  held_then_two_in_a_row 4 (tick_polls ticks_release) = true.
Proof. reflexivity. Qed.


End LoopFacts.
(** ** Commands and the cycle key *)
Module CycleFacts.
Import Py Keys Preview Layout Switcher Samples LayoutFacts LoopFacts Notions.

Lemma mark_ensure env t s :
  _ensure_preview_cache env (mark_cycle_key t s)
  = mark_cycle_key t (_ensure_preview_cache env s).
Proof.
  unfold _ensure_preview_cache.
  change (tabs (mark_cycle_key t s)) with (tabs s).
  change (neighbourhood (mark_cycle_key t s)) with (neighbourhood s).
  destruct (tabs s); [reflexivity|].
  apply fold_left_commutes. intros st x.
  change (tab_at (mark_cycle_key t st) (snd x)) with (tab_at st (snd x)).
  destruct (tab_at st (snd x)) as [tab|]; [|reflexivity].
  change (preview_cache (mark_cycle_key t st)) with (preview_cache st).
  destruct (dict_mem (preview_cache st) (id tab)); reflexivity.
Qed.

Lemma mark_move env t d s :
  _move env d (mark_cycle_key t s) = mark_cycle_key t (_move env d s).
Proof.
  unfold _move. change (tabs (mark_cycle_key t s)) with (tabs s).
  destruct (tabs s) eqn:E; [reflexivity|].
  rewrite <- mark_ensure. f_equal.
Qed.

Lemma mark_enqueue t x st :
  enqueue x (mark_cycle_key t st) = mark_cycle_key t (enqueue x st).
Proof.
  unfold enqueue.
  change (preview_queue (mark_cycle_key t st)) with (preview_queue st).
  destruct (mem x (preview_queue st)); reflexivity.
Qed.

Lemma mark_schedule env t s :
  _schedule_preview_fetch env (mark_cycle_key t s)
  = mark_cycle_key t (_schedule_preview_fetch env s).
Proof.
  unfold _schedule_preview_fetch.
  change (tabs (mark_cycle_key t s)) with (tabs s).
  change (neighbourhood (mark_cycle_key t s)) with (neighbourhood s).
  destruct (tabs s); [reflexivity|].
  apply fold_left_commutes. intros st x.
  change (tab_at (mark_cycle_key t st) (snd x)) with (tab_at st (snd x)).
  destruct (tab_at st (snd x)) as [tab|]; [|reflexivity].
  change (_preview_stale ?r (mark_cycle_key t st) (id tab))
    with (_preview_stale r st (id tab)).
  destruct (negb _); [reflexivity | apply mark_enqueue].
Qed.

Lemma mark_draw_cards U env layout t cards : forall st,
  draw_cards U env layout cards (mark_cycle_key t st)
  = (mark_cycle_key t (fst (draw_cards U env layout cards st)),
     snd (draw_cards U env layout cards st)).
Proof.
  induction cards as [|[k tab] cards IH]; intros st; cbn [draw_cards];
    [reflexivity|].
  change (_preview_stale ?r (mark_cycle_key t st) (id tab))
    with (_preview_stale r st (id tab)).
  set (st1 := if _preview_stale _ st (id tab) then _ else st).
  assert (E : (if _preview_stale (clock env (AtCard k)) st (id tab)
               then enqueue (id tab) (mark_cycle_key t st)
               else mark_cycle_key t st) = mark_cycle_key t st1).
  { unfold st1. destruct (_preview_stale _ st (id tab));
      [apply mark_enqueue | reflexivity]. }
  rewrite E.
  change (_draw_card U layout (mark_cycle_key t st1) tab)
    with (_draw_card U layout st1 tab).
  destruct (_draw_card U layout st1 tab); [apply IH | reflexivity].
Qed.

Lemma mark_draw U env t force s :
  draw U env force (mark_cycle_key t s)
  = (mark_cycle_key t (fst (draw U env force s)), snd (draw U env force s)).
Proof.
  unfold draw.
  change (last_draw (mark_cycle_key t s)) with (last_draw s).
  destruct (negb force && _); [reflexivity|].
  set (s1 := log_effect _ (with_last_draw (clock env AtDraw) s)).
  change (log_effect (EDraw force (selected_index (mark_cycle_key t s)))
            (with_last_draw (clock env AtDraw) (mark_cycle_key t s)))
    with (mark_cycle_key t s1).
  change (tabs (mark_cycle_key t s1)) with (tabs s1).
  destruct (tabs s1) eqn:E; [reflexivity|].
  change (theme (mark_cycle_key t s1)) with (theme s1).
  change (_visible_cards (mark_cycle_key t s1) ?m) with (_visible_cards s1 m).
  apply mark_draw_cards.
Qed.

(** The scheduling touches the refetch queue only, and what it adds are
    the targets it finds stale at its own readings of the clock. *)
Lemma schedule_queue env s :
  exists extra,
    _schedule_preview_fetch env s
    = with_preview_queue (preview_queue s ++ extra) s
    /\ Forall (scheduled env s) extra.
Proof.
  unfold _schedule_preview_fetch. destruct (tabs s) as [|t0 ts] eqn:E.
  { exists []. split; [rewrite app_nil_r; destruct s; reflexivity | constructor]. }
  set (f := fun st it => _).
  assert (H : forall l st extra,
            incl l (enumerate (neighbourhood s)) ->
            st = with_preview_queue (preview_queue s ++ extra) s ->
            Forall (scheduled env s) extra ->
            exists extra',
              fold_left f l st = with_preview_queue (preview_queue s ++ extra') s
              /\ Forall (scheduled env s) extra').
  { induction l as [|[k i] l IH]; intros st extra Hl Hst Hex; cbn [fold_left];
      [exists extra; now split|].
    assert (Hl' : incl l (enumerate (neighbourhood s)))
      by (intros y Hy; apply Hl; now right).
    unfold f at 2. cbn [fst snd].
    assert (Ht : tab_at st i = tab_at s i) by (rewrite Hst; reflexivity).
    rewrite Ht. destruct (tab_at s i) as [tab|] eqn:Etab; [|now apply (IH st extra)].
    assert (Hs : _preview_stale (clock env (AtTarget k)) st (id tab)
                 = _preview_stale (clock env (AtTarget k)) s (id tab))
      by (rewrite Hst; reflexivity).
    rewrite Hs.
    destruct (_preview_stale (clock env (AtTarget k)) s (id tab)) eqn:Estale;
      cbn [negb]; [|now apply (IH st extra)].
    unfold enqueue. destruct (mem (id tab) (preview_queue st)) eqn:Em;
      [now apply (IH st extra)|].
    apply (IH _ (extra ++ [id tab])); [exact Hl'| |].
    - rewrite Hst. cbn. now rewrite <- app_assoc.
    - apply Forall_app. split; [exact Hex|]. constructor; [|constructor].
      exists k, i, tab. split; [apply Hl; now left|].
      split; [exact Etab|]. split; [reflexivity|]. split; [exact Estale|].
      intros Hin.
      assert (Hq : preview_queue st = preview_queue s ++ extra)
        by (rewrite Hst; reflexivity).
      rewrite Hq in Em.
      assert (Ht' : mem (id tab) (preview_queue s ++ extra) = true).
      { unfold mem. apply existsb_exists. exists (id tab).
        split; [apply in_or_app; now left | apply Z.eqb_refl]. }
      congruence. }
  apply (H _ s []); [apply incl_refl | | constructor].
  rewrite app_nil_r. destruct s; reflexivity.
Qed.

Lemma schedule_only_queue env s :
  _schedule_preview_fetch env s
  = with_preview_queue (preview_queue (_schedule_preview_fetch env s)) s.
Proof.
  destruct (schedule_queue env s) as (extra & E & _). rewrite E at 2.
  exact E.
Qed.

Lemma ensure_keeps {C} (P : RawSwitcher -> C) env s :
  (forall t tab st, P (store_preview env t tab st) = P st) ->
  P (_ensure_preview_cache env s) = P s.
Proof.
  intros HP. unfold _ensure_preview_cache. destruct (tabs s); [reflexivity|].
  apply fold_left_keeps. intros st x.
  destruct (tab_at st (snd x)); [|reflexivity].
  destruct (dict_mem _ _); [reflexivity | apply HP].
Qed.

(** The step itself: one position with wrap-around. *)
Lemma move_selected env d s :
  tabs s <> [] ->
  selected_index (_move env d s) = (selected_index s + d) mod len (tabs s)
  /\ tabs (_move env d s) = tabs s.
Proof.
  intros Hne. unfold _move. destruct (tabs s) as [|t0 ts] eqn:E; [congruence|].
  rewrite (ensure_keeps selected_index), (ensure_keeps tabs) by reflexivity.
  cbn. now rewrite E.
Qed.

Lemma move_keeps {C} (P : RawSwitcher -> C) env d s :
  (forall t tab st, P (store_preview env t tab st) = P st) ->
  (forall v st, P (with_selected_index v st) = P st) ->
  P (_move env d s) = P s.
Proof.
  intros H1 H2. unfold _move. destruct (tabs s); [reflexivity|].
  now rewrite ensure_keeps, H2.
Qed.

(** The loop of [draw] over the cards changes the refetch queue only. *)
Lemma draw_cards_only_queue U env layout cards : forall st,
  fst (draw_cards U env layout cards st)
  = with_preview_queue
      (preview_queue (fst (draw_cards U env layout cards st))) st.
Proof.
  induction cards as [|[k tab] cards IH]; intros st; cbn [draw_cards].
  { destruct st; reflexivity. }
  set (st1 := if _preview_stale _ st (id tab) then _ else st).
  assert (E1 : st1 = with_preview_queue (preview_queue st1) st).
  { unfold st1, enqueue. destruct (_preview_stale _ st (id tab));
      [destruct (mem _ _)|]; destruct st; reflexivity. }
  destruct (_draw_card U layout st1 tab); cbn [fst]; [|exact E1].
  etransitivity; [apply IH|].
  generalize (preview_queue (fst (draw_cards U env layout cards st1))).
  intros Q. rewrite E1. reflexivity.
Qed.

Lemma draw_forced_effect U env s :
  exists q, fst (draw U env true s)
            = with_preview_queue q
                (log_effect (EDraw true (selected_index s))
                            (with_last_draw (clock env AtDraw) s)).
Proof.
  unfold draw. cbn [negb andb].
  set (s1 := log_effect _ _).
  destruct (tabs s1) as [|t0 ts];
    [exists (preview_queue s1); destruct s; reflexivity|].
  eexists. apply draw_cards_only_queue.
Qed.

Lemma visible_cards_all s : _visible_cards s (Z.max 1 (len (tabs s))) = tabs s.
Proof.
  unfold _visible_cards.
  destruct (Z.leb_spec (len (tabs s)) (Z.max 1 (len (tabs s)))); [reflexivity | lia].
Qed.

Lemma tab_at_in s i t : tab_at s i = Some t -> In t (tabs s).
Proof.
  unfold tab_at. destruct (i <? 0); [discriminate|]. apply nth_error_In.
Qed.

(** [enumerate] numbers every element. *)
Lemma combine_snd {A B} (la : list A) : forall lb : list B,
  length la = length lb -> map snd (combine la lb) = lb.
Proof.
  induction la as [|a la IH]; intros [|b lb] H; try discriminate;
    [reflexivity|]. cbn. f_equal. apply IH. now injection H.
Qed.

Lemma enumerate_snd {A} (l : list A) : map snd (enumerate l) = l.
Proof.
  unfold enumerate. apply combine_snd. unfold range, len.
  rewrite length_map, length_seq. lia.
Qed.

Lemma mem_true_in x l : mem x l = true -> In x l.
Proof.
  unfold mem. intros H. apply existsb_exists in H as (y & Hy & E).
  apply Z.eqb_eq in E. now subst y.
Qed.

Lemma mem_app x l y : mem x l = true -> mem x (l ++ [y]) = true.
Proof.
  unfold mem. rewrite existsb_app. intros ->. reflexivity.
Qed.

Lemma mem_last x l : mem x (l ++ [x]) = true.
Proof.
  unfold mem. rewrite existsb_app. cbn. rewrite Z.eqb_refl.
  now rewrite orb_true_r.
Qed.

(** The loop of [draw] over the cards, when it raises nothing: the queue
    only grows, and every card that is stale when the loop looks at it is
    in the queue afterwards. *)
Lemma draw_cards_queues_stale U env layout cards : forall st,
  snd (draw_cards U env layout cards st) = None ->
  (forall x, mem x (preview_queue st) = true ->
             mem x (preview_queue (fst (draw_cards U env layout cards st))) = true)
  /\ (forall k tab, In (k, tab) cards ->
         _preview_stale (clock env (AtCard k)) st (id tab) = true ->
         mem (id tab) (preview_queue (fst (draw_cards U env layout cards st)))
         = true).
Proof.
  induction cards as [|[k0 tab0] cards IH]; intros st; cbn [draw_cards].
  { intros _. split; [auto | intros ? ? []]. }
  set (st1 := if _preview_stale _ st (id tab0) then _ else st).
  assert (E1 : st1 = with_preview_queue (preview_queue st1) st).
  { unfold st1, enqueue. destruct (_preview_stale _ st (id tab0));
      [destruct (mem _ _)|]; destruct st; reflexivity. }
  assert (Hst : forall t x, _preview_stale t st1 x = _preview_stale t st x).
  { intros t x. rewrite E1. reflexivity. }
  assert (M1 : forall x, mem x (preview_queue st) = true ->
                         mem x (preview_queue st1) = true).
  { intros x Hx. unfold st1, enqueue.
    destruct (_preview_stale _ st (id tab0)); [|exact Hx].
    destruct (mem (id tab0) (preview_queue st)); [exact Hx|].
    cbn. now apply mem_app. }
  destruct (_draw_card U layout st1 tab0); [|discriminate].
  intros Hnone. destruct (IH st1 Hnone) as [M S]. split.
  - intros x Hx. apply M. now apply M1.
  - intros k tab [Heq|Hin] Hstale.
    + injection Heq as <- <-. apply M. unfold st1, enqueue. rewrite Hstale.
      destruct (mem (id tab0) (preview_queue st)) eqn:Em; [exact Em|].
      cbn. apply mem_last.
    + apply (S k tab Hin). now rewrite Hst.
Qed.

(** After a forced redraw that raised nothing, every tab that was stale
    when the redraw looked at its card is in the refetch queue. *)
Lemma draw_forced_queues_stale U env s k tab :
  snd (draw U env true s) = None ->
  In (k, tab) (enumerate (tabs s)) ->
  _preview_stale (clock env (AtCard k)) s (id tab) = true ->
  mem (id tab) (preview_queue (fst (draw U env true s))) = true.
Proof.
  unfold draw. cbn [negb andb].
  set (s1 := log_effect _ (with_last_draw (clock env AtDraw) s)).
  change (tabs s) with (tabs s1).
  change (_preview_stale (clock env (AtCard k)) s (id tab))
    with (_preview_stale (clock env (AtCard k)) s1 (id tab)).
  destruct (tabs s1) as [|t0 ts] eqn:E; [intros _ []|].
  destruct (compute_layout_max (theme s1) (len (t0 :: ts))
              (fst (screen env)) (snd (screen env))) as [-> _].
  rewrite <- E, visible_cards_all.
  intros Hnone Hin Hstale.
  destruct (draw_cards_queues_stale U env _ _ s1 Hnone) as [_ S].
  now apply (S k tab).
Qed.

(** So what the scheduling adds after such a redraw was fresh when the
    redraw looked at it. *)
Lemma scheduled_fresh_at_redraw U env m x :
  snd (draw U env true m) = None ->
  scheduled env (fst (draw U env true m)) x ->
  fresh_at_redraw env (fst (draw U env true m)) x.
Proof.
  intros Hnone (j & i & t & _ & _ & _ & _ & Hnot) k tab Hin Hid.
  destruct (_preview_stale _ _ x) eqn:Es; [|reflexivity]. exfalso.
  apply Hnot. apply mem_true_in. subst x.
  destruct (draw_forced_effect U env m) as [q Hq].
  assert (Ht : tabs (fst (draw U env true m)) = tabs m)
    by (rewrite Hq; reflexivity).
  assert (Hs : _preview_stale (clock env (AtCard k)) m (id tab) = true).
  { rewrite <- Es. rewrite Hq. reflexivity. }
  rewrite Ht in Hin. now apply (draw_forced_queues_stale U env m k tab).
Qed.

Lemma on_key_tab_press U env s :
  on_key U env tab_press s
  = cycle_key_after env (on_command U env cmd_next s).
Proof.
  unfold on_key.
  change (on_command U env cmd_next s)
    with (after_draw (draw U env true (_move env 1 s)) (fun s1 => (s1, None))).
  unfold cycle_key_after. rewrite after_draw_snd, after_draw_fst.
  cbn [tab_press key_code event_type]. cbn -[_move draw mark_cycle_key].
  fold (mark_cycle_key (clock env AtInput) s).
  rewrite mark_move. unfold redraw_and_schedule. rewrite mark_draw.
  destruct (draw U env true (_move env 1 s)) as [c [e|]]; reflexivity.
Qed.

Lemma on_key_shift_tab_press U env s :
  on_key U env shift_tab_press s
  = cycle_key_after env (on_command U env cmd_prev s).
Proof.
  unfold on_key.
  change (on_command U env cmd_prev s)
    with (after_draw (draw U env true (_move env (-1) s)) (fun s1 => (s1, None))).
  unfold cycle_key_after. rewrite after_draw_snd, after_draw_fst.
  cbn [shift_tab_press key_code event_type]. cbn -[_move draw mark_cycle_key].
  fold (mark_cycle_key (clock env AtInput) s).
  rewrite mark_move. unfold redraw_and_schedule. rewrite mark_draw.
  destruct (draw U env true (_move env (-1) s)) as [c [e|]]; reflexivity.
Qed.

Lemma on_key_legacy_shift_tab U env s :
  on_key U env (mkKeyEvent (- TAB_CODE) 2 1) s
  = cycle_key_after env (on_command U env cmd_prev s).
Proof.
  unfold on_key.
  change (on_command U env cmd_prev s)
    with (after_draw (draw U env true (_move env (-1) s)) (fun s1 => (s1, None))).
  unfold cycle_key_after. rewrite after_draw_snd, after_draw_fst.
  cbn [key_code event_type]. cbn -[_move draw mark_cycle_key].
  fold (mark_cycle_key (clock env AtInput) s).
  rewrite mark_move. unfold redraw_and_schedule. rewrite mark_draw.
  destruct (draw U env true (_move env (-1) s)) as [c [e|]]; reflexivity.
Qed.

Lemma on_command_next U env s :
  on_command U env cmd_next s
  = (fst (draw U env true (_move env 1 s)),
     option_map Raised (snd (draw U env true (_move env 1 s)))).
Proof.
  change (on_command U env cmd_next s)
    with (after_draw (draw U env true (_move env 1 s)) (fun s1 => (s1, None))).
  destruct (draw U env true (_move env 1 s)) as [c [e|]]; reflexivity.
Qed.

Lemma on_command_prev U env s :
  on_command U env cmd_prev s
  = (fst (draw U env true (_move env (-1) s)),
     option_map Raised (snd (draw U env true (_move env (-1) s)))).
Proof.
  change (on_command U env cmd_prev s)
    with (after_draw (draw U env true (_move env (-1) s)) (fun s1 => (s1, None))).
  destruct (draw U env true (_move env (-1) s)) as [c [e|]]; reflexivity.
Qed.

(** The step and the forced redraw of a command. *)
Lemma command_effect U env d s :
  let c := fst (draw U env true (_move env d s)) in
  selected_index c
  = match tabs s with
    | [] => selected_index s
    | _ => (selected_index s + d) mod len (tabs s)
    end
  /\ effects c = effects (_move env d s) ++ [EDraw true (selected_index c)]
  /\ saw_tab_event c = saw_tab_event s
  /\ any_key_event c = any_key_event s
  /\ last_input_time c = last_input_time s.
Proof.
  intros c.
  destruct (draw_forced_effect U env (_move env d s)) as [q Hq]. fold c in Hq.
  assert (Hsel : selected_index c = selected_index (_move env d s))
    by (rewrite Hq; reflexivity).
  split.
  { rewrite Hsel. destruct (tabs s) as [|t0 ts] eqn:E.
    - unfold _move. now rewrite E.
    - rewrite <- E. apply move_selected. congruence. }
  split; [rewrite Hsel, Hq; reflexivity|].
  unfold c.
  rewrite (draw_keeps saw_tab_event), (move_keeps saw_tab_event) by reflexivity.
  rewrite (draw_keeps any_key_event), (move_keeps any_key_event) by reflexivity.
  rewrite (draw_keeps last_input_time), (move_keeps last_input_time)
    by reflexivity.
  repeat split.
Qed.

(** What the key press adds to the queue the command leaves. *)
Lemma cycle_key_queue U env d s :
  let c := on_command U env (if d =? 1 then cmd_next else cmd_prev) s in
  exists extra,
    preview_queue (fst (cycle_key_after env c))
    = preview_queue (fst c) ++ extra
    /\ Forall (turned_stale env (fst c)) extra
    /\ (snd c <> None -> extra = []).
Proof.
  intros c.
  assert (Hc : c = (fst (draw U env true (_move env (if d =? 1 then 1 else -1) s)),
                    option_map Raised
                      (snd (draw U env true
                                 (_move env (if d =? 1 then 1 else -1) s))))).
  { unfold c. destruct (d =? 1); [apply on_command_next | apply on_command_prev]. }
  set (m := _move env (if d =? 1 then 1 else -1) s) in Hc.
  unfold cycle_key_after. rewrite Hc. cbn [fst snd].
  destruct (snd (draw U env true m)) as [x|] eqn:Ed; cbn [option_map fst].
  - exists []. split; [now rewrite app_nil_r|]. split; [constructor | reflexivity].
  - rewrite mark_schedule.
    destruct (schedule_queue env (fst (draw U env true m))) as (extra & E & Hex).
    exists extra. split; [rewrite E; reflexivity|].
    split; [|congruence].
    revert Hex. apply Forall_impl. intros x Hx.
    split; [exact Hx | now apply (scheduled_fresh_at_redraw U)].
Qed.

(** Nothing turns stale while the clock stands still. *)
Lemma turned_stale_needs_time env s x :
  (forall k j, clock env (AtTarget j) = clock env (AtCard k)) ->
  ~ turned_stale env s x.
Proof.
  intros Hclock [(j & i & tab & _ & Htab & Hid & Hstale & _) Hfresh].
  apply tab_at_in in Htab.
  rewrite <- (enumerate_snd (tabs s)) in Htab.
  apply in_map_iff in Htab as ([k tab'] & E & Hin). cbn [snd] in E. subst tab'.
  specialize (Hfresh k tab Hin Hid). rewrite (Hclock k j) in Hstale.
  congruence.
Qed.

Lemma cycle_key_same_queue U env d s :
  let c := on_command U env (if d =? 1 then cmd_next else cmd_prev) s in
  (forall k j, clock env (AtTarget j) = clock env (AtCard k)) ->
  preview_queue (fst (cycle_key_after env c)) = preview_queue (fst c).
Proof.
  intros c Hclock. destruct (cycle_key_queue U env d s) as (extra & E & Hex & _).
  fold c in E, Hex. rewrite E. destruct extra as [|x extra];
    [apply app_nil_r|].
  inversion Hex as [|? ? Hx _]; subst.
  now apply turned_stale_needs_time in Hx.
Qed.

(** C6, as the code has it: the command ["next"] (["prev"]) changes the
    selection by one step with wrap-around, with the preview-cache fill
    that belongs to it, and forces a redraw, as a press of the cycle key
    (with shift) does, and it ends [run] with the same exception when the
    redraw raises one.  But it is not a key event and it does not schedule
    preview fetches: the key press leaves what the command leaves with the
    cycle-seen flag and the key-event flag set and the time of the last
    input updated, and, unless the redraw raised, with the scheduling run
    after the redraw; the command leaves the three fields as they were.
    The scheduling reads the clock anew: the queue after the key press is
    the queue after the command followed by the targets whose preview the
    redraw found fresh and the scheduling finds stale, so the two queues
    are the same when the clock does not move between the redraw and the
    scheduling. *)
Theorem command_moves_like_cycle_key
  (U : unicode_db) (env : Env) (s : RawSwitcher) :
  let next := on_command U env cmd_next s in
  let prev := on_command U env cmd_prev s in
  (on_key U env tab_press s = cycle_key_after env next
   /\ on_key U env shift_tab_press s = cycle_key_after env prev
   /\ on_key U env (mkKeyEvent (- TAB_CODE) 2 1) s = cycle_key_after env prev)
  /\ (next = (fst (draw U env true (_move env 1 s)),
              option_map Raised (snd (draw U env true (_move env 1 s))))
      /\ prev = (fst (draw U env true (_move env (-1) s)),
                 option_map Raised (snd (draw U env true (_move env (-1) s)))))
  /\ (selected_index (fst next)
      = match tabs s with
        | [] => selected_index s
        | _ => (selected_index s + 1) mod len (tabs s)
        end
      /\ selected_index (fst prev)
         = match tabs s with
           | [] => selected_index s
           | _ => (selected_index s - 1) mod len (tabs s)
           end)
  /\ (effects (fst next)
      = effects (_move env 1 s) ++ [EDraw true (selected_index (fst next))]
      /\ effects (fst prev)
         = effects (_move env (-1) s) ++ [EDraw true (selected_index (fst prev))])
  /\ (saw_tab_event (fst next) = saw_tab_event s
      /\ any_key_event (fst next) = any_key_event s
      /\ last_input_time (fst next) = last_input_time s)
  /\ (saw_tab_event (fst prev) = saw_tab_event s
      /\ any_key_event (fst prev) = any_key_event s
      /\ last_input_time (fst prev) = last_input_time s)
  /\ ((exists extra,
         preview_queue (fst (cycle_key_after env next))
         = preview_queue (fst next) ++ extra
         /\ Forall (turned_stale env (fst next)) extra
         /\ (snd next <> None -> extra = []))
      /\ (exists extra,
            preview_queue (fst (cycle_key_after env prev))
            = preview_queue (fst prev) ++ extra
            /\ Forall (turned_stale env (fst prev)) extra
            /\ (snd prev <> None -> extra = [])))
  /\ ((forall k j, clock env (AtTarget j) = clock env (AtCard k)) ->
      preview_queue (fst (cycle_key_after env next)) = preview_queue (fst next)
      /\ preview_queue (fst (cycle_key_after env prev))
         = preview_queue (fst prev)).
Proof.
  intros next prev.
  pose proof (cycle_key_queue U env 1 s) as Q1.
  pose proof (cycle_key_queue U env 0 s) as Q2.
  pose proof (cycle_key_same_queue U env 1 s) as S1.
  pose proof (cycle_key_same_queue U env 0 s) as S2.
  cbv zeta in Q1, Q2, S1, S2.
  change (if 1 =? 1 then cmd_next else cmd_prev) with cmd_next in Q1, S1.
  change (if 0 =? 1 then cmd_next else cmd_prev) with cmd_prev in Q2, S2.
  fold next in Q1, S1. fold prev in Q2, S2.
  split; [|split; [|split; [|split; [|split; [|split; [|split]]]]]].
  - unfold next, prev.
    rewrite on_key_tab_press, on_key_shift_tab_press, on_key_legacy_shift_tab.
    repeat split.
  - unfold next, prev. split; [apply on_command_next | apply on_command_prev].
  - unfold next, prev. rewrite on_command_next, on_command_prev. cbn [fst].
    split; [apply (command_effect U env 1 s) | apply (command_effect U env (-1) s)].
  - unfold next, prev. rewrite on_command_next, on_command_prev. cbn [fst].
    split; [apply (command_effect U env 1 s) | apply (command_effect U env (-1) s)].
  - unfold next. rewrite on_command_next. cbn [fst].
    destruct (command_effect U env 1 s) as (_ & _ & A3 & A4 & A5).
    repeat split; assumption.
  - unfold prev. rewrite on_command_prev. cbn [fst].
    destruct (command_effect U env (-1) s) as (_ & _ & B3 & B4 & B5).
    repeat split; assumption.
  - split; [exact Q1 | exact Q2].
  - intros Hclock. split; [now apply S1 | now apply S2].
Qed.

Lemma command_moves_like_cycle_key_witness :
  let env := env_at (1000 # 1) in
  let next := on_command latin1_only env cmd_next session0 in
  (forall k j, clock env (AtTarget j) = clock env (AtCard k))
  /\ preview_queue (fst (cycle_key_after env next)) = preview_queue (fst next).
Proof.
  split; [reflexivity|].
  apply (command_moves_like_cycle_key latin1_only (env_at (1000 # 1)) session0).
  reflexivity.
Defined.

(** C6 as worded fails in the session [session0]: after the command
    ["next"] the cycle-seen flag is still unset, after the key press it is
    set, so the two states differ. *)
Lemma command_next_is_not_tab_press :
  saw_tab_event (fst (on_command latin1_only (env_at (1000 # 1)) cmd_next session0))
  = false
  /\ saw_tab_event (fst (on_key latin1_only (env_at (1000 # 1)) tab_press session0))
     = true
  /\ fst (on_command latin1_only (env_at (1000 # 1)) cmd_next session0)
     <> fst (on_key latin1_only (env_at (1000 # 1)) tab_press session0).
Proof.
  split; [vm_compute; reflexivity|]. split; [vm_compute; reflexivity|].
  intros H. apply (f_equal saw_tab_event) in H. vm_compute in H. discriminate.
Qed.

(** The queues differ as well when the clock moves on between the redraw
    and the scheduling: in [session_cached] every preview was taken at
    1000.05; [draw] reads 1000.5499 and finds them fresh, the scheduling
    of the key press reads 1000.55 and queues all three, the command
    queues none. *)
Example key_press_schedules_after_redraw :
  preview_queue (fst (on_command latin1_only env_drift cmd_next session_cached))
  = []
  /\ preview_queue (fst (on_key latin1_only env_drift tab_press session_cached))
     = [7; 2; 5].
Proof. split; vm_compute; reflexivity. Qed.

End CycleFacts.
(** ** MRU reconciliation *)
Module MruFacts.
Import Py Keys Switcher Samples Notions CommitFacts.

Section InsertionSort.
Context {A : Type} (lt : A -> A -> bool).
Let le_of (a b : A) : Prop := lt b a = false.
Hypothesis lt_asym : forall a b, lt a b = true -> lt b a = false.
Hypothesis le_trans : forall a b c, le_of a b -> le_of b c -> le_of a c.

Lemma insert_sorted_perm x l : Permutation (x :: l) (insert_sorted lt x l).
Proof.
  induction l as [|y r IH]; cbn; [reflexivity|].
  destruct (lt y x); [|reflexivity].
  rewrite perm_swap. now apply perm_skip.
Qed.

Lemma sorted_by_perm l : Permutation l (sorted_by lt l).
Proof.
  induction l as [|x l IH]; cbn; [reflexivity|].
  rewrite <- insert_sorted_perm. now apply perm_skip.
Qed.

Lemma insert_sorted_sorted x l :
  StronglySorted le_of l -> StronglySorted le_of (insert_sorted lt x l).
Proof.
  induction 1 as [|y r Hr IH Hy]; cbn.
  - constructor; constructor.
  - destruct (lt y x) eqn:E.
    + constructor; [exact IH|].
      apply (Permutation_Forall (insert_sorted_perm x r)).
      constructor; [now apply lt_asym | exact Hy].
    + constructor; [now constructor|].
      constructor; [exact E|].
      revert Hy. apply Forall_impl. intros z Hz. now apply le_trans with y.
Qed.

Lemma sorted_by_sorted l : StronglySorted le_of (sorted_by lt l).
Proof.
  induction l as [|x l IH]; cbn; [constructor|].
  now apply insert_sorted_sorted.
Qed.
End InsertionSort.

Lemma insert_sorted_map {A B} (g : A -> B) (lt : B -> B -> bool) x l :
  insert_sorted lt (g x) (map g l)
  = map g (insert_sorted (fun a b => lt (g a) (g b)) x l).
Proof.
  induction l as [|y r IH]; cbn; [reflexivity|].
  destruct (lt (g y) (g x)); cbn; [now rewrite IH | reflexivity].
Qed.

Lemma sorted_by_map {A B} (g : A -> B) (lt : B -> B -> bool) l :
  sorted_by lt (map g l) = map g (sorted_by (fun a b => lt (g a) (g b)) l).
Proof.
  induction l as [|x l IH]; [reflexivity|].
  unfold sorted_by in *. cbn [map fold_right].
  rewrite IH. apply insert_sorted_map.
Qed.

Lemma insert_sorted_ext {A} (lt1 lt2 : A -> A -> bool) x l :
  (forall y, In y l -> lt1 y x = lt2 y x) ->
  insert_sorted lt1 x l = insert_sorted lt2 x l.
Proof.
  induction l as [|y r IH]; intros H; cbn; [reflexivity|].
  rewrite <- (H y) by now left.
  destruct (lt1 y x); [|reflexivity].
  f_equal. apply IH. intros z Hz. apply H. now right.
Qed.

Lemma sorted_by_ext {A} (lt1 lt2 : A -> A -> bool) l :
  (forall a b, In a l -> In b l -> lt1 a b = lt2 a b) ->
  sorted_by lt1 l = sorted_by lt2 l.
Proof.
  induction l as [|x l IH]; intros H; [reflexivity|].
  change (sorted_by lt1 (x :: l)) with (insert_sorted lt1 x (sorted_by lt1 l)).
  change (sorted_by lt2 (x :: l)) with (insert_sorted lt2 x (sorted_by lt2 l)).
  rewrite IH by (intros a b Ha Hb; apply H; now right).
  apply insert_sorted_ext. intros y Hy. apply H; [right | now left].
  eapply Permutation_in; [symmetry; apply sorted_by_perm | exact Hy].
Qed.

(** *** Dictionaries built from lists with distinct keys *)

Lemma dict_get_app {V} (d1 d2 : list (Z * V)) k :
  dict_get (d1 ++ d2) k
  = match dict_get d1 k with Some v => Some v | None => dict_get d2 k end.
Proof.
  induction d1 as [|[k0 v0] d1 IH]; cbn; [reflexivity|].
  destruct (k0 =? k); [reflexivity | exact IH].
Qed.

Lemma dict_set_fresh {V} (d : list (Z * V)) k v :
  dict_get d k = None -> dict_set d k v = d ++ [(k, v)].
Proof.
  induction d as [|[k0 v0] d IH]; cbn; [reflexivity|].
  destruct (k0 =? k); [discriminate|]. intros H. now rewrite IH.
Qed.

Lemma dict_get_pairs_none {X V} (key : X -> Z) (val : X -> V) l k :
  ~ In k (map key l) -> dict_get (map (fun y => (key y, val y)) l) k = None.
Proof.
  induction l as [|y l IH]; cbn; [reflexivity|]. intros H.
  destruct (Z.eqb_spec (key y) k) as [E|E]; [exfalso; apply H; now left|].
  apply IH. intros Hin. apply H. now right.
Qed.

Lemma dict_get_pairs {X V} (key : X -> Z) (val : X -> V) l x :
  NoDup (map key l) -> In x l ->
  dict_get (map (fun y => (key y, val y)) l) (key x) = Some (val x).
Proof.
  induction l as [|y l IH]; cbn; [intros _ []|].
  intros Hnd [->|Hin].
  - now rewrite Z.eqb_refl.
  - inversion Hnd as [|? ? Hy Hnd']; subst.
    destruct (Z.eqb_spec (key y) (key x)) as [E|E].
    + exfalso. apply Hy. rewrite E. now apply in_map.
    + now apply IH.
Qed.

(** A loop that gives each fresh key its value builds the list of pairs. *)
Lemma fold_fresh {X V} (key : X -> Z) (val : X -> V)
  (f : list (Z * V) -> X -> list (Z * V)) :
  (forall d x, dict_get d (key x) = None -> f d x = d ++ [(key x, val x)]) ->
  forall l d0, NoDup (map key l) ->
    (forall x, In x l -> dict_get d0 (key x) = None) ->
    fold_left f l d0 = d0 ++ map (fun x => (key x, val x)) l.
Proof.
  intros Hf. induction l as [|x l IH]; intros d0 Hnd Hd0; cbn.
  - now rewrite app_nil_r.
  - inversion Hnd as [|? ? Hx Hnd']; subst.
    rewrite Hf by (apply Hd0; now left).
    rewrite IH; [now rewrite <- app_assoc | exact Hnd' |].
    intros y Hy. rewrite dict_get_app, Hd0 by now right. cbn.
    destruct (Z.eqb_spec (key x) (key y)) as [E|E]; [|reflexivity].
    exfalso. apply Hx. rewrite E. now apply in_map.
Qed.

Lemma dict_set_pairs {X V} (key : X -> Z) (val : X -> V) l a v :
  NoDup (map key l) -> In a (map key l) ->
  dict_set (map (fun y => (key y, val y)) l) a v
  = map (fun y => (key y, if key y =? a then v else val y)) l.
Proof.
  induction l as [|y l IH]; cbn; [intros _ []|].
  intros Hnd Hin. inversion Hnd as [|? ? Hy Hnd']; subst.
  destruct (Z.eqb_spec (key y) a) as [E|E].
  - f_equal. apply map_ext_in. intros z Hz.
    destruct (Z.eqb_spec (key z) a) as [E'|E']; [|reflexivity].
    exfalso. apply Hy. rewrite E, <- E'. now apply in_map.
  - f_equal. apply IH; [exact Hnd'|]. destruct Hin; [contradiction | assumption].
Qed.

(** *** The order of the sort keys *)

Lemma Qltb_spec a b : Qltb a b = true <-> (a < b)%Q.
Proof.
  unfold Qltb. rewrite negb_true_iff. split.
  - intros H. apply Qnot_le_lt. intros Hle.
    apply Qle_bool_iff in Hle. congruence.
  - intros H. destruct (Qle_bool b a) eqn:E; [|reflexivity].
    apply Qle_bool_iff in E. exfalso. now apply (Qlt_not_le a b).
Qed.

Lemma key_lt_spec a b : key_lt a b = true <-> key_lt_prop a b.
Proof.
  unfold key_lt, key_lt_prop.
  rewrite orb_true_iff, andb_true_iff, Qltb_spec, Qeq_bool_iff, Z.ltb_lt.
  reflexivity.
Qed.

Lemma key_lt_false a b :
  key_lt a b = false ->
  (fst b <= fst a)%Q /\ ((fst a == fst b)%Q -> snd b <= snd a).
Proof.
  intros H. split.
  - apply Qnot_lt_le. intros Hlt.
    assert (key_lt a b = true) by (apply key_lt_spec; now left). congruence.
  - intros Heq. destruct (Z.le_gt_cases (snd b) (snd a)) as [Hle|Hgt]; [exact Hle|].
    assert (key_lt a b = true) by (apply key_lt_spec; right; now split).
    congruence.
Qed.

Lemma key_lt_asym a b : key_lt a b = true -> key_lt b a = false.
Proof.
  intros H. destruct (key_lt b a) eqn:E; [|reflexivity].
  apply key_lt_spec in H. apply key_lt_spec in E.
  unfold key_lt_prop in *. exfalso.
  destruct H as [H|[H1 H2]], E as [E|[E1 E2]]; try lra; lia.
Qed.

Lemma key_le_trans a b c :
  key_lt b a = false -> key_lt c b = false -> key_lt c a = false.
Proof.
  intros H1 H2. destruct (key_lt c a) eqn:E; [|reflexivity].
  apply key_lt_spec in E. apply key_lt_false in H1. apply key_lt_false in H2.
  destruct H1 as [A1 A2], H2 as [B1 B2]. unfold key_lt_prop in E. exfalso.
  destruct E as [E|[E1 E2]]; [lra|].
  assert (Hab : (fst a == fst b)%Q) by lra.
  assert (Hbc : (fst b == fst c)%Q) by lra.
  specialize (A2 ltac:(lra)). specialize (B2 ltac:(lra)). lia.
Qed.

(** *** The maps [_reconcile_mru] builds, for tabs with distinct ids *)

Lemma scores_from_focus_pairs tabs :
  NoDup (map id tabs) ->
  scores_from_focus tabs
  = map (fun t => (id t, match last_focused t with
                         | Some x => x
                         | None => 0%Q
                         end)) tabs.
Proof.
  intros Hnd. unfold scores_from_focus.
  rewrite (fold_fresh id (fun t => match last_focused t with
                                   | Some x => x
                                   | None => 0%Q
                                   end)); auto.
  intros d x. apply dict_set_fresh.
Qed.

Lemma scores_from_cache_pairs ids mru :
  NoDup ids ->
  scores_from_cache ids mru = map (fun k => (k, get_or mru k 0%Q)) ids.
Proof.
  intros Hnd. unfold scores_from_cache.
  rewrite (fold_fresh (fun k => k) (fun k => get_or mru k 0%Q)); auto.
  - intros d k Hk. unfold get_or, dict_mem.
    destruct (dict_get mru k) as [v|].
    + rewrite (dict_set_fresh d k v Hk), dict_get_app, Hk. cbn.
      now rewrite Z.eqb_refl.
    + rewrite Hk. now apply dict_set_fresh.
  - now rewrite (List.map_id ids).
Qed.

Lemma active_tab_id_in tabs a :
  _active_tab_id tabs = Some a -> In a (map id tabs).
Proof.
  unfold _active_tab_id. destruct (find is_active tabs) as [t|] eqn:E.
  - intros [= <-]. apply find_some in E. apply in_map. tauto.
  - destruct tabs as [|t ts]; [discriminate|]. intros [= <-]. now left.
Qed.

Lemma force_active_pairs tabs mru now :
  NoDup (map id tabs) ->
  force_active tabs now (map (fun t => (id t, base_score tabs mru t)) tabs)
  = map (fun t => (id t, final_score tabs mru now t)) tabs.
Proof.
  intros Hnd. unfold force_active, final_score.
  destruct (_active_tab_id tabs) as [a|] eqn:Ea; [|reflexivity].
  rewrite dict_set_pairs; [|exact Hnd | now apply active_tab_id_in].
  apply map_ext_in. intros t Ht.
  destruct (Z.eqb_spec (id t) a) as [<-|]; [|reflexivity].
  unfold get_or. now rewrite (dict_get_pairs id _ tabs t Hnd Ht).
Qed.

Lemma combine_range_snd {B} (l : list B) : forall a,
  map snd (combine (range a (a + len l)) l) = l.
Proof.
  induction l as [|x l IH]; intros a.
  - now destruct (range a (a + len [])).
  - unfold len. cbn [length]. rewrite range_cons. cbn. f_equal. apply IH.
Qed.

Lemma base_rank_pairs ids :
  NoDup ids ->
  base_rank_of ids
  = map (fun it => (snd it, fst it)) (combine (range 0 (len ids)) ids).
Proof.
  intros Hnd. unfold base_rank_of.
  rewrite (fold_fresh snd fst); auto.
  - intros d x. apply dict_set_fresh.
  - change (len ids) with (0 + len ids). now rewrite combine_range_snd.
Qed.

Lemma dict_get_ranked (l : list Z) : forall a k,
  In k l ->
  dict_get (map (fun it : Z * Z => (snd it, fst it))
                (combine (range a (a + len l)) l)) k
  = Some (a + position l k).
Proof.
  induction l as [|x l IH]; intros a k Hin; [destruct Hin|].
  unfold len. cbn [length]. rewrite range_cons. cbn [combine map fst snd dict_get position].
  destruct (Z.eqb_spec x k) as [E|E]; [f_equal; lia|].
  destruct Hin as [Hin|Hin]; [contradiction|].
  change (Z.of_nat (length l)) with (len l).
  rewrite IH by assumption. f_equal. lia.
Qed.

Lemma base_rank_position ids k :
  NoDup ids -> In k ids ->
  get_or (base_rank_of ids) k (10 ^ 9) = position ids k.
Proof.
  intros Hnd Hin. rewrite base_rank_pairs by assumption.
  unfold get_or. change (len ids) with (0 + len ids).
  now rewrite dict_get_ranked.
Qed.

Lemma by_id_pairs tabs :
  NoDup (map id tabs) -> by_id_of tabs = map (fun t => (id t, t)) tabs.
Proof.
  intros Hnd. unfold by_id_of.
  rewrite (fold_fresh id (fun t => t)); auto.
  intros d x. apply dict_set_fresh.
Qed.

Lemma tabs_in_order_pairs (by_id : list (Z * TabInfo)) (sc : TabInfo -> Q) l :
  (forall t, In t l -> dict_get by_id (id t) = Some t) ->
  tabs_in_order by_id (map (fun t => (id t, sc t)) l) = l.
Proof.
  induction l as [|t l IH]; intros H; [reflexivity|].
  unfold tabs_in_order in *. cbn [map flat_map fst].
  rewrite (H t) by now left. cbn. f_equal. apply IH.
  intros t' Ht'. apply H. now right.
Qed.

(** The tabs after reconciliation are the host's tabs sorted by
    [(-score, position)]; the returned map gives each tab its score. *)
Lemma reconcile_mru_sorted tabs mru now :
  NoDup (map id tabs) ->
  _reconcile_mru tabs mru now
  = (sorted_by (tab_before tabs mru now) tabs,
     map (fun t => (id t, final_score tabs mru now t)) tabs).
Proof.
  intros Hnd.
  set (g := fun t => (id t, final_score tabs mru now t)).
  assert (Hout : force_active tabs now
                   (if existsb has_last_focused tabs
                    then scores_from_focus tabs
                    else scores_from_cache (map id tabs) mru)
                 = map g tabs).
  { unfold g. rewrite <- (force_active_pairs tabs mru now Hnd). f_equal.
    unfold base_score. destruct (existsb has_last_focused tabs).
    - now apply scores_from_focus_pairs.
    - rewrite scores_from_cache_pairs by assumption. now rewrite map_map. }
  assert (Hsort : tabs_in_order (by_id_of tabs)
                    (mru_sorted (base_rank_of (map id tabs)) (map g tabs))
                  = sorted_by (tab_before tabs mru now) tabs).
  { unfold mru_sorted. rewrite sorted_by_map.
    rewrite (sorted_by_ext _ (tab_before tabs mru now)).
    - apply tabs_in_order_pairs. intros t Ht.
      rewrite by_id_pairs by assumption.
      apply (dict_get_pairs id (fun t => t)); [assumption|].
      eapply Permutation_in; [symmetry; apply sorted_by_perm | exact Ht].
    - intros a b Ha Hb. unfold tab_before, tab_key, mru_key, g. cbn [fst snd].
      rewrite !base_rank_position; auto using in_map. }
  unfold _reconcile_mru.
  destruct (existsb has_last_focused tabs) eqn:E; rewrite Hout, Hsort.
  - f_equal.
    rewrite (fold_fresh (fun k => k) (fun k => get_or (map g tabs) k 0%Q)).
    + cbn [app]. rewrite map_map. apply map_ext_in. intros t Ht.
      unfold g, get_or.
      now rewrite (dict_get_pairs id (final_score tabs mru now) tabs t Hnd Ht).
    + intros d x. apply dict_set_fresh.
    + now rewrite (List.map_id (map id tabs)).
    + reflexivity.
  - reflexivity.
Qed.

Lemma position_nonneg ids k : 0 <= position ids k.
Proof.
  induction ids as [|x ids IH]; cbn [position]; [lia|].
  destruct (x =? k); lia.
Qed.

Lemma position_inj ids a b :
  In a ids -> position ids a = position ids b -> a = b.
Proof.
  induction ids as [|x ids IH]; [intros []|]. cbn [position].
  intros Hin Heq.
  pose proof (position_nonneg ids a). pose proof (position_nonneg ids b).
  destruct (Z.eqb_spec x a) as [Ea|Ea], (Z.eqb_spec x b) as [Eb|Eb];
    try congruence; try lia.
  destruct Hin as [Hin|Hin]; [contradiction|]. apply IH; [assumption | lia].
Qed.

(** With distinct ids the sorted order is strict: a higher score first,
    then the earlier place in the host's list. *)
Lemma sorted_strict tabs mru now l :
  NoDup (map id l) -> incl l tabs ->
  StronglySorted (fun a b => tab_before tabs mru now b a = false) l ->
  StronglySorted (mru_before tabs mru now) l.
Proof.
  intros Hnd Hincl Hs. induction Hs as [|a l Hl IH Ha]; [constructor|].
  cbn [map] in Hnd. inversion Hnd as [|? ? Hnotin Hnd']; subst.
  constructor.
  - apply IH; [assumption|]. intros x Hx. apply Hincl. now right.
  - rewrite Forall_forall in Ha |- *. intros b Hb.
    specialize (Ha b Hb). unfold tab_before in Ha.
    apply key_lt_false in Ha. unfold tab_key in Ha. cbn [fst snd] in Ha.
    destruct Ha as [H1 H2]. unfold mru_before.
    destruct (Qlt_le_dec (final_score tabs mru now b) (final_score tabs mru now a))
      as [Hlt|Hle]; [now left|].
    right. assert (Heq : (final_score tabs mru now a == final_score tabs mru now b)%Q) by lra.
    split; [exact Heq|].
    specialize (H2 ltac:(lra)).
    assert (Hne : position (map id tabs) (id a) <> position (map id tabs) (id b)).
    { intros E. apply position_inj in E.
      - apply Hnotin. rewrite E. now apply in_map.
      - apply in_map, Hincl. now left. }
    lia.
Qed.

Lemma reconcile_example mru now :
  (10 < now)%Q ->
  dict_get mru 1 = Some (10 # 1) -> dict_get mru 2 = Some (5 # 1) ->
  dict_get mru 3 = None ->
  map id (fst (_reconcile_mru [tab1; tab2'; tab3] mru now)) = [3; 1; 2].
Proof.
  intros Hnow H1 H2 H3.
  set (tabs := [tab1; tab2'; tab3]).
  assert (Hnd : NoDup (map id tabs)).
  { cbn. repeat constructor; cbn; intuition discriminate. }
  rewrite (reconcile_mru_sorted tabs mru now Hnd). cbn [fst].
  assert (F1 : final_score tabs mru now tab1 = 10 # 1).
  { unfold final_score, base_score, get_or. cbn. now rewrite H1. }
  assert (F2 : final_score tabs mru now tab2' = 5 # 1).
  { unfold final_score, base_score, get_or. cbn. now rewrite H2. }
  assert (F3 : final_score tabs mru now tab3 = now).
  { unfold final_score, base_score, get_or. cbn. rewrite H3.
    unfold py_max. assert (E : Qltb 0 now = true) by (apply Qltb_spec; lra).
    now rewrite E. }
  assert (B32 : tab_before tabs mru now tab3 tab2' = true).
  { unfold tab_before, tab_key. rewrite F3, F2. apply key_lt_spec. left.
    cbn [fst]. lra. }
  assert (B31 : tab_before tabs mru now tab3 tab1 = true).
  { unfold tab_before, tab_key. rewrite F3, F1. apply key_lt_spec. left.
    cbn [fst]. lra. }
  assert (B21 : tab_before tabs mru now tab2' tab1 = false).
  { unfold tab_before, tab_key. rewrite F2, F1. reflexivity. }
  unfold sorted_by, tabs at 2. cbn [fold_right insert_sorted].
  rewrite B32. cbn [insert_sorted]. rewrite B31, B21. reflexivity.
Qed.

(** C4: for tabs with distinct ids, reconciliation scores every tab with
    its native last-focused timestamp when any tab carries one (the
    persisted map is then ignored) and with its persisted score otherwise,
    0 for a tab without one; forces the active tab's score to
    [max(score, now)]; and orders the tabs by descending score, ties going
    to the earlier place in the host's list.  Tabs 1, 2, 3 with persisted
    scores 10 and 5 for tabs 1 and 2 and tab 3 active come out as 3, 1, 2
    whatever the order of the persisted map. *)
Theorem reconcile_mru_spec (tabs : list TabInfo) (mru : list (Z * Q)) (now : Q) :
  NoDup (map id tabs) ->
  let r := _reconcile_mru tabs mru now in
  snd r = map (fun t => (id t, final_score tabs mru now t)) tabs
  /\ Permutation tabs (fst r)
  /\ StronglySorted (mru_before tabs mru now) (fst r)
  /\ (existsb has_last_focused tabs = true ->
      forall mru', _reconcile_mru tabs mru' now = r)
  /\ (forall mru0 now0,
        (10 < now0)%Q ->
        dict_get mru0 1 = Some (10 # 1) -> dict_get mru0 2 = Some (5 # 1) ->
        dict_get mru0 3 = None ->
        map id (fst (_reconcile_mru [tab1; tab2'; tab3] mru0 now0)) = [3; 1; 2]).
Proof.
  intros Hnd r. unfold r. rewrite (reconcile_mru_sorted tabs mru now Hnd).
  cbn [fst snd].
  assert (Hperm : Permutation tabs (sorted_by (tab_before tabs mru now) tabs))
    by apply sorted_by_perm.
  split; [reflexivity|]. split; [exact Hperm|]. split; [|split].
  - apply sorted_strict.
    + apply (Permutation_NoDup (Permutation_map id Hperm) Hnd).
    + intros x Hx. eapply Permutation_in; [symmetry; exact Hperm | exact Hx].
    + apply sorted_by_sorted.
      * intros a b. apply key_lt_asym.
      * intros a b c. apply key_le_trans.
  - intros Hfocus mru'. rewrite <- (reconcile_mru_sorted tabs mru now Hnd).
    unfold _reconcile_mru. now rewrite Hfocus.
  - intros mru0 now0. apply reconcile_example.
Qed.

Lemma reconcile_mru_spec_witness :
  let tabs := [tab1; tab2'; tab3] in
  let mru := [(2, 5 # 1); (1, 10 # 1)] in
  let now := 1000 # 1 in
  let r := _reconcile_mru tabs mru now in
  snd r = map (fun t => (id t, final_score tabs mru now t)) tabs
  /\ Permutation tabs (fst r)
  /\ StronglySorted (mru_before tabs mru now) (fst r)
  /\ (existsb has_last_focused tabs = true ->
      forall mru', _reconcile_mru tabs mru' now = r)
  /\ (forall mru0 now0,
        (10 < now0)%Q ->
        dict_get mru0 1 = Some (10 # 1) -> dict_get mru0 2 = Some (5 # 1) ->
        dict_get mru0 3 = None ->
        map id (fst (_reconcile_mru [tab1; tab2'; tab3] mru0 now0)) = [3; 1; 2]).
Proof.
  apply (reconcile_mru_spec [tab1; tab2'; tab3] [(2, 5 # 1); (1, 10 # 1)] (1000 # 1)).
  cbn. repeat constructor; cbn; intuition discriminate.
Defined.

End MruFacts.
(** ** Rendering: trimming and the number of lines *)
Module RenderFacts.
Import Py Preview Samples Notions.

Lemma length_range lo hi : length (range lo hi) = Z.to_nat (hi - lo).
Proof. unfold range. now rewrite length_map, length_seq. Qed.

Lemma len_range lo hi : lo <= hi -> len (range lo hi) = hi - lo.
Proof. intros H. unfold len. rewrite length_range. lia. Qed.

Lemma length_assemble {A} (emit : A -> A -> str) dflt mask cols rows :
  length (assemble emit dflt mask cols rows) = Z.to_nat rows.
Proof.
  unfold assemble. rewrite length_map, length_range. f_equal. lia.
Qed.

Lemma length_downsample_mask lines cols rows :
  0 < cols -> length (downsample_mask lines cols rows) = Z.to_nat rows.
Proof.
  intros Hc. unfold downsample_mask.
  destruct (Z.leb_spec rows 0) as [Hr|Hr]; cbn [orb].
  - cbn. lia.
  - destruct (Z.leb_spec cols 0); [lia|]. destruct lines.
    + now rewrite repeat_length.
    + rewrite length_map, length_range. f_equal. lia.
Qed.

Lemma length_downsample_color lines cols rows :
  0 < cols -> length (_downsample_color lines cols rows) = Z.to_nat rows.
Proof.
  intros Hc. unfold _downsample_color.
  destruct (Z.leb_spec rows 0) as [Hr|Hr]; cbn [orb].
  - cbn. lia.
  - destruct (Z.leb_spec cols 0); [lia|]. destruct lines.
    + now rewrite repeat_length.
    + rewrite length_map, length_range. f_equal. lia.
Qed.

(** *** Content rows *)

Lemma last_content_skip {A} (has : A -> bool) xs ys :
  forallb (fun x => negb (has x)) xs = true ->
  last_content has (xs ++ ys) = last_content has ys.
Proof.
  induction xs as [|x xs IH]; [reflexivity|]. cbn [forallb app last_content].
  intros H. apply andb_true_iff in H. destruct H as [Hx Hxs].
  apply negb_true_iff in Hx. rewrite Hx. now apply IH.
Qed.

Lemma forallb_rev {A} (p : A -> bool) l :
  forallb p l = true -> forallb p (rev l) = true.
Proof.
  rewrite !forallb_forall. intros H x Hx. apply H. now apply in_rev.
Qed.

(** One more than the index of the last row with content. *)
Lemma content_rows_last {A} (has : A -> bool) pre l post :
  has l = true -> forallb (fun x => negb (has x)) post = true ->
  content_rows has (pre ++ l :: post) = len pre + 1.
Proof.
  intros Hl Hpost. unfold content_rows.
  rewrite rev_app_distr. cbn [rev]. rewrite <- app_assoc. cbn [app].
  rewrite last_content_skip by now apply forallb_rev.
  cbn [last_content]. rewrite Hl. unfold len. cbn [length].
  rewrite length_rev. lia.
Qed.

(** No row with content: one row, or none for an empty input. *)
Lemma content_rows_blank {A} (has : A -> bool) ls :
  forallb (fun x => negb (has x)) ls = true ->
  content_rows has ls = Z.min (len ls) 1.
Proof.
  intros H. unfold content_rows.
  rewrite <- (app_nil_r (rev ls)), last_content_skip by now apply forallb_rev.
  reflexivity.
Qed.

Lemma last_content_bound {A} (has : A -> bool) l n :
  last_content has l = Some n -> 0 < n <= len l.
Proof.
  induction l as [|x l IH]; [discriminate|]. cbn [last_content].
  destruct (has x).
  - intros [= <-]. unfold len. cbn [length]. lia.
  - intros H. specialize (IH H). unfold len in *. cbn [length]. lia.
Qed.

Lemma content_rows_bound {A} (has : A -> bool) ls :
  0 <= content_rows has ls <= len ls.
Proof.
  unfold content_rows. destruct (last_content has (rev ls)) as [n|] eqn:E.
  - apply last_content_bound in E. unfold len in *.
    rewrite length_rev in E. lia.
  - unfold len. lia.
Qed.

Lemma len_firstn {A} (l : list A) n :
  0 <= n <= len l -> len (firstn (Z.to_nat n) l) = n.
Proof. unfold len. intros H. rewrite length_firstn. lia. Qed.

Lemma render_plain U lines cols rows mode :
  0 < cols -> 0 < rows -> has_ansi lines = false ->
  render_block_preview U lines cols rows mode
  = Ok (assemble (fun up lo => [plain_glyph up lo]) false
          (downsample_mask
             (firstn (Z.to_nat (content_rows (has_visible U) lines)) lines)
             cols (Z.min (content_rows (has_visible U) lines) (rows * 2)))
          cols rows).
Proof.
  intros Hc Hr Hansi. unfold render_block_preview.
  destruct (Z.leb_spec rows 0); [lia|]. destruct (Z.leb_spec cols 0); [lia|].
  cbn [orb]. now rewrite Hansi.
Qed.

Lemma render_ansi U lines cols rows mode cells :
  0 < cols -> 0 < rows -> has_ansi lines = true ->
  parse_ansi_lines U lines = Ok cells ->
  render_block_preview U lines cols rows mode
  = Ok (assemble (emit_cell (color_mode_of mode)) empty_block
          (_downsample_color
             (firstn (Z.to_nat (_content_row_count_cells U cells)) cells)
             cols (Z.min (_content_row_count_cells U cells) (rows * 2)))
          cols rows).
Proof.
  intros Hc Hr Hansi Hparse. unfold render_block_preview.
  destruct (Z.leb_spec rows 0); [lia|]. destruct (Z.leb_spec cols 0); [lia|].
  cbn [orb]. now rewrite Hansi, Hparse.
Qed.

(** When [render_block_preview] returns, it returns one line for each
    target row; without an escape sequence in the input it always
    returns. *)
Lemma render_length U lines cols rows mode out :
  0 < cols -> 0 < rows ->
  render_block_preview U lines cols rows mode = Ok out -> len out = rows.
Proof.
  intros Hc Hr. unfold render_block_preview.
  destruct (Z.leb_spec rows 0); [lia|]. destruct (Z.leb_spec cols 0); [lia|].
  cbn [orb]. destruct (has_ansi lines).
  - destruct (parse_ansi_lines U lines); cbn [bind]; [|discriminate].
    intros [= <-]. unfold len. rewrite length_assemble. lia.
  - intros [= <-]. unfold len. rewrite length_assemble. lia.
Qed.

Lemma render_nothing U lines cols rows mode :
  cols <= 0 \/ rows <= 0 ->
  render_block_preview U lines cols rows mode = Ok [].
Proof.
  intros H. unfold render_block_preview.
  destruct (Z.leb_spec rows 0), (Z.leb_spec cols 0); cbn [orb];
    try reflexivity; lia.
Qed.

(** C8, as the code has it: the content height is one more than the index
    of the last row with content, and [min(number of rows, 1)] when no row
    has any (0 for an empty input); render hands the first [content] source
    rows to the downsampler and asks it for [min(content, rows * 2)] mask
    rows, which is what it gets; 24 lines whose first 14 have text and
    whose last 10 are blank have 14 content rows. *)
Theorem render_trims_then_downsamples
  (U : unicode_db) (lines : list str) (cols rows : Z) (mode : str) :
  0 < cols -> 0 < rows ->
  (has_ansi lines = false ->
   let content := content_rows (has_visible U) lines in
   let source := firstn (Z.to_nat content) lines in
   let mask := downsample_mask source cols (Z.min content (rows * 2)) in
   render_block_preview U lines cols rows mode
   = Ok (assemble (fun up lo => [plain_glyph up lo]) false mask cols rows)
   /\ len source = content
   /\ len mask = Z.min content (rows * 2))
  /\ (has_ansi lines = true ->
      forall cells, parse_ansi_lines U lines = Ok cells ->
      let content := _content_row_count_cells U cells in
      let source := firstn (Z.to_nat content) cells in
      let mask := _downsample_color source cols (Z.min content (rows * 2)) in
      render_block_preview U lines cols rows mode
      = Ok (assemble (emit_cell (color_mode_of mode)) empty_block mask cols rows)
      /\ len source = content
      /\ len mask = Z.min content (rows * 2))
  /\ (forall (A : Type) (has : A -> bool) pre l post,
        has l = true -> forallb (fun x => negb (has x)) post = true ->
        content_rows has (pre ++ l :: post) = len pre + 1)
  /\ (forall (A : Type) (has : A -> bool) ls,
        forallb (fun x => negb (has x)) ls = true ->
        content_rows has ls = Z.min (len ls) 1)
  /\ (forall text last blanks,
        length (text ++ [last]) = 14%nat -> length blanks = 10%nat ->
        has_visible U last = true ->
        forallb (fun l => negb (has_visible U l)) blanks = true ->
        len (text ++ last :: blanks) = 24
        /\ content_rows (has_visible U) (text ++ last :: blanks) = 14).
Proof.
  intros Hc Hr. split; [|split; [|split; [|split]]].
  - intros Hansi content source mask.
    pose proof (content_rows_bound (has_visible U) lines) as Hb. fold content in Hb.
    split; [now apply render_plain|]. split.
    + now apply len_firstn.
    + unfold len, mask. rewrite length_downsample_mask by assumption. lia.
  - intros Hansi cells Hparse content source mask.
    pose proof (content_rows_bound (cell_row_has_content U) cells) as Hb.
    fold (_content_row_count_cells U cells) in Hb. fold content in Hb.
    split; [now apply render_ansi|]. split.
    + now apply len_firstn.
    + unfold len, mask. rewrite length_downsample_color by assumption. lia.
  - intros A has pre l post. apply content_rows_last.
  - intros A has ls. apply content_rows_blank.
  - intros text last blanks Ht Hb Hl Hbl. split.
    + unfold len. rewrite length_app in *. cbn [length] in *. lia.
    + rewrite content_rows_last by assumption.
      unfold len. rewrite length_app in Ht. cbn [length] in Ht. lia.
Qed.

Lemma render_trims_then_downsamples_witness :
  render_block_preview latin1_only five_lines 1 1 mode_both
  = Ok (assemble (fun up lo => [plain_glyph up lo]) false
          (downsample_mask
             (firstn (Z.to_nat (content_rows (has_visible latin1_only) five_lines))
                     five_lines)
             1 (Z.min (content_rows (has_visible latin1_only) five_lines) (1 * 2)))
          1 1)
  /\ len (firstn (Z.to_nat (content_rows (has_visible latin1_only) five_lines))
                 five_lines)
     = content_rows (has_visible latin1_only) five_lines
  /\ len (downsample_mask
            (firstn (Z.to_nat (content_rows (has_visible latin1_only) five_lines))
                    five_lines)
            1 (Z.min (content_rows (has_visible latin1_only) five_lines) (1 * 2)))
     = Z.min (content_rows (has_visible latin1_only) five_lines) (1 * 2).
Proof.
  apply (proj1 (render_trims_then_downsamples latin1_only five_lines 1 1 mode_both
                  ltac:(lia) ltac:(lia))).
  reflexivity.
Defined.

(** C8 as worded fails twice.  Five lines of text rendered to one row: the
    downsampler is handed all five source rows, not [min(5, 1 * 2) = 2] of
    them (2 is the number of mask rows it is asked for).  And an empty
    input has content height 0, below the stated minimum of 1. *)
Lemma render_feeds_all_content_rows :
  content_rows (has_visible latin1_only) five_lines = 5
  /\ len (fst (downsample_input (has_visible latin1_only) five_lines 1)) = 5
  /\ Z.min 5 (1 * 2) = 2
  /\ snd (downsample_input (has_visible latin1_only) five_lines 1) = 2
  /\ content_rows (has_visible latin1_only) [] = 0.
Proof. repeat split; vm_compute; reflexivity. Qed.

(** C10 at the failing input: the one line [ESC [ ² m] has an escape
    sequence, so it is parsed; its SGR parameter ["²"] passes
    [str.isdigit], and [int("²")] raises [ValueError], which nothing
    catches: no list of lines is returned. *)
Theorem render_raises_on_superscript_digit (U : unicode_db) :
  render_block_preview U [superscript_sgr] 1 1 mode_both = Raise ValueError.
Proof. vm_compute. reflexivity. Qed.

End RenderFacts.
(** ** Colour attribution in the coloured downsampling *)
Module ColorFacts.
Import Py Preview Samples Notions RenderFacts.



Lemma nth_map_default {A B} (f : A -> B) l n d d' :
  (n < length l)%nat -> nth n (map f l) d = f (nth n l d').
Proof.
  intros H. rewrite (nth_indep _ d (f d')) by now rewrite length_map.
  apply map_nth.
Qed.

Lemma get_map_range {A} (f : Z -> A) n k d :
  0 <= k < n -> get (map f (range 0 n)) k d = f k.
Proof.
  intros H. unfold get. destruct (Z.ltb_spec k 0); [lia|].
  rewrite (nth_map_default f _ _ d 0) by (rewrite length_range; lia).
  f_equal. unfold range.
  rewrite (nth_map_default _ _ _ 0 0%nat) by (rewrite length_seq; lia).
  rewrite seq_nth by lia. lia.
Qed.


(** *** What the tally counts *)









(** *** The most frequent colour *)














End ColorFacts.

(** ** The key decoder at its edges *)
Module KeysMore.
Import Py Keys PyFacts Notions KeysFacts MoreNotions.

(** The collecting loop stops at a read that yields nothing. *)
Lemma read_seq_timeout bs : forall fuel buf src,
  Forall not_final bs ->
  (length buf + length bs <= 64)%nat -> (length bs < fuel)%nat ->
  fst (next_read src) = NoData ->
  read_seq fuel buf (map Data bs ++ src) = (Ok (buf ++ bs), snd (next_read src)).
Proof.
  induction bs as [|b bs IH]; intros fuel buf src Hbs Hlen Hfuel Hsrc.
  - destruct fuel; [inversion Hfuel|].
    cbn [map app read_seq]. unfold read_with_timeout.
    destruct (next_read src) as [e r]. cbn in Hsrc. subst e.
    now rewrite app_nil_r.
  - destruct fuel; [inversion Hfuel|]. inversion Hbs as [|? ? Hb Hbs']; subst.
    cbn [map app read_seq read_with_timeout next_read].
    unfold not_final in Hb. rewrite Hb.
    cbn [length] in Hlen, Hfuel.
    destruct (Nat.ltb_spec 64 (length (buf ++ [b]))) as [Hgt|_].
    + rewrite length_app in Hgt. cbn in Hgt. lia.
    + rewrite IH; try assumption.
      * now rewrite <- app_assoc.
      * rewrite length_app. cbn. lia.
      * lia.
Qed.

(** The collecting loop stops when the buffer holds 65 bytes. *)
Lemma read_seq_cap bs : forall fuel buf rest,
  Forall not_final bs -> bs <> [] ->
  (length buf + length bs = 65)%nat -> (length bs <= fuel)%nat ->
  read_seq fuel buf (map Data bs ++ rest) = (Ok (buf ++ bs), rest).
Proof.
  induction bs as [|b bs IH]; intros fuel buf rest Hbs Hne Hlen Hfuel;
    [congruence|].
  destruct fuel; [inversion Hfuel|]. inversion Hbs as [|? ? Hb Hbs']; subst.
  cbn [map app read_seq read_with_timeout next_read].
  unfold not_final in Hb. rewrite Hb.
  cbn [length] in Hlen, Hfuel.
  destruct (Nat.ltb_spec 64 (length (buf ++ [b]))) as [Hgt|Hle].
  - rewrite length_app in Hgt. cbn in Hgt.
    destruct bs; [reflexivity | cbn in Hlen; lia].
  - rewrite length_app in Hle. cbn in Hle.
    rewrite IH; try assumption.
    + now rewrite <- app_assoc.
    + destruct bs; [cbn in Hlen; lia | discriminate].
    + rewrite length_app. cbn. lia.
    + lia.
Qed.

Lemma str_eqb_neq a b : a <> b -> str_eqb a b = false.
Proof.
  intros H. unfold str_eqb. now destruct (list_eq_dec N.eq_dec a b).
Qed.

Lemma str_eqb_same a : str_eqb a a = true.
Proof. unfold str_eqb. now destruct (list_eq_dec N.eq_dec a a). Qed.

Lemma byte_eqb_neq a b : a <> b -> Byte.eqb a b = false.
Proof.
  intros H. destruct (Byte.eqb a b) eqn:E; [|reflexivity].
  now apply Byte.byte_dec_bl in E.
Qed.

Lemma not_final_neq b x : not_final b -> is_final x = true -> Byte.eqb b x = false.
Proof.
  intros Hb Hx. apply byte_eqb_neq. intros ->. unfold not_final in Hb. congruence.
Qed.

(** A collected sequence whose last byte is none of [Z], [I], [~] and [u]
    is read as Escape. *)
Lemma interpret_seq_other buf last :
  Byte.eqb last "Z" = false -> Byte.eqb last "I" = false ->
  Byte.eqb last "~" = false -> Byte.eqb last "u" = false ->
  interpret_seq (buf ++ [last]) = Ok escape_key.
Proof.
  intros HZ HI Ht Hu. unfold interpret_seq.
  rewrite !endswith_last, HZ, HI, Ht, Hu. reflexivity.
Qed.

Lemma read_key_csi src :
  read_key (Data "027"%byte :: Data "["%byte :: src)
  = match read_seq 64 ["027"; "["]%byte src with
    | (Raise e, r2) => (Raise e, r2)
    | (Ok buf, r2) => (interpret_seq buf, r2)
    end.
Proof. reflexivity. Qed.

Lemma read_key_csi_final bs f rest :
  Forall not_final bs -> (length bs <= 62)%nat -> is_final f = true ->
  read_key (csi_input bs f rest)
  = (interpret_seq (["027"; "["]%byte ++ bs ++ [f]), rest).
Proof.
  intros Hbs Hlen Hf. unfold csi_input. rewrite read_key_csi.
  rewrite read_seq_collect; try assumption; [reflexivity | cbn; lia | lia].
Qed.

(** X1: a control sequence [ESC \[] that breaks off, the next read timing
    out or the input being at its end after at most 62 parameter bytes, is
    decoded as a press of Escape, and the bytes read so far are dropped. *)
Theorem read_key_incomplete_sequence (bs : list byte) (rest : source) :
  Forall not_final bs -> (length bs <= 62)%nat ->
  read_key (Data "027"%byte :: Data "["%byte :: map Data bs ++ NoData :: rest)
  = (Ok escape_key, rest)
  /\ read_key (Data "027"%byte :: Data "["%byte :: map Data bs)
     = (Ok escape_key, []).
Proof.
  intros Hbs Hlen.
  assert (Hesc : interpret_seq (["027"; "["]%byte ++ bs) = Ok escape_key).
  { destruct (@exists_last _ (["027"; "["]%byte ++ bs)) as (pre & last & E);
      [discriminate|].
    rewrite E.
    assert (Hlast : last = "["%byte \/ not_final last).
    { destruct bs as [|b bs'] using rev_ind.
      - left. cbn in E. change ["027"%byte; "["%byte]
          with (["027"%byte] ++ ["["%byte]) in E.
        now apply app_inj_tail in E as [_ <-].
      - right. rewrite !app_assoc in E. apply app_inj_tail in E as [_ <-].
        apply Forall_app in Hbs as [_ Hb]. now inversion Hb. }
    destruct Hlast as [->|Hnf].
    - now apply interpret_seq_other.
    - apply interpret_seq_other; now apply not_final_neq. }
  split.
  - rewrite read_key_csi.
    rewrite (read_seq_timeout bs 64 _ (NoData :: rest)); try assumption;
      [cbn [next_read snd]; now rewrite Hesc | cbn; lia | lia | reflexivity].
  - rewrite read_key_csi.
    rewrite <- (app_nil_r (map Data bs)).
    rewrite (read_seq_timeout bs 64 _ []); try assumption;
      [cbn [next_read snd]; now rewrite Hesc | cbn; lia | lia | reflexivity].
Qed.

Lemma read_key_incomplete_sequence_witness :
  read_key (Data "027"%byte :: Data "["%byte
            :: map Data ["1"; ";"; "5"]%byte ++ NoData :: [Data "u"%byte])
  = (Ok escape_key, [Data "u"%byte])
  /\ read_key (Data "027"%byte :: Data "["%byte :: map Data ["1"; ";"; "5"]%byte)
     = (Ok escape_key, []).
Proof.
  apply (read_key_incomplete_sequence ["1"; ";"; "5"]%byte [Data "u"%byte]).
  - repeat constructor.
  - cbn. lia.
Defined.

(** X2: the decoder gives a control sequence up after 63 parameter bytes:
    it answers Escape and leaves what follows, the final byte included,
    unread for the next call. *)
Theorem read_key_overlong_sequence (bs : list byte) (rest : source) :
  Forall not_final bs -> length bs = 63%nat ->
  read_key (Data "027"%byte :: Data "["%byte :: map Data bs ++ rest)
  = (Ok escape_key, rest).
Proof.
  intros Hbs Hlen. rewrite read_key_csi.
  rewrite read_seq_cap; try assumption.
  - destruct bs as [|b bs'] using rev_ind; [discriminate|].
    rewrite !app_assoc.
    apply Forall_app in Hbs as [_ Hb]. inversion Hb as [|? ? Hnf _]; subst.
    now rewrite interpret_seq_other by now apply not_final_neq.
  - intros ->. discriminate.
  - cbn [length]. lia.
  - lia.
Qed.

Lemma read_key_overlong_sequence_witness :
  read_key (Data "027"%byte :: Data "["%byte
            :: map Data (repeat "1"%byte 63) ++ [Data "u"%byte])
  = (Ok escape_key, [Data "u"%byte]).
Proof.
  apply (read_key_overlong_sequence (repeat "1"%byte 63) [Data "u"%byte]).
  - apply Forall_forall. intros x Hx. apply repeat_spec in Hx. now subst.
  - apply repeat_length.
Defined.

(** X3: a complete control sequence whose final byte is not [Z], [I] or
    [u], and which is not [ESC \[ 9 ~] or [ESC \[ 24 ~], is decoded as a
    press of Escape. *)
Theorem read_key_unrecognised_sequence
  (bs : list byte) (f : byte) (rest : source) :
  Forall not_final bs -> (length bs <= 62)%nat -> is_final f = true ->
  f <> "Z"%byte -> f <> "I"%byte -> f <> "u"%byte ->
  (f = "~"%byte ->
   tilde_params bs <> [57%N] /\ tilde_params bs <> [50%N; 52%N]) ->
  read_key (csi_input bs f rest) = (Ok escape_key, rest).
Proof.
  intros Hbs Hlen Hf HZ HI Hu Ht.
  rewrite read_key_csi_final by assumption. f_equal.
  unfold interpret_seq.
  rewrite !app_assoc, !endswith_last, <- !app_assoc.
  rewrite (byte_eqb_neq _ _ HZ), (byte_eqb_neq _ _ HI), (byte_eqb_neq _ _ Hu).
  rewrite payload_of_frame.
  destruct (Byte.eqb f "~") eqn:E; [|reflexivity].
  apply Byte.byte_dec_bl in E. destruct (Ht E) as [H9 H24].
  unfold tilde_params in H9, H24.
  now rewrite (str_eqb_neq _ _ H9), (str_eqb_neq _ _ H24).
Qed.

Lemma read_key_unrecognised_sequence_witness :
  read_key (csi_input ["1"; "5"]%byte "~"%byte [Data "q"%byte])
  = (Ok escape_key, [Data "q"%byte]).
Proof.
  apply (read_key_unrecognised_sequence ["1"; "5"]%byte "~"%byte [Data "q"%byte]);
    try discriminate; try reflexivity.
  - repeat constructor.
  - cbn. lia.
  - intros _. split; vm_compute; discriminate.
Defined.

(** X4: the legacy sequences are recognised by their final byte whatever
    their parameters: [ESC \[ ... Z] is a back-tab (code -9, shift), [ESC \[
    ... I] is Tab; [ESC \[ 9 ~] is Tab and [ESC \[ 24 ~] the marker key,
    blanks around the number allowed. *)
Theorem read_key_legacy_sequences (bs : list byte) (rest : source) :
  Forall not_final bs -> (length bs <= 62)%nat ->
  read_key (csi_input bs "Z"%byte rest)
  = (Ok (Some (mkKeyEvent (- TAB_CODE) 2 1)), rest)
  /\ read_key (csi_input bs "I"%byte rest)
     = (Ok (Some (mkKeyEvent TAB_CODE 1 1)), rest)
  /\ (tilde_params bs = [57%N] ->
      read_key (csi_input bs "~"%byte rest)
      = (Ok (Some (mkKeyEvent TAB_CODE 1 1)), rest))
  /\ (tilde_params bs = [50%N; 52%N] ->
      read_key (csi_input bs "~"%byte rest)
      = (Ok (Some (mkKeyEvent MARKER_KEY_CODE 1 1)), rest)).
Proof.
  intros Hbs Hlen.
  split; [|split; [|split]]; try intros Hp;
    rewrite read_key_csi_final by (assumption || reflexivity); f_equal;
    unfold interpret_seq;
    rewrite !app_assoc, !endswith_last, <- !app_assoc; try reflexivity.
  - rewrite payload_of_frame. fold (tilde_params bs). now rewrite Hp.
  - rewrite payload_of_frame. fold (tilde_params bs). now rewrite Hp.
Qed.

Lemma read_key_legacy_sequences_witness :
  read_key (csi_input [" "; "2"; "4"]%byte "Z"%byte [])
  = (Ok (Some (mkKeyEvent (- TAB_CODE) 2 1)), [])
  /\ read_key (csi_input [" "; "2"; "4"]%byte "I"%byte [])
     = (Ok (Some (mkKeyEvent TAB_CODE 1 1)), [])
  /\ (tilde_params [" "; "2"; "4"]%byte = [57%N] ->
      read_key (csi_input [" "; "2"; "4"]%byte "~"%byte [])
      = (Ok (Some (mkKeyEvent TAB_CODE 1 1)), []))
  /\ (tilde_params [" "; "2"; "4"]%byte = [50%N; 52%N] ->
      read_key (csi_input [" "; "2"; "4"]%byte "~"%byte [])
      = (Ok (Some (mkKeyEvent MARKER_KEY_CODE 1 1)), [])).
Proof.
  apply (read_key_legacy_sequences [" "; "2"; "4"]%byte []).
  - repeat constructor.
  - cbn. lia.
Defined.

(** The collecting loop raises when a read fails before the sequence is
    complete. *)
Lemma read_seq_error bs : forall fuel buf rest,
  Forall not_final bs ->
  (length buf + length bs <= 64)%nat -> (length bs < fuel)%nat ->
  read_seq fuel buf (map Data bs ++ ReadError :: rest) = (Raise OSError, rest).
Proof.
  induction bs as [|b bs IH]; intros fuel buf rest Hbs Hlen Hfuel.
  - destruct fuel; [inversion Hfuel|]. reflexivity.
  - destruct fuel; [inversion Hfuel|]. inversion Hbs as [|? ? Hb Hbs']; subst.
    cbn [map app read_seq read_with_timeout next_read].
    unfold not_final in Hb. rewrite Hb.
    cbn [length] in Hlen, Hfuel.
    destruct (Nat.ltb_spec 64 (length (buf ++ [b]))) as [Hgt|_].
    + rewrite length_app in Hgt. cbn in Hgt. lia.
    + apply IH; [assumption| |lia]. rewrite length_app. cbn. lia.
Qed.

(** What the collecting loop has read when it stops: the bytes that do not
    end the sequence, and then either the failing read, or the final byte,
    or nothing that ends the sequence. *)
Lemma read_seq_inv fuel : forall buf src res r,
  (length buf <= 64)%nat ->
  read_seq fuel buf src = (res, r) ->
  match res with
  | Raise e =>
      e = OSError
      /\ exists bs, Forall not_final bs /\ (length buf + length bs <= 64)%nat
                    /\ src = map Data bs ++ ReadError :: r
  | Ok out =>
      (exists bs f, Forall not_final bs /\ is_final f = true
                    /\ (length buf + length bs <= 64)%nat
                    /\ src = map Data bs ++ Data f :: r
                    /\ out = buf ++ bs ++ [f])
      \/ (exists bs, Forall not_final bs /\ out = buf ++ bs)
  end.
Proof.
  induction fuel as [|f IH]; intros buf src res r Hbuf; cbn [read_seq].
  - intros [= <- <-]. right. exists []. split; [constructor|].
    now rewrite app_nil_r.
  - unfold read_with_timeout, next_read.
    destruct src as [|[b| |] rest].
    + intros [= <- <-]. right. exists []. split; [constructor|].
      now rewrite app_nil_r.
    + destruct (is_final b) eqn:Eb.
      * intros [= <- <-]. left. exists [], b.
        split; [constructor|]. split; [exact Eb|].
        split; [cbn; lia|]. split; reflexivity.
      * destruct (Nat.ltb_spec 64 (length (buf ++ [b]))) as [Hgt|Hle].
        -- intros [= <- <-]. right. exists [b].
           split; [now repeat constructor | reflexivity].
        -- intros H. specialize (IH (buf ++ [b]) rest res r Hle H).
           rewrite length_app in IH, Hle. cbn [length] in IH, Hle.
           destruct res as [out|e].
           ++ destruct IH as [(bs & fin & Hbs & Hfin & Hlen & -> & ->)
                              |(bs & Hbs & ->)].
              ** left. exists (b :: bs), fin.
                 split; [now constructor|]. split; [exact Hfin|].
                 split; [cbn [length]; lia|].
                 split; [reflexivity | now rewrite <- app_assoc].
              ** right. exists (b :: bs).
                 split; [now constructor | now rewrite <- app_assoc].
           ++ destruct IH as (-> & bs & Hbs & Hlen & ->).
              split; [reflexivity|]. exists (b :: bs).
              split; [now constructor|].
              split; [cbn [length]; lia | reflexivity].
    + intros [= <- <-]. right. exists []. split; [constructor|].
      now rewrite app_nil_r.
    + intros [= <- <-]. split; [reflexivity|]. exists [].
      split; [constructor|]. split; [cbn [length]; lia | reflexivity].
Qed.

(** A sequence the loop left without a final byte does not end in [u]. *)
Lemma endswith_not_final bs x :
  Forall not_final bs -> is_final x = true ->
  endswith (["027"; "["]%byte ++ bs) x = true -> x = "["%byte.
Proof.
  intros Hbs Hx. destruct bs as [|b bs'] using rev_ind.
  - cbn. intros H. symmetry. now apply Byte.byte_dec_bl.
  - rewrite app_assoc, endswith_last.
    apply Forall_app in Hbs as [_ Hb]. inversion Hb as [|? ? Hnf _]; subst.
    now rewrite (not_final_neq _ _ Hnf Hx).
Qed.

Lemma interpret_seq_report bs :
  interpret_seq (["027"; "["]%byte ++ bs ++ ["u"%byte])
  = parse_csi_u (["027"; "["]%byte ++ bs ++ ["u"%byte]).
Proof.
  unfold interpret_seq. rewrite !app_assoc, !endswith_last. reflexivity.
Qed.

(** X5: [read_key] raises in two ways only, and the input decides which.
    It raises [OSError] exactly when, after a first byte [ESC], a later
    read fails: the read that follows [ESC], or a read of the collecting
    loop after [ESC \[] and at most 62 bytes that do not end the sequence.
    It raises what [parse_csi_u] raises exactly when the input is a
    sequence [ESC \[ ... u] with at most 62 such bytes, on which
    [parse_csi_u] is called.  In both cases what follows stays unread. *)
Theorem read_key_raise_sources (src : source) (e : exn) (r : source) :
  read_key src = (Raise e, r)
  <-> (e = OSError
       /\ (src = Data "027"%byte :: ReadError :: r
           \/ exists bs,
                Forall not_final bs /\ (length bs <= 62)%nat
                /\ src = Data "027"%byte :: Data "["%byte
                           :: map Data bs ++ ReadError :: r))
      \/ (exists bs,
            Forall not_final bs /\ (length bs <= 62)%nat
            /\ src = csi_input bs "u"%byte r
            /\ parse_csi_u (["027"; "["]%byte ++ bs ++ ["u"%byte]) = Raise e).
Proof.
  split.
  - intros H. unfold read_key, read_with_timeout, next_read in H.
    destruct src as [|[first| |] rest]; try discriminate.
    destruct (Byte.eqb first "009") eqn:E9; [discriminate|].
    destruct (Byte.eqb first "027") eqn:E27; [|discriminate].
    apply Byte.byte_dec_bl in E27. subst first. cbn [negb] in H.
    destruct rest as [|[nxt| |] rest1]; try discriminate.
    + destruct (Byte.eqb nxt "[") eqn:Eb; [|discriminate].
      apply Byte.byte_dec_bl in Eb. subst nxt. cbn [negb] in H.
      destruct (read_seq 64 ["027"%byte; "["%byte] rest1) as [res r2] eqn:E.
      assert (H2 : (length ["027"%byte; "["%byte] <= 64)%nat) by (cbn; lia).
      pose proof (read_seq_inv 64 _ _ _ _ H2 E) as Hinv. clear H2.
      destruct res as [buf|e'].
      * injection H as H ->. apply interpret_seq_raises in H as [Hu Hp].
        destruct Hinv as [(bs & f & Hbs & Hf & Hlen & -> & ->)|(bs & Hbs & ->)].
        -- right. exists bs. cbn [length] in Hlen.
           change ([ "027"%byte; "["%byte] ++ bs ++ [f])
             with (["027"; "["]%byte ++ bs ++ [f]) in *.
           rewrite !app_assoc, endswith_last in Hu.
           apply Byte.byte_dec_bl in Hu. subst f.
           split; [exact Hbs|]. split; [lia|]. split; [reflexivity | exact Hp].
        -- apply (endswith_not_final bs "u"%byte Hbs eq_refl) in Hu.
           discriminate Hu.
      * injection H as -> ->. destruct Hinv as (-> & bs & Hbs & Hlen & ->).
        left. split; [reflexivity|]. right. exists bs. cbn [length] in Hlen.
        split; [exact Hbs|]. split; [lia | reflexivity].
    + injection H as <- <-. left. split; [reflexivity | now left].
  - intros [(-> & [->|(bs & Hbs & Hlen & ->)])|(bs & Hbs & Hlen & -> & Hp)].
    + reflexivity.
    + rewrite read_key_csi.
      rewrite read_seq_error; [reflexivity | exact Hbs | cbn; lia | lia].
    + rewrite read_key_csi_final by (assumption || reflexivity).
      now rewrite interpret_seq_report, Hp.
Qed.

Lemma read_key_raise_sources_witness :
  (ValueError = OSError
   /\ ([Data "027"; Data "["; Data "?"; Data "u"]%byte
       = Data "027"%byte :: ReadError :: []
       \/ exists bs,
            Forall not_final bs /\ (length bs <= 62)%nat
            /\ [Data "027"; Data "["; Data "?"; Data "u"]%byte
               = Data "027"%byte :: Data "["%byte :: map Data bs ++ ReadError :: []))
  \/ (exists bs,
        Forall not_final bs /\ (length bs <= 62)%nat
        /\ [Data "027"; Data "["; Data "?"; Data "u"]%byte
           = csi_input bs "u"%byte []
        /\ parse_csi_u (["027"; "["]%byte ++ bs ++ ["u"%byte]) = Raise ValueError).
Proof.
  apply (proj1 (read_key_raise_sources
                  [Data "027"; Data "["; Data "?"; Data "u"]%byte ValueError [])).
  vm_compute. reflexivity.
Defined.

End KeysMore.

(** ** Block previews: the grid, the plain path, the colour tables *)
Module PreviewMore.
Import Py Preview Samples Notions MoreNotions.
Import PyFacts KeysFacts RenderFacts ColorFacts.

Lemma map_const {A B} (y : B) (l : list A) :
  map (fun _ => y) l = repeat y (length l).
Proof. induction l as [|x l IH]; cbn; [reflexivity | now rewrite IH]. Qed.

(** X18: for positive sizes both downsamplers return a full grid: [rows]
    rows of [cols] cells each, whatever the source. *)
Theorem downsample_grid_shape
  (lines : list str) (cells : list (list cell)) (cols rows : Z) :
  0 < cols -> 0 < rows ->
  (len (downsample_mask lines cols rows) = rows
   /\ Forall (fun row => len row = cols) (downsample_mask lines cols rows))
  /\ (len (_downsample_color cells cols rows) = rows
      /\ Forall (fun row => len row = cols) (_downsample_color cells cols rows)).
Proof.
  intros Hc Hr. split; split.
  - unfold len. rewrite length_downsample_mask by exact Hc. lia.
  - unfold downsample_mask.
    destruct (Z.leb_spec rows 0); [lia|]. destruct (Z.leb_spec cols 0); [lia|].
    cbn [orb]. destruct lines.
    + apply Forall_forall. intros row Hrow. apply repeat_spec in Hrow. subst row.
      unfold len. rewrite repeat_length. lia.
    + apply Forall_forall. intros row Hrow. apply in_map_iff in Hrow as (k & <- & _).
      unfold len. rewrite length_map, length_range. lia.
  - unfold len. rewrite length_downsample_color by exact Hc. lia.
  - unfold _downsample_color.
    destruct (Z.leb_spec rows 0); [lia|]. destruct (Z.leb_spec cols 0); [lia|].
    cbn [orb]. destruct cells.
    + apply Forall_forall. intros row Hrow. apply repeat_spec in Hrow. subst row.
      unfold len. rewrite repeat_length. lia.
    + apply Forall_forall. intros row Hrow. apply in_map_iff in Hrow as (k & <- & _).
      unfold len. rewrite length_map, length_range. lia.
Qed.

Lemma downsample_grid_shape_witness :
  (len (downsample_mask five_lines 3 2) = 2
   /\ Forall (fun row => len row = 3) (downsample_mask five_lines 3 2))
  /\ (len (_downsample_color [row_40] 3 2) = 2
      /\ Forall (fun row => len row = 3) (_downsample_color [row_40] 3 2)).
Proof. apply (downsample_grid_shape five_lines [row_40] 3 2); lia. Defined.

(** *** Monotonicity of the fill *)
Lemma fraction_reaches_mono a a' b t :
  a <= a' -> fraction_reaches a b t = true -> fraction_reaches a' b t = true.
Proof.
  unfold fraction_reaches. intros Hle H.
  apply Qle_bool_iff in H. apply Qle_bool_iff.
  eapply Qle_trans; [exact H|].
  unfold Qdiv. apply Qmult_le_compat_r.
  - rewrite <- Zle_Qle. exact Hle.
  - apply Qinv_le_0_compat. change 0%Q with (inject_Z 0).
    rewrite <- Zle_Qle. lia.
Qed.

Lemma mask_counts_mono a b (reg : list (Z * Z)) :
  covers a b ->
  forall acc acc',
    fst acc <= fst acc' -> snd acc = snd acc' ->
    let step lines :=
      fun (ft : Z * Z) (p : Z * Z) =>
        let line := get lines (fst p) [] in
        let filled := if negb (get line (snd p) 32%N =? 32)%N
                      then fst ft + 1 else fst ft in
        (filled, snd ft + 1) in
    fst (fold_left (step a) reg acc) <= fst (fold_left (step b) reg acc')
    /\ snd (fold_left (step a) reg acc) = snd (fold_left (step b) reg acc').
Proof.
  intros Hcov. induction reg as [|p reg IH]; intros acc acc' H1 H2 step;
    cbn [fold_left]; [now split|].
  apply IH; unfold step; cbv beta zeta; cbn [fst snd]; [|lia].
  specialize (Hcov (fst p) (snd p)). unfold char_of in Hcov.
  repeat match goal with
         | |- context [negb (?x =? 32)%N] => destruct (N.eqb_spec x 32)
         end; cbn [negb]; try lia.
  exfalso. now apply Hcov.
Qed.

Lemma mask_bit_mono a b rs cs :
  covers a b -> mask_bit a rs cs = true -> mask_bit b rs cs = true.
Proof.
  intros Hcov.
  destruct (mask_counts_mono a b (region rs cs) Hcov (0, 0) (0, 0)) as [H1 H2];
    [cbn; lia | reflexivity|].
  cbv beta zeta in H1, H2.
  match type of H1 with
  | fst ?x <= fst ?y =>
      change (mask_bit a rs cs)
        with ((0 <? fst x) && fraction_reaches (fst x) (snd x) FILL_THRESHOLD);
      change (mask_bit b rs cs)
        with ((0 <? fst y) && fraction_reaches (fst y) (snd y) FILL_THRESHOLD);
      set (ca := x) in *; set (cb := y) in *
  end.
  rewrite !andb_true_iff, !Z.ltb_lt. intros [Hpos Hfrac].
  split; [lia|]. rewrite <- H2. eapply fraction_reaches_mono; eassumption.
Qed.

Lemma mask_at_bit lines cols rows r c :
  lines <> [] -> 0 <= r < rows -> 0 <= c < cols ->
  mask_at lines cols rows r c
  = mask_bit lines (span r (len lines) rows) (span c (max_len_of lines) cols).
Proof.
  intros Hne Hr Hc. unfold mask_at, downsample_mask.
  destruct (Z.leb_spec rows 0); [lia|]. destruct (Z.leb_spec cols 0); [lia|].
  cbn [orb]. destruct lines as [|l0 ls]; [congruence|].
  rewrite get_map_range by lia. rewrite get_map_range by lia. reflexivity.
Qed.

Lemma get_in_or_default {A} (l : list A) k d :
  In (get l k d) l \/ get l k d = d.
Proof.
  unfold get. destruct (k <? 0); [now right|].
  destruct (nth_in_or_default (Z.to_nat k) l d); auto.
Qed.

Lemma get_all_false (row : list bool) k :
  Forall (fun x => x = false) row -> get row k false = false.
Proof.
  intros H. destruct (get_in_or_default row k false) as [Hin|E]; [|exact E].
  rewrite Forall_forall in H. now apply H.
Qed.

Lemma mask_at_empty cols rows r c : mask_at [] cols rows r c = false.
Proof.
  unfold mask_at, downsample_mask. destruct (_ || _).
  - unfold get. destruct (r <? 0), (c <? 0); try reflexivity;
      destruct (Z.to_nat r), (Z.to_nat c); reflexivity.
  - apply get_all_false.
    destruct (get_in_or_default
                (repeat (repeat false (Z.to_nat cols)) (Z.to_nat rows)) r [])
      as [Hin| ->]; [|constructor].
    apply repeat_spec in Hin. rewrite Hin.
    apply Forall_forall. intros x Hx. now apply repeat_spec in Hx.
Qed.

(** X19: filling more of the source never empties a mask bit: if every
    place filled in one text is filled in another of the same height and
    width, every bit set in the mask of the first is set in the mask of the
    second. *)
Theorem mask_is_monotone (a b : list str) (cols rows r c : Z) :
  covers a b -> len a = len b -> max_len_of a = max_len_of b ->
  0 <= r < rows -> 0 <= c < cols ->
  mask_at a cols rows r c = true -> mask_at b cols rows r c = true.
Proof.
  intros Hcov Hlen Hmax Hr Hc.
  destruct a as [|a0 al].
  - rewrite mask_at_empty. discriminate.
  - assert (Hb : b <> []) by (intros ->; discriminate).
    rewrite !mask_at_bit by (assumption || discriminate).
    rewrite <- Hlen, <- Hmax. now apply mask_bit_mono.
Qed.

Lemma mask_is_monotone_witness :
  mask_at [[97; 98; 32; 99]%N] 2 1 0 0 = true.
Proof.
  apply (mask_is_monotone [[97; 32; 32; 32]%N] [[97; 98; 32; 99]%N] 2 1 0 0);
    try reflexivity; try lia.
  intros r c. unfold char_of, get.
  destruct (r <? 0); [easy|]. destruct (Z.to_nat r) as [|[|n]];
    cbn [nth]; destruct (c <? 0); try easy;
    destruct (Z.to_nat c) as [|[|[|[|m]]]]; cbn [nth]; try easy;
    destruct m; easy.
Defined.

(** *** The plain path *)
Lemma flat_map_singleton_const {A} (x : N) (l : list A) (f : A -> N) :
  (forall a, In a l -> f a = x) ->
  flat_map (fun a => [f a]) l = repeat x (length l).
Proof.
  induction l as [|a l IH]; intros H; cbn; [reflexivity|].
  rewrite (H a) by now left. f_equal. apply IH. intros b Hb. apply H. now right.
Qed.

Lemma mask_row_all_false mask k cols :
  Forall (Forall (fun x => x = false)) mask ->
  Forall (fun x => x = false) (mask_row mask k cols false).
Proof.
  intros H. unfold mask_row. destruct (k <? len mask).
  - destruct (get_in_or_default mask k []) as [Hin| ->]; [|constructor].
    rewrite Forall_forall in H. now apply H.
  - apply Forall_forall. intros x Hx. now apply repeat_spec in Hx.
Qed.

Lemma assemble_blank mask cols rows :
  Forall (Forall (fun x => x = false)) mask ->
  assemble (fun up lo => [plain_glyph up lo]) false mask cols rows
  = repeat (repeat 32%N (Z.to_nat cols)) (Z.to_nat rows).
Proof.
  intros H. unfold assemble.
  rewrite (map_ext_in _ (fun _ => repeat 32%N (Z.to_nat cols))).
  - rewrite map_const, length_range. f_equal. f_equal. lia.
  - intros r _.
    rewrite (flat_map_singleton_const 32%N).
    + rewrite length_range. f_equal. lia.
    + intros c _.
      rewrite !get_all_false by now apply mask_row_all_false.
      reflexivity.
Qed.

Lemma get_all_spaces (line : str) k :
  Forall (fun ch => ch = 32%N) line -> get line k 32%N = 32%N.
Proof.
  intros H. destruct (get_in_or_default line k 32%N) as [Hin|E]; [|exact E].
  rewrite Forall_forall in H. now apply H.
Qed.

Lemma mask_bit_blank lines rs cs :
  Forall (Forall (fun ch => ch = 32%N)) lines -> mask_bit lines rs cs = false.
Proof.
  intros H. unfold mask_bit.
  assert (Hz : forall reg acc,
             fst acc = 0 ->
             fst (fold_left
                    (fun (ft : Z * Z) (p : Z * Z) =>
                       let line := get lines (fst p) [] in
                       let filled := if negb (get line (snd p) 32%N =? 32)%N
                                     then fst ft + 1 else fst ft in
                       (filled, snd ft + 1)) reg acc) = 0).
  { induction reg as [|p reg IH]; intros acc Hacc; cbn [fold_left]; [exact Hacc|].
    apply IH. cbv beta zeta. cbn [fst].
    rewrite get_all_spaces; [exact Hacc|].
    destruct (get_in_or_default lines (fst p) []) as [Hin| ->]; [|constructor].
    rewrite Forall_forall in H. now apply H. }
  specialize (Hz (region rs cs) (0, 0) eq_refl). cbv beta zeta in Hz.
  match type of Hz with
  | fst ?x = 0 =>
      change ((0 <? fst x) && fraction_reaches (fst x) (snd x) FILL_THRESHOLD
              = false)
  end.
  now rewrite Hz.
Qed.

Lemma downsample_mask_blank lines cols rows :
  Forall (Forall (fun ch => ch = 32%N)) lines ->
  Forall (Forall (fun x => x = false)) (downsample_mask lines cols rows).
Proof.
  intros H. unfold downsample_mask. destruct (_ || _); [constructor|].
  destruct lines as [|l0 ls].
  - apply Forall_forall. intros row Hrow. apply repeat_spec in Hrow. subst row.
    apply Forall_forall. intros x Hx. now apply repeat_spec in Hx.
  - apply Forall_forall. intros row Hrow.
    apply in_map_iff in Hrow as (r & <- & _).
    apply Forall_forall. intros x Hx.
    apply in_map_iff in Hx as (c & <- & _). now apply mask_bit_blank.
Qed.

Lemma find_pair_none_spaces line :
  Forall (fun ch => ch = 32%N) line -> find_pair 27 91 line 0 = None.
Proof.
  induction line as [|x l IH]; intros H; [reflexivity|].
  inversion H as [|? ? Hx Hr]; subst. specialize (IH Hr).
  destruct l as [|y r]; [reflexivity|].
  change (find_pair 27 91 (32%N :: y :: r) 0)
    with (if ((32 =? 27) && (y =? 91))%N then Some 0%nat
          else option_map S (find_pair 27 91 (y :: r) 0)).
  now rewrite IH.
Qed.

Lemma in_firstn {A} n (l : list A) x : In x (firstn n l) -> In x l.
Proof.
  intros H. rewrite <- (firstn_skipn n l). apply in_or_app. now left.
Qed.

(** X20: text made of spaces only (possibly no lines at all) renders as a
    blank card: [rows] lines of [cols] spaces. *)
Theorem render_blank_text
  (U : unicode_db) (lines : list str) (cols rows : Z) (mode : str) :
  0 < cols -> 0 < rows ->
  Forall (Forall (fun ch => ch = 32%N)) lines ->
  render_block_preview U lines cols rows mode
  = Ok (repeat (repeat 32%N (Z.to_nat cols)) (Z.to_nat rows)).
Proof.
  intros Hc Hr H.
  assert (Hansi : has_ansi lines = false).
  { unfold has_ansi. apply not_true_is_false. intros E.
    apply existsb_exists in E as (line & Hin & E).
    rewrite Forall_forall in H.
    now rewrite (find_pair_none_spaces line (H line Hin)) in E. }
  rewrite render_plain by assumption. f_equal.
  apply assemble_blank, downsample_mask_blank.
  apply Forall_forall. intros line Hin.
  rewrite Forall_forall in H. apply H. eapply in_firstn, Hin.
Qed.

Lemma render_blank_text_witness :
  render_block_preview latin1_only [[32; 32; 32]%N; []; [32]%N] 4 2 mode_both
  = Ok (repeat (repeat 32%N (Z.to_nat 4)) (Z.to_nat 2)).
Proof.
  apply (render_blank_text latin1_only [[32; 32; 32]%N; []; [32]%N] 4 2 mode_both);
    try lia.
  repeat constructor.
Defined.

(** X21: text without an escape sequence always renders, to [rows] lines
    of exactly [cols] characters each, every one of them a space or one of
    the three block glyphs. *)
Theorem render_plain_shape
  (U : unicode_db) (lines : list str) (cols rows : Z) (mode : str) :
  0 < cols -> 0 < rows -> has_ansi lines = false ->
  exists out,
    render_block_preview U lines cols rows mode = Ok out
    /\ len out = rows
    /\ Forall (fun line => len line = cols /\ Forall is_block_glyph line) out.
Proof.
  intros Hc Hr Hansi. rewrite render_plain by assumption.
  eexists. split; [reflexivity|]. split.
  - unfold len. rewrite length_assemble. lia.
  - unfold assemble. apply Forall_forall. intros line Hin.
    apply in_map_iff in Hin as (r & <- & _).
    set (upper := mask_row _ (r * 2) cols false).
    set (lower := mask_row _ (r * 2 + 1) cols false).
    assert (Hgen : forall l : list Z,
               length (flat_map (fun c => [plain_glyph (get upper c false)
                                                       (get lower c false)]) l)
               = length l
               /\ Forall is_block_glyph
                    (flat_map (fun c => [plain_glyph (get upper c false)
                                                     (get lower c false)]) l)).
    { induction l as [|c l [IH1 IH2]]; cbn [flat_map app length];
        [split; [reflexivity | constructor]|].
      split; [now rewrite IH1|]. constructor; [|exact IH2].
      unfold plain_glyph, is_block_glyph.
      destruct (get upper c false), (get lower c false); cbn; auto. }
    destruct (Hgen (range 0 cols)) as [H1 H2].
    split; [|exact H2]. unfold len. rewrite H1, length_range. lia.
Qed.

Lemma render_plain_shape_witness :
  exists out,
    render_block_preview latin1_only five_lines 3 2 mode_both = Ok out
    /\ len out = 2
    /\ Forall (fun line => len line = 3 /\ Forall is_block_glyph line) out.
Proof.
  apply (render_plain_shape latin1_only five_lines 3 2 mode_both);
    try lia; reflexivity.
Defined.

(** *** The 256-colour table *)

(** X22: [_ansi_256_color] knows exactly the indices 0 to 255, and every
    colour it returns has its three components between 0 and 255. *)
Theorem ansi_256_color_range (code : Z) :
  (_ansi_256_color code = None <-> code < 0 \/ 255 < code)
  /\ forall c, _ansi_256_color code = Some c -> rgb_ok c.
Proof.
  unfold _ansi_256_color.
  destruct (Z.ltb_spec code 0) as [Hneg|Hnn]; cbn [orb].
  { split; [split; [now left | reflexivity] | discriminate]. }
  destruct (Z.ltb_spec 255 code) as [Hbig|Hle].
  { split; [split; [now right | reflexivity] | discriminate]. }
  destruct (Z.ltb_spec code 16) as [H16|H16].
  { assert (Hcases : code = 0 \/ code = 1 \/ code = 2 \/ code = 3 \/ code = 4
                     \/ code = 5 \/ code = 6 \/ code = 7 \/ code = 8 \/ code = 9
                     \/ code = 10 \/ code = 11 \/ code = 12 \/ code = 13
                     \/ code = 14 \/ code = 15) by lia.
    repeat (destruct Hcases as [->|Hcases]); try subst code;
      (split; [split; [discriminate | lia]|]);
      intros c [= <-]; unfold rgb_ok, component_ok; cbn; lia. }
  destruct (Z.leb_spec code 231) as [H231|H231].
  - split; [split; [discriminate | lia]|].
    intros c [= <-]. unfold rgb_ok, component_ok, level. cbn [fst snd].
    pose proof (Z.mod_pos_bound ((code - 16) / 36) 6 ltac:(lia)).
    pose proof (Z.mod_pos_bound ((code - 16) / 6) 6 ltac:(lia)).
    pose proof (Z.mod_pos_bound (code - 16) 6 ltac:(lia)).
    repeat match goal with
           | |- context [if ?x =? 0 then _ else _] => destruct (Z.eqb_spec x 0)
           end; lia.
  - split; [split; [discriminate | lia]|].
    intros c Hc. cbv zeta in Hc.
    assert (E : c = (8 + (code - 232) * 10, 8 + (code - 232) * 10,
                     8 + (code - 232) * 10)) by congruence.
    rewrite E. unfold rgb_ok, component_ok. cbn [fst snd]. lia.
Qed.

(** *** The cell parser, one piece of a line at a time *)
Lemma scan_shift1 U x l f : forall i st,
  scan_line U f (x :: l) (S i) st = scan_line U f l i st.
Proof.
  induction f as [|f IH]; intros i st; [reflexivity|].
  cbn [scan_line].
  change (length (x :: l) <=? S i)%nat with (length l <=? i)%nat.
  destruct (length l <=? i)%nat; [reflexivity|].
  change (char_at (x :: l) (S i)) with (char_at l i).
  change (S (S i) <? length (x :: l))%nat with (S i <? length l)%nat.
  change (char_at (x :: l) (S (S i))) with (char_at l (S i)).
  change (find_char 7 (x :: l) (S i + 2)) with (option_map S (find_char 7 l (i + 2))).
  change (find_pair 27 92 (x :: l) (S i + 2)) with (option_map S (find_pair 27 92 l (i + 2))).
  change (find_char 109 (x :: l) (S i + 2)) with (option_map S (find_char 109 l (i + 2))).
  destruct ((char_at l i =? 27)%N && ((S i <? length l)%nat && (char_at l (S i) =? 93)%N)).
  { destruct (find_char 7 l (i + 2)) as [eb|], (find_pair 27 92 l (i + 2)) as [es|];
      cbn [option_map]; try reflexivity.
    - change (Nat.min (S eb + 1) (S es + 2)) with (S (Nat.min (eb + 1) (es + 2))). apply IH.
    - apply (IH (eb + 1)%nat).
    - apply (IH (es + 2)%nat). }
  destruct ((char_at l i =? 27)%N && ((S i <? length l)%nat && (char_at l (S i) =? 91)%N)).
  { destruct (find_char 109 l (i + 2)) as [e|]; cbn [option_map]; [|apply IH].
    change (slice (x :: l) (S i + 2) (S e)) with (slice l (i + 2) e).
    destruct (sgr_parts (slice l (i + 2) e)) as [|p ps]; [apply IH|].
    destruct (sgr_loop U _ _ _ _ _) as [[fg bg]|]; [apply IH | reflexivity]. }
  destruct (char_at l i =? 9)%N; [apply IH|].
  destruct (char_at l i =? 13)%N; [apply IH|].
  destruct (_char_width U (char_at l i) =? 0); [apply IH|].
  destruct (_char_width U (char_at l i) =? 2); apply IH.
Qed.
Lemma find_char_ge c l : forall s e, find_char c l s = Some e -> (s <= e)%nat.
Proof.
  induction l as [|x l IH]; intros [|s] e; cbn [find_char]; try discriminate.
  - intros _. lia.
  - destruct (find_char c l s) as [e'|] eqn:E; [|discriminate].
    intros [= <-]. apply IH in E. lia.
Qed.

Lemma find_pair_ge a b l : forall s e, find_pair a b l s = Some e -> (s <= e)%nat.
Proof.
  induction l as [|x l IH]; intros [|s] e; cbn [find_pair]; try discriminate.
  - intros _. lia.
  - destruct (find_pair a b l s) as [e'|] eqn:E; [|discriminate].
    intros [= <-]. apply IH in E. lia.
Qed.

Lemma scan_fuel U l f : forall i st,
  (length l - i <= f)%nat -> scan_line U f l i st = scan_line U (S f) l i st.
Proof.
  induction f as [|f IH]; intros i st Hf.
  - cbn [scan_line]. destruct (Nat.leb_spec (length l) i); [reflexivity | lia].
  - remember (S f) as f1 eqn:Ef1.
    rewrite Ef1 at 1. cbn [scan_line]. 
    destruct (Nat.leb_spec (length l) i) as [Hle|Hlt]; [reflexivity|].
    assert (Hrec : forall j st', (i < j)%nat -> scan_line U f l j st' = scan_line U f1 l j st').
    { intros j st' Hj. subst f1. apply IH. lia. }
    destruct ((char_at l i =? 27)%N && ((S i <? length l)%nat && (char_at l (S i) =? 93)%N)).
    { destruct (find_char 7 l (i + 2)) as [eb|] eqn:Eb, (find_pair 27 92 l (i + 2)) as [es|] eqn:Es;
        try reflexivity;
        try (apply find_char_ge in Eb); try (apply find_pair_ge in Es); apply Hrec; lia. }
    destruct ((char_at l i =? 27)%N && ((S i <? length l)%nat && (char_at l (S i) =? 91)%N)).
    { destruct (find_char 109 l (i + 2)) as [e|] eqn:Ee; [|apply Hrec; lia].
      apply find_char_ge in Ee.
      destruct (sgr_parts (slice l (i + 2) e)) as [|p ps]; [apply Hrec; lia|].
      destruct (sgr_loop U _ _ _ _ _) as [[fg bg]|]; [apply Hrec; lia | reflexivity]. }
    destruct (char_at l i =? 9)%N; [apply Hrec; lia|].
    destruct (char_at l i =? 13)%N; [apply Hrec; lia|].
    destruct (_char_width U (char_at l i) =? 0); [apply Hrec; lia|].
    destruct (_char_width U (char_at l i) =? 2); apply Hrec; lia.
Qed.

Lemma scan_enough U l : forall k i st,
  scan_line U ((length l - i) + k) l i st = scan_line U (length l - i) l i st.
Proof.
  induction k as [|k IH]; intros i st.
  - now rewrite Nat.add_0_r.
  - rewrite Nat.add_succ_r, <- scan_fuel by lia. apply IH.
Qed.

Lemma scan_prefix U pre l f : forall i st,
  scan_line U f (pre ++ l) (length pre + i) st = scan_line U f l i st.
Proof.
  induction pre as [|x pre IH]; intros i st; [reflexivity|].
  cbn [app length Nat.add]. rewrite scan_shift1. apply IH.
Qed.

Lemma scan_skip U pre l f st :
  (length l <= f)%nat ->
  scan_line U f (pre ++ l) (length pre) st = scan_from U st l.
Proof.
  intros Hf. rewrite <- (Nat.add_0_r (length pre)), scan_prefix.
  unfold scan_from. replace f with ((length l - 0) + (f - length l))%nat by lia.
  rewrite scan_enough. now rewrite Nat.sub_0_r.
Qed.

Lemma scan_from_narrow U st c l :
  narrow U c ->
  scan_from U st (c :: l)
  = scan_from U (mkScan (sc_fg st) (sc_bg st) (sc_col st + 1)
                        (sc_cur st ++ [([c], sc_fg st, sc_bg st)])) l.
Proof.
  intros (H27 & H9 & H13 & Hw & Hp). unfold scan_from.
  cbn [length scan_line Nat.leb]. change (char_at (c :: l) 0) with c.
  apply N.eqb_neq in H27, H9, H13. rewrite H27, H9, H13, Hw, Hp.
  cbn [andb]. change (1 =? 0) with false. change (1 =? 2) with false.
  cbv iota. apply scan_shift1.
Qed.

Lemma scan_from_tab U st l :
  scan_from U st (9%N :: l)
  = scan_from U (mkScan (sc_fg st) (sc_bg st)
                        (sc_col st + (8 - sc_col st mod 8))
                        (sc_cur st
                         ++ repeat ([32%N], sc_fg st, sc_bg st)
                                   (Z.to_nat (8 - sc_col st mod 8)))) l.
Proof.
  unfold scan_from.
  cbn [length scan_line Nat.leb]. change (char_at (9%N :: l) 0) with 9%N.
  change ((9 =? 27)%N) with false. change ((9 =? 9)%N) with true.
  cbn [andb]. cbv iota. apply scan_shift1.
Qed.

Lemma find_char_here c pre l :
  ~ In c pre -> find_char c (pre ++ c :: l) 0 = Some (length pre).
Proof.
  induction pre as [|x pre IH]; intros H; cbn [app find_char length].
  - now rewrite N.eqb_refl.
  - destruct (N.eqb_spec x c) as [->|_]; [exfalso; apply H; now left|].
    rewrite IH; [reflexivity|]. intros Hin. apply H. now right.
Qed.

Lemma firstn_exact {A} (a b : list A) : firstn (length a) (a ++ b) = a.
Proof.
  rewrite firstn_app, Nat.sub_diag, firstn_all. cbn. apply app_nil_r.
Qed.

Lemma scan_from_sgr U st params l :
  ~ In 109%N params ->
  scan_from U st (27%N :: 91%N :: params ++ 109%N :: l)
  = match sgr_parts params with
    | [] => scan_from U (mkScan None None (sc_col st) (sc_cur st)) l
    | p :: ps =>
        match sgr_loop U (length (p :: ps)) (p :: ps) 0 (sc_fg st) (sc_bg st) with
        | Raise x => Raise x
        | Ok (fg, bg) => scan_from U (mkScan fg bg (sc_col st) (sc_cur st)) l
        end
    end.
Proof.
  intros Hm. unfold scan_from at 1.
  set (line := 27%N :: 91%N :: params ++ 109%N :: l).
  assert (Hlen : length line = S (S (length params + S (length l)))).
  { unfold line. cbn [length]. now rewrite length_app. }
  rewrite Hlen.
  remember (S (length params + S (length l))) as f eqn:Ef.
  cbn [scan_line]. rewrite Hlen. cbn [Nat.leb].
  change (char_at line 0) with 27%N. change (char_at line 1) with 91%N.
  change ((27 =? 27)%N) with true. change ((91 =? 93)%N) with false.
  change ((91 =? 91)%N) with true. rewrite andb_false_r.
  assert (H1 : (1 <? S f)%nat = true) by (apply Nat.ltb_lt; lia).
  rewrite H1. cbn [andb]. cbv iota.
  change (find_char 109 line (0 + 2))
    with (option_map S (option_map S (find_char 109 (params ++ 109%N :: l) 0))).
  rewrite find_char_here by exact Hm. cbn [option_map].
  change (slice line (0 + 2) (S (S (length params))))
    with (firstn (length params - 0) (params ++ 109%N :: l)).
  rewrite Nat.sub_0_r, firstn_exact.
  assert (Hskip : forall st',
    scan_line U f line (S (S (S (length params)))) st' = scan_from U st' l).
  { intros st'.
    replace line with ((27%N :: 91%N :: params ++ [109%N]) ++ l)
      by (unfold line; cbn [app]; now rewrite <- app_assoc).
    replace (S (S (S (length params))))
      with (length (27%N :: 91%N :: params ++ [109%N]))
      by (cbn [length]; rewrite length_app; cbn; lia).
    apply scan_skip. lia. }
  destruct (sgr_parts params) as [|p ps]; [apply Hskip|].
  destruct (sgr_loop U _ _ _ _ _) as [[fg bg]|]; [apply Hskip | reflexivity].
Qed.


(** Numerals as [str] writes an integer: digits, with a minus sign in front
    of a negative one. *)
Lemma str_of_Z_chars z :
  str_of_Z z <> []
  /\ Forall (fun c => (45 <= c <= 57)%N /\ c <> 46%N /\ c <> 47%N) (str_of_Z z).
Proof.
  assert (Hd : forall n, Forall (fun c => (45 <= c <= 57)%N /\ c <> 46%N /\ c <> 47%N)
                                (str_of_N n)).
  { intros n. destruct (str_of_N_spec n) as (_ & Hds & _).
    revert Hds. apply Forall_impl. unfold is_digit. intros; lia. }
  unfold str_of_Z. destruct (z <? 0).
  - split; [discriminate|]. constructor; [lia | apply Hd].
  - split; [apply str_of_N_spec | apply Hd].
Qed.

Lemma strip_id sp s : (forall c, In c s -> sp c = false) -> strip sp s = s.
Proof.
  intros H. unfold strip.
  assert (L : forall t, (forall c, In c t -> sp c = false) -> lstrip sp t = t).
  { intros [|c t] Ht; [reflexivity|]. apply lstrip_head, Ht. now left. }
  rewrite (L s H), L; [apply rev_involutive|].
  intros c Hc. apply H. now apply in_rev.
Qed.

Lemma int_ascii_str_of_Z z : int_ascii (str_of_Z z) = Ok z.
Proof.
  unfold str_of_Z. destruct (Z.ltb_spec z 0) as [Hneg|Hpos].
  - destruct (str_of_N_spec (Z.to_N (- z))) as (Hne & Hds & Hval).
    unfold int_ascii. rewrite strip_id.
    + cbn [int_signed]. change ((45 =? 43)%N) with false.
      change ((45 =? 45)%N) with true. cbv iota. rewrite Hval. cbn [option_map].
      f_equal. lia.
    + intros c [<-|Hc]; [reflexivity|].
      rewrite Forall_forall in Hds. now apply digit_not_space, Hds.
  - rewrite int_ascii_str_of_N. f_equal. lia.
Qed.

Lemma try_int_str_of_Z U z : try_int U (str_of_Z z) = Some z.
Proof.
  unfold try_int, py_int.
  replace (to_ascii_literal U (str_of_Z z)) with (str_of_Z z).
  - now rewrite int_ascii_str_of_Z.
  - unfold to_ascii_literal. symmetry.
    rewrite <- (map_id (str_of_Z z)) at 2. apply map_ext_in.
    intros c Hc. destruct (str_of_Z_chars z) as [_ H].
    rewrite Forall_forall in H. specialize (H c Hc).
    destruct (N.ltb_spec c 127); [reflexivity | lia].
Qed.

Lemma numeral_no c s :
  (58 <= c)%N ->
  Forall (fun x => (45 <= x <= 57)%N /\ x <> 46%N /\ x <> 47%N) s ->
  Forall (fun x => x <> c) s.
Proof. intros Hc. apply Forall_impl. intros; lia. Qed.

Lemma sgr_parts_five a b c d e :
  let ok s := s <> [] /\ Forall (fun x => (45 <= x <= 57)%N /\ x <> 46%N /\ x <> 47%N) s in
  ok a -> ok b -> ok c -> ok d -> ok e ->
  sgr_parts (a ++ 59%N :: b ++ 59%N :: c ++ 59%N :: d ++ 59%N :: e)
  = [a; b; c; d; e].
Proof.
  intros ok [Na Ha] [Nb Hb] [Nc Hc] [Nd Hd] [Ne He]. unfold sgr_parts.
  rewrite !split_app_sep, (split_no_sep 59) by (apply numeral_no; [lia | assumption]).
  assert (Hne : forall s, s <> [] -> nonempty s = true)
    by (intros [|? ?] ?; [congruence | reflexivity]).
  cbn [filter]. rewrite !Hne by assumption.
  cbn [flat_map].
  rewrite !(split_no_sep 58) by (apply numeral_no; [lia | assumption]).
  cbn [filter]. rewrite !Hne by assumption. reflexivity.
Qed.

Lemma truecolor_shape kind c :
  exists params,
    truecolor kind c = 27%N :: 91%N :: params ++ [109%N]
    /\ ~ In 109%N params
    /\ sgr_parts params
       = [str_of_N kind; [50%N]; str_of_Z (fst (fst c)); str_of_Z (snd (fst c));
          str_of_Z (snd c)].
Proof.
  destruct c as [[r g] b]. cbn [fst snd].
  exists (str_of_N kind ++ 59%N :: [50%N] ++ 59%N :: str_of_Z r ++ 59%N
          :: str_of_Z g ++ 59%N :: str_of_Z b).
  assert (Hk : str_of_N kind <> []
               /\ Forall (fun x => (45 <= x <= 57)%N /\ x <> 46%N /\ x <> 47%N)
                         (str_of_N kind)).
  { destruct (str_of_N_spec kind) as (Hne & Hds & _). split; [exact Hne|].
    revert Hds. apply Forall_impl. unfold is_digit. intros; lia. }
  assert (H2 : [50%N] <> []
               /\ Forall (fun x => (45 <= x <= 57)%N /\ x <> 46%N /\ x <> 47%N)
                         [50%N]).
  { split; [discriminate|]. repeat constructor; lia. }
  split; [|split].
  - unfold truecolor.
    repeat (progress (rewrite <- ?app_assoc; cbn [app])). reflexivity.
  - intros Hin.
    assert (Hall : Forall (fun x => x <> 109%N)
              (str_of_N kind ++ 59%N :: [50%N] ++ 59%N :: str_of_Z r ++ 59%N
               :: str_of_Z g ++ 59%N :: str_of_Z b)).
    { assert (Hz : forall z, Forall (fun x => x <> 109%N) (str_of_Z z))
        by (intros z; apply (numeral_no 109); [lia | apply str_of_Z_chars]).
      apply Forall_app. split; [apply (numeral_no 109); [lia | apply Hk]|].
      cbn [app]. constructor; [lia|]. constructor; [lia|]. constructor; [lia|].
      apply Forall_app. split; [apply Hz|]. constructor; [lia|].
      apply Forall_app. split; [apply Hz|]. constructor; [lia|]. apply Hz. }
    rewrite Forall_forall in Hall. now apply (Hall _ Hin).
  - apply sgr_parts_five; try assumption; apply str_of_Z_chars.
Qed.

Lemma printable_narrow U c : printable c -> narrow U c.
Proof.
  unfold printable, narrow. intros H.
  split; [lia|]. split; [lia|]. split; [lia|].
  unfold _char_width, combining, powerline, east_asian_wide, _is_private_use.
  destruct (N.eqb_spec c 9); [lia|].
  destruct (N.ltb_spec c 256); [|lia].
  destruct (N.leb_spec 57344 c); [lia|].
  destruct (N.leb_spec 983040 c); [lia|].
  destruct (N.leb_spec 1048576 c); [lia|].
  destruct (N.ltb_spec c 32); [lia|].
  destruct (N.eqb_spec c 127); [lia|]. now split.
Qed.

(** A run of narrow characters becomes one cell each, in the colours of the
    state, and moves the column by its length. *)
Lemma scan_from_text U a : forall st rest,
  Forall (narrow U) a ->
  scan_from U st (a ++ rest)
  = scan_from U (mkScan (sc_fg st) (sc_bg st) (sc_col st + len a)
                   (sc_cur st ++ map (fun c => ([c], sc_fg st, sc_bg st)) a))
                rest.
Proof.
  induction a as [|c a IH]; intros st rest Ha.
  - cbn [app map]. unfold len. cbn [length]. rewrite Z.add_0_r, app_nil_r.
    now destruct st.
  - inversion Ha as [|? ? Hc Ha']; subst. cbn [app].
    rewrite scan_from_narrow by exact Hc. rewrite IH by exact Ha'.
    cbn [sc_fg sc_bg sc_col sc_cur map]. f_equal. f_equal.
    + unfold len. cbn [length]. lia.
    + now rewrite <- app_assoc.
Qed.

Lemma scan_from_nil U st : scan_from U st [] = Ok st.
Proof. reflexivity. Qed.

(** X23: a line of printable ASCII text parses to one cell for each
    character, in order, none of them coloured. *)
Theorem parse_plain_text (U : unicode_db) (line : str) :
  Forall printable line ->
  parse_ansi_line U line = Ok (map (fun c => ([c], None, None)) line).
Proof.
  intros H. unfold parse_ansi_line.
  fold (scan_from U (mkScan None None 0 []) line).
  rewrite <- (app_nil_r line) at 1.
  rewrite scan_from_text, scan_from_nil.
  - reflexivity.
  - revert H. apply Forall_impl. intros c. apply printable_narrow.
Qed.

Lemma parse_plain_text_witness :
  parse_ansi_line latin1_only [108; 115; 32; 45; 108]%N
  = Ok (map (fun c => ([c], None, None)) [108; 115; 32; 45; 108]%N).
Proof.
  apply (parse_plain_text latin1_only [108; 115; 32; 45; 108]%N).
  repeat constructor; unfold printable; lia.
Defined.

(** X24: a tab pads the line with spaces up to the next multiple of 8
    columns: after [n] printable characters it adds [8 - n mod 8] space
    cells, and the text after it goes on from there. *)
Theorem parse_expands_tabs (U : unicode_db) (a b : str) :
  Forall printable a -> Forall printable b ->
  parse_ansi_line U (a ++ 9%N :: b)
  = Ok (map (fun c => ([c], None, None)) a
        ++ repeat ([32%N], None, None) (Z.to_nat (8 - len a mod 8))
        ++ map (fun c => ([c], None, None)) b).
Proof.
  intros Ha Hb. unfold parse_ansi_line.
  fold (scan_from U (mkScan None None 0 []) (a ++ 9%N :: b)).
  rewrite scan_from_text
    by (revert Ha; apply Forall_impl; intros c; apply printable_narrow).
  rewrite scan_from_tab. cbn [sc_fg sc_bg sc_col sc_cur].
  rewrite <- (app_nil_r b) at 1.
  rewrite scan_from_text
    by (revert Hb; apply Forall_impl; intros c; apply printable_narrow).
  rewrite scan_from_nil. cbn [bind sc_fg sc_bg sc_col sc_cur app].
  now rewrite <- app_assoc.
Qed.

Lemma parse_expands_tabs_witness :
  parse_ansi_line latin1_only ([97; 98; 99]%N ++ 9%N :: [100]%N)
  = Ok (map (fun c => ([c], None, None)) [97; 98; 99]%N
        ++ repeat ([32%N], None, None) (Z.to_nat (8 - len [97; 98; 99]%N mod 8))
        ++ map (fun c => ([c], None, None)) [100]%N).
Proof.
  apply (parse_expands_tabs latin1_only [97; 98; 99]%N [100]%N);
    repeat constructor; unfold printable; lia.
Defined.

(** *** What the renderer writes, read back *)
Lemma scan_from_reset U st rest :
  scan_from U st (RESET ++ rest)
  = scan_from U (mkScan None None (sc_col st) (sc_cur st)) rest.
Proof.
  change (RESET ++ rest) with (27%N :: 91%N :: [48%N] ++ 109%N :: rest).
  rewrite scan_from_sgr.
  - reflexivity.
  - intros [H|[]]. discriminate.
Qed.

Lemma sgr_loop_truecolor U p r g b fg bg :
  p = [51%N; 56%N] \/ p = [52%N; 56%N] ->
  sgr_loop U 5 [p; [50%N]; str_of_Z r; str_of_Z g; str_of_Z b] 0 fg bg
  = Ok (if str_eqb p [51%N; 56%N] then (Some (r, g, b), bg)
        else (fg, Some (r, g, b))).
Proof.
  intros Hp.
  pose proof (try_int_str_of_Z U r) as Hr.
  pose proof (try_int_str_of_Z U g) as Hg.
  pose proof (try_int_str_of_Z U b) as Hb.
  revert Hr Hg Hb.
  generalize (str_of_Z r) as R, (str_of_Z g) as G, (str_of_Z b) as B.
  intros R G B Hr Hg Hb.
  change 5%nat with (S 4). remember 4%nat as f eqn:Ef.
  cbn [sgr_loop length Nat.leb part_at nth].
  assert (Hext : forall old,
    extended_color U [p; [50%N]; R; G; B] 0 old = Some (Some (r, g, b), 4%nat)).
  { intros old. unfold extended_color.
    cbn [length Nat.ltb Nat.leb part_at nth Nat.add].
    change (str_eqb [50%N] [50%N]) with true. cbn [andb].
    now rewrite Hr, Hg, Hb. }
  destruct Hp as [-> | ->].
  - change (str_eqb [51; 56]%N [48%N]) with false.
    change (str_eqb [51; 56]%N [51; 57]%N) with false.
    change (str_eqb [51; 56]%N [52; 57]%N) with false.
    change (str_eqb [51; 56]%N [51; 56]%N) with true. cbv iota.
    rewrite Hext. subst f. reflexivity.
  - change (str_eqb [52; 56]%N [48%N]) with false.
    change (str_eqb [52; 56]%N [51; 57]%N) with false.
    change (str_eqb [52; 56]%N [52; 57]%N) with false.
    change (str_eqb [52; 56]%N [51; 56]%N) with false.
    change (str_eqb [52; 56]%N [52; 56]%N) with true. cbv iota.
    rewrite Hext. subst f. reflexivity.
Qed.

Lemma scan_from_truecolor U st kind c rest :
  kind = 38%N \/ kind = 48%N ->
  scan_from U st (truecolor kind c ++ rest)
  = scan_from U (if (kind =? 38)%N
                 then mkScan (Some c) (sc_bg st) (sc_col st) (sc_cur st)
                 else mkScan (sc_fg st) (Some c) (sc_col st) (sc_cur st)) rest.
Proof.
  intros Hk. destruct (truecolor_shape kind c) as (params & Et & Hm & Hparts).
  rewrite Et. cbn [app]. rewrite <- app_assoc. cbn [app].
  rewrite scan_from_sgr by exact Hm. rewrite Hparts.
  destruct c as [[r g] b]. cbn [fst snd length].
  destruct Hk as [-> | ->].
  - change (str_of_N 38) with [51%N; 56%N].
    rewrite sgr_loop_truecolor by now left. reflexivity.
  - change (str_of_N 48) with [52%N; 56%N].
    rewrite sgr_loop_truecolor by now right. reflexivity.
Qed.

Lemma scan_from_truecolor_fg U st c rest :
  scan_from U st (truecolor 38 c ++ rest)
  = scan_from U (mkScan (Some c) (sc_bg st) (sc_col st) (sc_cur st)) rest.
Proof. now rewrite scan_from_truecolor by now left. Qed.

Lemma scan_from_truecolor_bg U st c rest :
  scan_from U st (truecolor 48 c ++ rest)
  = scan_from U (mkScan (sc_fg st) (Some c) (sc_col st) (sc_cur st)) rest.
Proof. now rewrite scan_from_truecolor by now right. Qed.

Lemma truecolor_nonempty kind c rest : truecolor kind c ++ rest <> [].
Proof. destruct c as [[r g] b]. discriminate. Qed.

Lemma color_glyph_narrow U up lo :
  blocks_narrow U -> narrow U (fst (color_glyph up lo)).
Proof.
  intros (Hu & Hl & Hf).
  destruct up as [[u upf] upb], lo as [[l lof] lob]. unfold color_glyph.
  destruct u, l; cbn [andb fst]; try assumption.
  apply printable_narrow. unfold printable. lia.
Qed.

Lemma scan_colored U col cur ch fgo bgo rest :
  narrow U ch ->
  let seq := (match fgo with Some c => truecolor 38 c | None => [] end)
             ++ (match bgo with Some c => truecolor 48 c | None => [] end) in
  scan_from U (mkScan None None col cur)
    (match seq with
     | [] => RESET ++ [ch]
     | _ :: _ => seq ++ [ch] ++ RESET
     end ++ rest)
  = scan_from U (mkScan None None (col + 1) (cur ++ [([ch], fgo, bgo)])) rest.
Proof.
  intros Hn seq. subst seq.
  assert (Hclose : forall f b,
    scan_from U (mkScan f b col cur) ([ch] ++ RESET ++ rest)
    = scan_from U (mkScan None None (col + 1) (cur ++ [([ch], f, b)])) rest).
  { intros f b. cbn [app]. rewrite scan_from_narrow by exact Hn.
    cbn [sc_fg sc_bg sc_col sc_cur].
    change (27%N :: 91%N :: 48%N :: 109%N :: rest) with (RESET ++ rest).
    now rewrite scan_from_reset. }
  destruct fgo as [f|], bgo as [b|].
  - rewrite nonempty_match by apply truecolor_nonempty.
    rewrite <- !app_assoc.
    rewrite scan_from_truecolor_fg, scan_from_truecolor_bg.
    apply Hclose.
  - rewrite nonempty_match by apply truecolor_nonempty.
    rewrite <- !app_assoc.
    rewrite scan_from_truecolor_fg. apply Hclose.
  - change ([] ++ truecolor 48 b) with (truecolor 48 b).
    rewrite nonempty_match
      by (intros E; apply (truecolor_nonempty 48 b []); now rewrite app_nil_r).
    rewrite <- !app_assoc.
    rewrite scan_from_truecolor_bg. apply Hclose.
  - change (@nil N ++ []) with (@nil N). cbv iota.
    rewrite <- app_assoc, scan_from_reset. cbn [app sc_col sc_cur].
    now rewrite scan_from_narrow by exact Hn.
Qed.

(** One rendered cell, read from a state without colours: the cell shown,
    and no colour is left behind. *)
Lemma scan_emit_cell U mode up lo col cur rest :
  blocks_narrow U ->
  scan_from U (mkScan None None col cur) (emit_cell mode up lo ++ rest)
  = scan_from U (mkScan None None (col + 1) (cur ++ [shown_cell mode up lo]))
                rest.
Proof.
  intros HU. pose proof (color_glyph_narrow U up lo HU) as Hn.
  unfold emit_cell, shown_cell.
  destruct (color_glyph up lo) as [ch [fg bg]]. cbn [fst] in Hn.
  destruct mode, fg as [f|], bg as [b|];
    first [ exact (scan_colored U col cur ch None None rest Hn)
          | exact (scan_colored U col cur ch (Some f) None rest Hn)
          | exact (scan_colored U col cur ch None (Some b) rest Hn)
          | exact (scan_colored U col cur ch (Some f) (Some b) rest Hn) ].
Qed.

Lemma scan_rendered_line U mode pairs : forall col cur,
  blocks_narrow U ->
  scan_from U (mkScan None None col cur) (rendered_line mode pairs)
  = Ok (mkScan None None (col + len pairs)
          (cur ++ map (fun ul => shown_cell mode (fst ul) (snd ul)) pairs)).
Proof.
  induction pairs as [|[up lo] pairs IH]; intros col cur HU.
  - unfold len. cbn. now rewrite Z.add_0_r, app_nil_r.
  - unfold rendered_line. cbn [flat_map fst snd].
    fold (rendered_line mode pairs).
    rewrite scan_emit_cell by exact HU. rewrite IH by exact HU.
    f_equal. f_equal.
    + unfold len. cbn [length]. lia.
    + cbn [map fst snd]. now rewrite <- app_assoc.
Qed.

(** X25: what the coloured renderer writes can be read back: every output
    line of [render_block_preview] is the rendered line of the block pairs
    of its row, and a rendered line parses, by the parser of the same
    module, to one cell for each pair, with the glyph of the pair and the
    colours the colour mode lets through. *)
Theorem rendered_line_parses_back
  (U : unicode_db) (mode : ColorMode) (mask : list (list block))
  (cols rows : Z) (pairs : list (block * block)) :
  blocks_narrow U ->
  assemble (emit_cell mode) empty_block mask cols rows
  = map (fun r => rendered_line mode (row_pairs mask cols r)) (range 0 rows)
  /\ parse_ansi_line U (rendered_line mode pairs)
     = Ok (map (fun ul => shown_cell mode (fst ul) (snd ul)) pairs).
Proof.
  intros HU. split.
  - unfold assemble, rendered_line, row_pairs. apply map_ext. intros r.
    generalize (range 0 cols) as l. intros l.
    induction l as [|c l IH]; cbn [flat_map map fst snd]; [reflexivity|].
    now rewrite IH.
  - unfold parse_ansi_line.
    fold (scan_from U (mkScan None None 0 []) (rendered_line mode pairs)).
    now rewrite scan_rendered_line by exact HU.
Qed.

Lemma rendered_line_parses_back_witness :
  assemble (emit_cell ModeBoth) empty_block [[(true, Some red, Some blue)]] 1 1
  = map (fun r => rendered_line ModeBoth
                    (row_pairs [[(true, Some red, Some blue)]] 1 r))
        (range 0 1)
  /\ parse_ansi_line latin1_only
       (rendered_line ModeBoth
          [((true, Some red, Some blue), empty_block);
           (empty_block, (true, None, Some blue))])
     = Ok (map (fun ul => shown_cell ModeBoth (fst ul) (snd ul))
             [((true, Some red, Some blue), empty_block);
              (empty_block, (true, None, Some blue))]).
Proof.
  apply (rendered_line_parses_back latin1_only ModeBoth
           [[(true, Some red, Some blue)]] 1 1).
  repeat split; try discriminate; reflexivity.
Defined.

End PreviewMore.

(** ** Titles and the layout of the cards *)
Module LayoutMore.
Import Py Switcher Preview Layout Samples Notions MoreNotions.
Import PyFacts LayoutFacts CycleFacts RenderFacts PreviewMore.

Lemma len_app {A} (a b : list A) : len (a ++ b) = len a + len b.
Proof. unfold len. rewrite length_app. lia. Qed.

Lemma len_spaces n : len (spaces n) = Z.max 0 n.
Proof. unfold len, spaces. rewrite repeat_length. lia. Qed.

Lemma len_prefix text n : 0 <= n -> len (prefix text n) = Z.min n (len text).
Proof. intros H. unfold len, prefix. rewrite length_firstn. lia. Qed.

Lemma len_nonneg {A} (l : list A) : 0 <= len l.
Proof. unfold len. lia. Qed.

Lemma truncate_len text max_len ell :
  len (_truncate text max_len ell) = Z.min (len text) (Z.max max_len 0).
Proof.
  unfold _truncate. pose proof (len_nonneg text) as Ht.
  destruct (Z.leb_spec max_len 0); [cbn; lia|].
  destruct (Z.leb_spec (len text) max_len); [lia|].
  destruct (Z.leb_spec max_len 3); [rewrite len_prefix; lia|].
  set (e := match ell with Some e => e | None => _ end).
  pose proof (len_nonneg e) as He.
  destruct (Z.leb_spec max_len (len e)); [rewrite len_prefix; lia|].
  rewrite len_app, len_prefix; lia.
Qed.

(** X26: [_truncate] returns at most [max_len] characters, and exactly
    [max_len] of them when the text is longer; a text that fits comes back
    unchanged, and what comes back always starts with a prefix of the
    text. *)
Theorem truncate_fits (text : str) (max_len : Z) (ell : option str) :
  len (_truncate text max_len ell) = Z.min (len text) (Z.max max_len 0)
  /\ (len text <= max_len -> _truncate text max_len ell = text)
  /\ exists k tail,
       _truncate text max_len ell = firstn k text ++ tail
       /\ (tail = [] \/ Some tail = ell \/ (ell = None /\ tail = [46; 46; 46]%N)).
Proof.
  split; [apply truncate_len|]. split.
  - intros Hfit. unfold _truncate.
    destruct (Z.leb_spec max_len 0) as [H0|H0].
    + pose proof (len_nonneg text). destruct text; [reflexivity|].
      unfold len in *. cbn [length] in *. lia.
    + destruct (Z.leb_spec (len text) max_len); [reflexivity | lia].
  - unfold _truncate, prefix.
    destruct (max_len <=? 0).
    { exists 0%nat, []. split; [reflexivity | now left]. }
    destruct (len text <=? max_len).
    { exists (length text), []. split; [|now left].
      now rewrite firstn_all, app_nil_r. }
    destruct (max_len <=? 3).
    { eexists _, []. split; [now rewrite app_nil_r | now left]. }
    destruct ell as [e|].
    + destruct (max_len <=? len e).
      * eexists _, []. split; [now rewrite app_nil_r | now left].
      * eexists _, e. split; [reflexivity | right; now left].
    + destruct (max_len <=? len [46; 46; 46]%N).
      * eexists _, []. split; [now rewrite app_nil_r | now left].
      * eexists _, _. split; [reflexivity | right; right; now split].
Qed.

Lemma len_ljust s w : len (ljust s w) = Z.max (len s) w.
Proof. unfold ljust. rewrite len_app, len_spaces. lia. Qed.

Lemma len_rjust s w : len (rjust s w) = Z.max (len s) w.
Proof. unfold rjust. rewrite len_app, len_spaces. lia. Qed.

Lemma len_center s w : len (center s w) = Z.max (len s) w.
Proof.
  unfold center. destruct (Z.leb_spec w (len s)); [lia|].
  set (marg := w - len s).
  assert (Hbit : 0 <= Z.land (Z.land marg w) 1 <= 1).
  { assert (E : Z.land (Z.land marg w) 1 = Z.land marg w mod 2)
      by (apply (Z.land_ones _ 1); lia).
    rewrite E. pose proof (Z.mod_pos_bound (Z.land marg w) 2 ltac:(lia)). lia. }
  assert (Hhalf : 0 <= marg / 2 /\ (marg = 1 -> marg / 2 = 0)
                  /\ (2 <= marg -> marg / 2 + 1 <= marg)).
  { split; [apply Z.div_pos; lia|]. split.
    - intros ->. reflexivity.
    - intros H2. pose proof (Z.div_lt_upper_bound marg 2 marg ltac:(lia) ltac:(lia)).
      lia. }
  rewrite !len_app, !len_spaces.
  destruct (Z.eq_dec marg 1) as [E|E]; [|lia].
  destruct Hhalf as (_ & H1 & _). rewrite (H1 E). lia.
Qed.

(** X27: for a positive width the formatted title is exactly
    [max(width, 2 * pad)] characters long, [pad] being the title padding of
    the theme (0 when negative), whatever the alignment and the wrap mode:
    it fills the width asked for exactly when the two paddings fit in
    it; for a width of 0 or less it is empty. *)
Theorem format_title_length (theme : Theme) (text : str) (width : Z) :
  (0 < width ->
   len (_format_title theme text width)
   = Z.max width (2 * Z.max 0 (title_padding theme)))
  /\ (width <= 0 -> _format_title theme text width = []).
Proof.
  unfold _format_title. split.
  - intros Hw. destruct (Z.leb_spec width 0); [lia|]. cbv zeta.
    set (pad := Z.max 0 (title_padding theme)).
    set (inner := Z.max 0 (width - pad * 2)).
    set (content := if str_eqb (wrap_title theme) s_clip then _ else _).
    assert (Hc : 0 <= len content <= inner).
    { unfold content. destruct (str_eqb _ _).
      - rewrite len_prefix by (unfold inner; lia).
        pose proof (len_nonneg text). unfold inner. lia.
      - rewrite truncate_len. pose proof (len_nonneg text). unfold inner. lia. }
    rewrite !len_app, !len_spaces.
    destruct (str_eqb (title_align theme) s_center);
      [rewrite len_center|destruct (str_eqb (title_align theme) s_right);
                           [rewrite len_rjust | rewrite len_ljust]];
      unfold inner, pad in *; lia.
  - intros Hw. destruct (Z.leb_spec width 0); [reflexivity | lia].
Qed.

(** *** The layout *)
Lemma fit_height_bounds mh mn fuel : forall r,
  let r' := fit_height fuel r mh mn in
  r' <= r /\ Z.min r mn <= r' /\ (r' + 3 <= mh -> r' = Z.min r (mh - 3)).
Proof.
  induction fuel as [|f IH]; intros r r'; subst r'; cbn [fit_height].
  - lia.
  - destruct (Z.ltb_spec mh (r + 3)), (Z.ltb_spec mn r); cbn [andb]; try lia.
    specialize (IH (r - 1)). cbv zeta in IH. lia.
Qed.

(** X28: what [_compute_layout] guarantees.  It never limits the number of
    cards, [max_cards] being the number of tabs (1 for none), and every card
    is at least [card_min_width] wide.  In title-only mode there is no
    preview area and the card is [max(card_min_height, 3)] high.  Otherwise
    the preview is [max(0, card_w - 4)] columns wide, at least
    [min_preview_cols];
    the card, three rows higher than the preview, fits the height
    [max(1, rows - 2)]; and the preview has the rows of the theme, or as
    many as the height leaves it. *)
Theorem compute_layout_invariants (theme : Theme) (n_tabs rows cols : Z) :
  let L := _compute_layout theme n_tabs rows cols in
  lay_max_cards L = Z.max 1 n_tabs
  /\ card_min_width theme <= lay_card_w L
  /\ (lay_title_only L = true ->
      lay_preview_cols L = 0 /\ lay_preview_rows L = 0
      /\ lay_card_h L = Z.max (card_min_height theme) 3)
  /\ (lay_title_only L = false ->
      lay_preview_cols L = Z.max 0 (lay_card_w L - 4)
      /\ min_preview_cols theme <= lay_preview_cols L
      /\ lay_card_h L = lay_preview_rows L + 3
      /\ lay_card_h L <= Z.max 1 (rows - 2)
      /\ lay_preview_rows L
         = Z.min (preview_rows theme) (Z.max 1 (rows - 2) - 3)).
Proof.
  intros L. subst L. unfold _compute_layout. cbv zeta.
  set (mh := Z.max 1 (rows - 2)). set (mw := Z.max 1 (cols - 2)).
  set (target := Z.max 1 n_tabs).
  pose proof (fit_height_bounds mh (min_preview_rows theme)
                (Z.to_nat (preview_rows theme - min_preview_rows theme))
                (preview_rows theme)) as Hh.
  cbv zeta in Hh.
  set (p_rows := fit_height _ _ mh _) in *.
  pose proof (fit_width_min [gap theme; 1; 0] (card_min_width theme) mw target)
    as Hwd.
  destruct (fit_width [gap theme; 1; 0] (card_min_width theme) mw target)
    as [g card_w].
  cbn [snd] in Hwd.
  destruct (Z.ltb_spec (Z.max 0 (card_w - 4)) (min_preview_cols theme)) as [H1|H1];
    cbn [orb].
  { cbn. repeat split; try discriminate; lia. }
  destruct (Z.ltb_spec mh (p_rows + 3)) as [H2|H2]; cbn [orb].
  { cbn. repeat split; try discriminate; lia. }
  destruct (Z.ltb_spec card_w (card_min_width theme)) as [H3|H3].
  { cbn. repeat split; try discriminate; lia. }
  cbn [lay_max_cards lay_card_w lay_title_only lay_preview_cols
       lay_preview_rows lay_card_h].
  split; [reflexivity|]. split; [exact Hwd|]. split; [discriminate|].
  intros _. destruct Hh as (_ & _ & Hh).
  repeat split; lia.
Qed.

(** X29: [_visible_cards] asked for fewer cards than there are tabs
    returns exactly that many, a contiguous run of the tab list that holds
    the selected tab; asked for the [max_cards] of [_compute_layout], as
    [draw] does, it returns the whole tab list, whatever the screen and the
    theme: a frame shows every tab. *)
Theorem visible_cards_window
  (theme : Theme) (s : RawSwitcher) (k rows cols : Z) :
  1 <= k < len (tabs s) -> in_range s ->
  (exists start,
     0 <= start /\ start + k <= len (tabs s)
     /\ start <= selected_index s < start + k
     /\ _visible_cards s k
        = firstn (Z.to_nat k) (skipn (Z.to_nat start) (tabs s))
     /\ len (_visible_cards s k) = k)
  /\ _visible_cards s
       (lay_max_cards (_compute_layout theme (len (tabs s)) rows cols))
     = tabs s.
Proof.
  intros Hk Hr. split.
  - unfold in_range in Hr. unfold _visible_cards.
    destruct (Z.leb_spec (len (tabs s)) k) as [Hle|_]; [lia|].
    assert (Hhalf : 0 <= k / 2 < k)
      by (split; [apply Z.div_pos; lia | apply Z.div_lt; lia]).
    set (start0 := Z.max 0 (selected_index s - k / 2)).
    set (stop := Z.min (len (tabs s)) (start0 + k)).
    set (start := Z.max 0 (stop - k)).
    assert (Hstop : stop - start = k) by (unfold start, stop, start0; lia).
    exists start. rewrite Hstop.
    split; [unfold start; lia|].
    split; [unfold start, stop, start0; lia|].
    split; [unfold start, stop, start0; lia|].
    split; [reflexivity|].
    unfold len. rewrite length_firstn, length_skipn.
    unfold len in *. unfold start, stop, start0 in *. lia.
  - destruct (compute_layout_max theme (len (tabs s)) rows cols) as [-> _].
    apply visible_cards_all.
Qed.

Lemma visible_cards_window_witness :
  (exists start,
     0 <= start /\ start + 2 <= len (tabs session0)
     /\ start <= selected_index session0 < start + 2
     /\ _visible_cards session0 2
        = firstn (Z.to_nat 2) (skipn (Z.to_nat start) (tabs session0))
     /\ len (_visible_cards session0 2) = 2)
  /\ _visible_cards session0
       (lay_max_cards (_compute_layout default_theme (len (tabs session0)) 24 80))
     = tabs session0.
Proof.
  apply (visible_cards_window default_theme session0 2 24 80).
  - vm_compute. split; [discriminate | reflexivity].
  - vm_compute. split; [discriminate | reflexivity].
Defined.

(** *** Truncating text that holds escape sequences *)
Lemma trunc_shift1 x l n f : forall i v out,
  truncate_loop f (x :: l) n (S i) v out = truncate_loop f l n i v out.
Proof.
  induction f as [|f IH]; intros i v out; [reflexivity|].
  cbn [truncate_loop].
  change (S i <? length (x :: l))%nat with (i <? length l)%nat.
  destruct ((i <? length l)%nat && (v <? n)); [|reflexivity].
  change (char_at (x :: l) (S i)) with (char_at l i).
  destruct (char_at l i =? 27)%N; [|apply (IH (i + 1)%nat)].
  change (find_char 109 (x :: l) (S i + 1))
    with (option_map S (find_char 109 l (i + 1))).
  destruct (find_char 109 l (i + 1)) as [e|]; cbn [option_map]; [|reflexivity].
  change (slice (x :: l) (S i) (S e + 1)) with (slice l i (e + 1)).
  apply (IH (e + 1)%nat).
Qed.

Lemma trunc_fuel l n f : forall i v out,
  (length l - i <= f)%nat ->
  truncate_loop f l n i v out = truncate_loop (S f) l n i v out.
Proof.
  induction f as [|f IH]; intros i v out Hf.
  - cbn [truncate_loop].
    destruct (Nat.ltb_spec i (length l)); [lia | reflexivity].
  - remember (S f) as f1 eqn:Ef1. rewrite Ef1 at 1. cbn [truncate_loop].
    destruct (Nat.ltb_spec i (length l)) as [Hlt|Hge]; [|reflexivity].
    cbn [andb]. destruct (v <? n); [|reflexivity].
    assert (Hrec : forall j v' out', (i < j)%nat ->
              truncate_loop f l n j v' out' = truncate_loop f1 l n j v' out').
    { intros j v' out' Hj. subst f1. apply IH. lia. }
    destruct (char_at l i =? 27)%N; [|apply Hrec; lia].
    destruct (find_char 109 l (i + 1)) as [e|] eqn:Ee; [|reflexivity].
    apply find_char_ge in Ee. apply Hrec. lia.
Qed.

Lemma trunc_enough l n : forall k i v out,
  truncate_loop ((length l - i) + k) l n i v out
  = truncate_loop (length l - i) l n i v out.
Proof.
  induction k as [|k IH]; intros i v out.
  - now rewrite Nat.add_0_r.
  - rewrite Nat.add_succ_r, <- trunc_fuel by lia. apply IH.
Qed.

Lemma trunc_prefix pre l n f : forall i v out,
  truncate_loop f (pre ++ l) n (length pre + i) v out
  = truncate_loop f l n i v out.
Proof.
  induction pre as [|x pre IH]; intros i v out; [reflexivity|].
  cbn [app length Nat.add]. rewrite trunc_shift1. apply IH.
Qed.

Lemma trunc_skip pre l n f v out :
  (length l <= f)%nat ->
  truncate_loop f (pre ++ l) n (length pre) v out
  = truncate_loop (length l) l n 0 v out.
Proof.
  intros Hf. rewrite <- (Nat.add_0_r (length pre)), trunc_prefix.
  replace f with ((length l - 0) + (f - length l))%nat by lia.
  rewrite trunc_enough. now rewrite Nat.sub_0_r.
Qed.

Lemma trunc_full l n v out :
  n <= v -> truncate_loop (length l) l n 0 v out = out.
Proof.
  intros H. destruct l as [|x l]; [reflexivity|]. cbn [length truncate_loop].
  destruct (Z.ltb_spec v n); [lia|]. now rewrite andb_false_r.
Qed.

Lemma trunc_glyph c l n v out :
  c <> 27%N -> v < n ->
  truncate_loop (length (c :: l)) (c :: l) n 0 v out
  = truncate_loop (length l) l n 0 (v + 1) (out ++ [c]).
Proof.
  intros Hc Hv. cbn [length truncate_loop].
  change (0 <? S (length l))%nat with true.
  destruct (Z.ltb_spec v n); [|lia]. cbn [andb].
  change (char_at (c :: l) 0) with c.
  apply N.eqb_neq in Hc. rewrite Hc.
  apply (trunc_shift1 c l n (length l) 0%nat).
Qed.

Lemma trunc_seq body l n v out :
  ~ In 109%N body -> v < n ->
  truncate_loop (length (27%N :: body ++ 109%N :: l))
                (27%N :: body ++ 109%N :: l) n 0 v out
  = truncate_loop (length l) l n 0 v (out ++ 27%N :: body ++ [109%N]).
Proof.
  intros Hb Hv.
  set (text := 27%N :: body ++ 109%N :: l).
  assert (Hlen : length text = S (length body + S (length l))).
  { unfold text. cbn [length]. now rewrite length_app. }
  rewrite Hlen. remember (length body + S (length l))%nat as f eqn:Ef.
  cbn [truncate_loop]. rewrite Hlen.
  change (0 <? S f)%nat with true.
  destruct (Z.ltb_spec v n); [|lia]. cbn [andb].
  change (char_at text 0) with 27%N. change ((27 =? 27)%N) with true. cbv iota.
  change (find_char 109 text (0 + 1))
    with (option_map S (find_char 109 (body ++ 109%N :: l) 0)).
  rewrite find_char_here by exact Hb. cbn [option_map].
  assert (Hslice : slice text 0 (S (length body) + 1) = 27%N :: body ++ [109%N]).
  { unfold slice, text. rewrite Nat.sub_0_r. cbn [skipn].
    replace (S (length body) + 1)%nat
      with (length (27%N :: body ++ [109%N]))
      by (cbn [length]; rewrite length_app; cbn; lia).
    replace (27%N :: body ++ 109%N :: l)
      with ((27%N :: body ++ [109%N]) ++ l)
      by (cbn [app]; now rewrite <- app_assoc).
    apply firstn_exact. }
  rewrite Hslice.
  replace text with ((27%N :: body ++ [109%N]) ++ l)
    by (unfold text; cbn [app]; now rewrite <- app_assoc).
  replace (S (length body) + 1)%nat
    with (length (27%N :: body ++ [109%N]))
    by (cbn [length]; rewrite length_app; cbn; lia).
  apply trunc_skip. lia.
Qed.

Lemma trunc_tokens n ts : forall v out,
  Forall well_formed ts -> v <= n ->
  truncate_loop (length (text_of ts)) (text_of ts) n 0 v out
  = out ++ text_of (take_visible (n - v) ts).
Proof.
  induction ts as [|t ts IH]; intros v out Hwf Hv.
  - cbn. now rewrite app_nil_r.
  - inversion Hwf as [|? ? Ht Hts]; subst.
    destruct (Z.eq_dec v n) as [->|Hne].
    + rewrite trunc_full by lia. cbn [take_visible].
      rewrite Z.sub_diag. cbn. now rewrite app_nil_r.
    + cbn [take_visible]. destruct (Z.leb_spec (n - v) 0); [lia|].
      destruct t as [c|body]; cbn [well_formed] in Ht.
      * change (text_of (Glyph c :: ts)) with (c :: text_of ts).
        rewrite trunc_glyph by (assumption || lia).
        rewrite IH by (assumption || lia).
        change (text_of (Glyph c :: take_visible (n - v - 1) ts))
          with (c :: text_of (take_visible (n - v - 1) ts)).
        rewrite <- app_assoc. cbn [app].
        now replace (n - (v + 1)) with (n - v - 1) by lia.
      * change (text_of (Seq body :: ts))
          with ((27%N :: body ++ [109%N]) ++ text_of ts).
        cbn [app]. rewrite <- app_assoc. cbn [app].
        rewrite trunc_seq by (assumption || lia).
        rewrite IH by (assumption || lia).
        change (text_of (Seq body :: take_visible (n - v) ts))
          with ((27%N :: body ++ [109%N]) ++ text_of (take_visible (n - v) ts)).
        now rewrite <- app_assoc.
Qed.

Lemma visible_take n ts : forall (Hn : 0 <= n),
  visible_of (take_visible n ts) = firstn (Z.to_nat n) (visible_of ts).
Proof.
  revert n. induction ts as [|t ts IH]; intros n Hn; cbn [take_visible].
  - cbn. now rewrite firstn_nil.
  - destruct (Z.leb_spec n 0).
    + replace n with 0 by lia. reflexivity.
    + destruct t as [c|body]; cbn [visible_of flat_map app].
      * fold (visible_of (take_visible (n - 1) ts)). fold (visible_of ts).
        rewrite IH by lia.
        replace (Z.to_nat n) with (S (Z.to_nat (n - 1))) by lia. reflexivity.
      * fold (visible_of (take_visible n ts)). fold (visible_of ts).
        now apply IH.
Qed.

(** X30: [_truncate_ansi] on a text that holds an escape sequence never
    cuts inside one: of a text made of visible characters and sequences
    [ESC ... m] it keeps the tokens up to the [max_len]-th visible
    character, stops right after that character, and appends a reset; so it
    shows the first [max_len] visible characters. *)
Theorem truncate_ansi_keeps_whole_tokens (ts : list token) (max_len : Z) :
  0 < max_len -> Forall well_formed ts -> existsb is_seq ts = true ->
  _truncate_ansi (text_of ts) max_len
  = text_of (take_visible max_len ts) ++ RESET
  /\ visible_of (take_visible max_len ts)
     = firstn (Z.to_nat max_len) (visible_of ts).
Proof.
  intros Hn Hwf Hseq. split; [|apply visible_take; lia].
  unfold _truncate_ansi. destruct (Z.leb_spec max_len 0); [lia|].
  assert (Hesc : existsb (N.eqb 27) (text_of ts) = true).
  { apply existsb_exists in Hseq as (t & Hin & Ht).
    destruct t as [c|body]; [discriminate|].
    apply existsb_exists. exists 27%N. split; [|reflexivity].
    unfold text_of. apply in_flat_map. exists (Seq body).
    split; [exact Hin | now left]. }
  rewrite Hesc. cbn [negb].
  rewrite trunc_tokens by (assumption || lia).
  now rewrite Z.sub_0_r.
Qed.

Lemma truncate_ansi_keeps_whole_tokens_witness :
  _truncate_ansi
    (text_of [Seq [91; 51; 49]%N; Glyph 97; Glyph 98; Seq [91; 48]%N; Glyph 99]) 2
  = text_of (take_visible 2
               [Seq [91; 51; 49]%N; Glyph 97; Glyph 98; Seq [91; 48]%N; Glyph 99])
    ++ RESET
  /\ visible_of (take_visible 2
                   [Seq [91; 51; 49]%N; Glyph 97; Glyph 98; Seq [91; 48]%N;
                    Glyph 99])
     = firstn (Z.to_nat 2)
         (visible_of [Seq [91; 51; 49]%N; Glyph 97; Glyph 98; Seq [91; 48]%N;
                      Glyph 99]).
Proof.
  apply (truncate_ansi_keeps_whole_tokens
           [Seq [91; 51; 49]%N; Glyph 97; Glyph 98; Seq [91; 48]%N; Glyph 99] 2).
  - lia.
  - repeat constructor; cbn; intuition discriminate.
  - reflexivity.
Defined.

End LayoutMore.

(** ** The switcher loop: what every session keeps *)
Module SwitcherMore.
Import Py Keys Preview Layout Switcher Samples Notions MoreNotions.
Import PyFacts LoopFacts CycleFacts MruFacts CommitFacts.

Lemma updates_trans s1 s2 s3 : updates s1 s2 -> updates s2 s3 -> updates s1 s3.
Proof.
  intros H12 H23. induction H23 as [|s3 s4 _ IH Hu]; [exact H12|].
  eapply updates_step; [exact IH | exact Hu].
Qed.

Lemma updates_one s s' : update s s' -> updates s s'.
Proof. intros H. eapply updates_step; [apply updates_refl | exact H]. Qed.

Lemma updates_inv (I : RawSwitcher -> Prop) :
  (forall s s', update s s' -> I s -> I s') ->
  forall s s', updates s s' -> I s -> I s'.
Proof.
  intros Hstep s s' H Hs. induction H as [|s1 s2 _ IH Hu]; [exact Hs|].
  exact (Hstep _ _ Hu IH).
Qed.

Lemma fold_updates {B} (f : RawSwitcher -> B -> RawSwitcher) (l : list B) :
  (forall st x, updates st (f st x)) ->
  forall s, updates s (fold_left f l s).
Proof.
  intros Hf. induction l as [|x l IH]; intros s; cbn [fold_left];
    [apply updates_refl|].
  eapply updates_trans; [apply Hf | apply IH].
Qed.

Lemma ensure_updates env s : updates s (_ensure_preview_cache env s).
Proof.
  unfold _ensure_preview_cache. destruct (tabs s); [apply updates_refl|].
  apply fold_updates. intros st x.
  destruct (tab_at st (snd x)) as [tab|] eqn:E; [|apply updates_refl].
  destruct (dict_mem _ _); [apply updates_refl|].
  apply updates_one, upd_store. eapply tab_at_in, E.
Qed.

Lemma enqueue_updates x s : updates s (enqueue x s).
Proof.
  unfold enqueue. destruct (mem _ _) eqn:E; [apply updates_refl|].
  now apply updates_one, upd_enqueue.
Qed.

Lemma schedule_updates env s : updates s (_schedule_preview_fetch env s).
Proof.
  unfold _schedule_preview_fetch. destruct (tabs s); [apply updates_refl|].
  apply fold_updates. intros st x.
  destruct (tab_at st (snd x)) as [tab|]; [|apply updates_refl].
  destruct (negb _); [apply updates_refl | apply enqueue_updates].
Qed.

Lemma draw_cards_updates U env layout cards : forall st,
  updates st (fst (draw_cards U env layout cards st)).
Proof.
  induction cards as [|[k tab] cards IH]; intros st; cbn [draw_cards];
    [apply updates_refl|].
  set (st1 := if _preview_stale _ st (id tab) then _ else st).
  assert (H1 : updates st st1).
  { unfold st1. destruct (_preview_stale _ _ _);
      [apply enqueue_updates | apply updates_refl]. }
  destruct (_draw_card U layout st1 tab); [|exact H1].
  eapply updates_trans; [exact H1 | apply IH].
Qed.

Lemma draw_updates U env force s : updates s (fst (draw U env force s)).
Proof.
  unfold draw. destruct (negb force && _); [apply updates_refl|].
  assert (H1 : updates s (log_effect (EDraw force (selected_index s))
                                     (with_last_draw (clock env AtDraw) s)))
    by apply updates_one, upd_frame.
  destruct (tabs _); [exact H1|].
  eapply updates_trans; [exact H1 | apply draw_cards_updates].
Qed.

Lemma move_updates env d s : updates s (_move env d s).
Proof.
  unfold _move. destruct (tabs s) as [|t0 ts] eqn:E; [apply updates_refl|].
  eapply updates_trans; [|apply ensure_updates].
  rewrite <- E. apply updates_one, upd_select. congruence.
Qed.

Lemma drain_updates env s : updates s (fst (_drain_preview_queue env s)).
Proof.
  unfold _drain_preview_queue.
  destruct (preview_queue s) as [|tid rest] eqn:E; [apply updates_refl|].
  assert (H1 : updates s (with_preview_queue rest s))
    by (eapply updates_one, upd_dequeue, E).
  destruct (_tab_by_id _ tid) as [tab|] eqn:Et; [|exact H1].
  destruct (_preview_stale _ _ _); [|exact H1]. cbn [fst].
  eapply updates_step; [exact H1|]. apply upd_store.
  unfold _tab_by_id in Et. apply find_some in Et. apply Et.
Qed.

Lemma idle_updates U env s : updates s (fst (idle_refresh U env s)).
Proof.
  unfold idle_refresh. pose proof (drain_updates env s) as H.
  destruct (_drain_preview_queue env s) as [s1 [|]]; cbn [fst] in H |- *;
    [|exact H].
  eapply updates_trans; [exact H | apply draw_updates].
Qed.

Lemma run_prelude_updates U env sent poll s :
  updates s (fst (run_prelude U env sent poll s)).
Proof.
  unfold run_prelude.
  set (s1 := match sent with Some ok => _ | None => s end).
  assert (H1 : updates s s1).
  { unfold s1. destruct sent; [apply updates_one, upd_marker_sent
                              | apply updates_refl]. }
  set (s2 := match ctrl_mask s1, poll with Some mask, Some m => _ | _, _ => s1 end).
  assert (H2 : updates s1 s2).
  { unfold s2. destruct (ctrl_mask s1); [|apply updates_refl].
    destruct poll; [apply updates_one, upd_initial_mods | apply updates_refl]. }
  pose proof (draw_updates U env false s2) as H3.
  eapply updates_trans; [exact H1|]. eapply updates_trans; [exact H2|].
  destruct (draw U env false s2) as [s3 [x|]]; cbn [fst] in H3 |- *;
    [exact H3|].
  eapply updates_trans; [exact H3 | apply schedule_updates].
Qed.

(** Every iteration is a sequence of updates, followed by [commit] when
    the iteration returns with a commit. *)
Lemma timeout_guards_shape env s :
  fst (timeout_guards env s) = finish env (snd (timeout_guards env s)) s.
Proof. unfold timeout_guards. split_ifs; reflexivity. Qed.

Lemma poll_oracle_shape env poll s :
  exists s0, updates s s0
    /\ fst (poll_oracle env poll s) = finish env (snd (poll_oracle env poll s)) s0.
Proof.
  unfold poll_oracle.
  destruct (ctrl_mask s) as [mask|];
    [|exists s; split; [apply updates_refl | apply timeout_guards_shape]].
  destruct poll as [m|];
    [|exists s; split; [apply updates_refl | apply timeout_guards_shape]].
  destruct (ctrl_is_down m mask).
  - eexists. split; [|apply timeout_guards_shape].
    eapply updates_step; [eapply updates_step; [apply updates_one|]|].
    + apply upd_poll_seen.
    + apply (upd_ctrl_down _ true).
    + apply upd_streak_reset.
  - exists (with_ctrl_up_streak (ctrl_up_streak s + 1) s).
    split; [apply updates_one, upd_streak_incr|].
    destruct (_ && _); [reflexivity | apply timeout_guards_shape].
Qed.

(** A redraw that raises leaves the state it had reached. *)
Lemma after_draw_shape env r k s :
  updates s (fst r) ->
  (forall s1, exists s0, updates s1 s0
                         /\ fst (k s1) = finish env (snd (k s1)) s0) ->
  exists s0, updates s s0
    /\ fst (after_draw r k) = finish env (snd (after_draw r k)) s0.
Proof.
  intros Hr Hk. destruct r as [s1 [e|]]; cbn [fst after_draw snd] in *.
  - exists s1. split; [exact Hr | reflexivity].
  - destruct (Hk s1) as (s0 & H0 & E). exists s0.
    split; [eapply updates_trans; eassumption | exact E].
Qed.

Lemma on_tick_shape U env poll s :
  exists s0, updates s s0
    /\ fst (on_tick U env poll s) = finish env (snd (on_tick U env poll s)) s0.
Proof.
  unfold on_tick. apply after_draw_shape; [apply idle_updates|].
  intros s1. apply poll_oracle_shape.
Qed.

Lemma on_command_shape U env cmd s :
  exists s0, updates s s0
    /\ fst (on_command U env cmd s)
       = finish env (snd (on_command U env cmd s)) s0.
Proof.
  unfold on_command. destruct (_ || _);
    [|exists s; split; [apply updates_refl | reflexivity]].
  apply after_draw_shape.
  - eapply updates_trans; [apply move_updates | apply draw_updates].
  - intros s1. exists s1. split; [apply updates_refl | reflexivity].
Qed.

Lemma redraw_shape U env s1 s :
  updates s s1 ->
  exists s0, updates s s0
    /\ fst (redraw_and_schedule U env s1)
       = finish env (snd (redraw_and_schedule U env s1)) s0.
Proof.
  intros H1. unfold redraw_and_schedule. apply after_draw_shape.
  - eapply updates_trans; [exact H1 | apply draw_updates].
  - intros s2. exists (_schedule_preview_fetch env s2).
    split; [apply schedule_updates | reflexivity].
Qed.

Lemma on_key_shape U env ev s :
  exists s0, updates s s0
    /\ fst (on_key U env ev s) = finish env (snd (on_key U env ev s)) s0.
Proof.
  unfold on_key.
  set (sa := with_last_input_time (clock env AtInput) (with_any_key_event true s)).
  assert (Ha : updates s sa).
  { eapply updates_step; [apply updates_one, upd_any_key | apply upd_input_time]. }
  destruct ((key_code ev =? MARKER_KEY_CODE) && (event_type ev =? 1)).
  { eexists. split; [|reflexivity].
    eapply updates_trans; [exact Ha|].
    eapply updates_step; [eapply updates_step; [apply updates_one|]|].
    - apply upd_marker_seen.
    - apply (upd_ctrl_down _ true).
    - apply upd_ctrl_seen. }
  destruct ((key_code ev =? MARKER_KEY_CODE) && (event_type ev =? 3)).
  { eexists. split; [|reflexivity].
    eapply updates_step; [exact Ha | apply (upd_ctrl_down _ false)]. }
  set (sb := if is_ctrl_key ev && (event_type ev =? 1) then _ else sa).
  assert (Hb : updates s sb).
  { unfold sb. destruct (is_ctrl_key ev && (event_type ev =? 1)); [|exact Ha].
    eapply updates_step; [eapply updates_step; [exact Ha|]|].
    - apply (upd_ctrl_down _ true).
    - apply upd_ctrl_seen. }
  set (sc := if is_ctrl_key ev && (event_type ev =? 3) then _ else sb).
  assert (Hc : updates s sc).
  { unfold sc. destruct (is_ctrl_key ev && (event_type ev =? 3)); [|exact Hb].
    eapply updates_step; [exact Hb | apply (upd_ctrl_down _ false)]. }
  destruct (is_ctrl_key ev && (event_type ev =? 3)
            && _should_commit_on_ctrl_release env sc).
  { exists sc. split; [exact Hc | reflexivity]. }
  destruct ((key_code ev =? ESC_CODE) && (event_type ev =? 1)).
  { exists sc. split; [exact Hc | reflexivity]. }
  destruct ((key_code ev =? TAB_CODE)
            && ((event_type ev =? 1) || (event_type ev =? 2))).
  { apply redraw_shape.
    eapply updates_trans; [|apply move_updates].
    destruct (ctrl ev).
    - eapply updates_step; [eapply updates_step; [exact Hc|]|].
      + apply upd_saw_tab.
      + apply (upd_ctrl_down _ true).
    - eapply updates_step; [exact Hc | apply upd_saw_tab]. }
  destruct (key_code ev =? - TAB_CODE).
  { apply redraw_shape.
    eapply updates_trans; [|apply move_updates].
    eapply updates_step; [exact Hc | apply upd_saw_tab]. }
  destruct ((key_code ev =? 113) && (event_type ev =? 1)).
  { exists sc. split; [exact Hc | reflexivity]. }
  exists sc. split; [exact Hc | reflexivity].
Qed.

Lemma step_shape U env e s :
  exists s0, updates s s0
    /\ fst (step U env e s) = finish env (snd (step U env e s)) s0.
Proof.
  destruct e as [poll|cmd|ev]; cbn [step].
  - apply on_tick_shape.
  - apply on_command_shape.
  - apply on_key_shape.
Qed.

(** The loop: a sequence of updates, then [commit] if it returned with
    one.  [env] is the iteration that ended the loop. *)
Lemma run_loop_shape U : forall evs s s' x,
  run_loop U s evs = (s', x) ->
  exists s0 env, updates s s0 /\ s' = finish env x s0
                 /\ (x <> None -> In env (map fst evs)).
Proof.
  induction evs as [|[env e] rest IH]; intros s s' x H; cbn [run_loop] in H.
  - injection H as <- <-. exists s, (env_at 0). split; [apply updates_refl|].
    split; [reflexivity | congruence].
  - destruct (step_shape U env e s) as (s0 & H0 & E).
    destruct (step U env e s) as [s1 [c|]] eqn:Es; cbn [fst snd] in E.
    + injection H as <- <-. exists s0, env. split; [exact H0|].
      split; [exact E | intros _; now left].
    + cbn [finish] in E. subst s1.
      destruct (IH _ _ _ H) as (s2 & env2 & H2 & E2 & Hin).
      exists s2, env2. split; [eapply updates_trans; eassumption|].
      split; [exact E2 | intros Hx; right; now apply Hin].
Qed.

Lemma run_shape U l env sent poll evs s' x :
  run U l env sent poll evs = (s', x) ->
  exists s0 envx, updates (init l) s0 /\ s' = finish envx x s0.
Proof.
  unfold run. intros H.
  pose proof (run_prelude_updates U env sent poll (init l)) as Hp.
  destruct (run_prelude U env sent poll (init l)) as [s1 [e|]];
    cbn [fst after_draw] in Hp, H.
  - injection H as <- <-. exists s1, env. split; [exact Hp | reflexivity].
  - destruct (run_loop_shape _ _ _ _ _ H) as (s0 & envx & H0 & E & _).
    exists s0, envx. split; [|exact E].
    eapply updates_trans; [exact Hp | exact H0].
Qed.

(** *** What the updates leave alone *)
Lemma update_core s s' :
  update s s' ->
  tabs s' = tabs s /\ start_time s' = start_time s
  /\ original_tab_id s' = original_tab_id s /\ mru_order s' = mru_order s
  /\ last_used s' = last_used s /\ ctrl_mask s' = ctrl_mask s.
Proof. intros []; repeat split; reflexivity. Qed.

Lemma updates_core s s' :
  updates s s' ->
  tabs s' = tabs s /\ start_time s' = start_time s
  /\ original_tab_id s' = original_tab_id s /\ mru_order s' = mru_order s
  /\ last_used s' = last_used s /\ ctrl_mask s' = ctrl_mask s.
Proof.
  intros H. induction H as [|s1 s2 _ IH Hu]; [repeat split|].
  destruct (update_core _ _ Hu) as (a & b & c & d & e & f).
  destruct IH as (a' & b' & c' & d' & e' & f').
  repeat split; congruence.
Qed.

Lemma commit_frame env s :
  tabs (commit env s) = tabs s
  /\ selected_index (commit env s) = selected_index s
  /\ preview_queue (commit env s) = preview_queue s
  /\ start_time (commit env s) = start_time s
  /\ original_tab_id (commit env s) = original_tab_id s.
Proof. unfold commit. destruct (_current_tab_id s); repeat split. Qed.

Lemma finish_frame env x s :
  tabs (finish env x s) = tabs s
  /\ selected_index (finish env x s) = selected_index s
  /\ preview_queue (finish env x s) = preview_queue s
  /\ start_time (finish env x s) = start_time s
  /\ original_tab_id (finish env x s) = original_tab_id s.
Proof.
  unfold finish. destruct x as [c|]; [|repeat split].
  destruct (is_commit c); [apply commit_frame | repeat split].
Qed.

Lemma len_pos {A} (l : list A) : l <> [] -> 0 < len l.
Proof. destruct l; [congruence|]. intros _. unfold len. cbn [length]. lia. Qed.

Lemma update_in_range s s' : update s s' -> in_range s -> in_range s'.
Proof.
  intros Hu Hr. destruct Hu as [| | | | | | | | |d Hne| | | | | |]; try exact Hr.
  unfold in_range. cbn. apply Z.mod_pos_bound. now apply len_pos.
Qed.

(** *** Dictionaries: keys *)
Lemma keys_dict_set {V} (d : list (Z * V)) k v x :
  In x (map fst (dict_set d k v)) <-> x = k \/ In x (map fst d).
Proof.
  induction d as [|[k' v'] r IH]; cbn.
  - intuition.
  - destruct (Z.eqb_spec k' k); cbn; [subst; intuition|].
    rewrite IH. intuition.
Qed.

Lemma dict_get_set_same {V} (d : list (Z * V)) k v :
  dict_get (dict_set d k v) k = Some v.
Proof.
  induction d as [|[k' v'] r IH]; cbn; [now rewrite Z.eqb_refl|].
  destruct (Z.eqb_spec k' k) as [->|Hne]; cbn.
  - now rewrite Z.eqb_refl.
  - destruct (Z.eqb_spec k' k); [congruence | exact IH].
Qed.

Lemma dict_get_set_other {V} (d : list (Z * V)) k v k0 :
  k0 <> k -> dict_get (dict_set d k v) k0 = dict_get d k0.
Proof.
  intros Hne. induction d as [|[k' v'] r IH]; cbn.
  - destruct (Z.eqb_spec k k0); [congruence | reflexivity].
  - destruct (Z.eqb_spec k' k) as [->|Hk]; cbn.
    + destruct (Z.eqb_spec k k0); [congruence | reflexivity].
    + destruct (k' =? k0); [reflexivity | exact IH].
Qed.

Lemma dict_get_key_some {V} (d : list (Z * V)) k :
  In k (map fst d) -> exists v, dict_get d k = Some v.
Proof.
  induction d as [|[k' v'] r IH]; cbn; [easy|].
  destruct (Z.eqb_spec k' k) as [->|Hne]; [eauto|].
  intros [H|H]; [congruence | now apply IH].
Qed.

Lemma dict_mem_keys {V} (d : list (Z * V)) k :
  dict_mem d k = true <-> In k (map fst d).
Proof.
  unfold dict_mem. induction d as [|[k' v'] r IH]; cbn; [easy|].
  destruct (Z.eqb_spec k' k) as [->|Hne]; [intuition|].
  rewrite IH. intuition.
Qed.

Lemma dict_get_in {V} (d : list (Z * V)) k v :
  dict_get d k = Some v -> In (k, v) d.
Proof.
  induction d as [|[k' v'] r IH]; cbn; [discriminate|].
  destruct (Z.eqb_spec k' k) as [->|Hne].
  - intros [= ->]. now left.
  - intros H. right. now apply IH.
Qed.

Lemma dict_set_nodup {V} (d : list (Z * V)) k v :
  NoDup (map fst d) -> NoDup (map fst (dict_set d k v)).
Proof.
  induction d as [|[k' v'] r IH]; cbn; intros H.
  - constructor; [easy | constructor].
  - inversion H as [|? ? Hnin Hr]; subst.
    destruct (Z.eqb_spec k' k); cbn; [now constructor|].
    constructor; [|now apply IH].
    rewrite keys_dict_set. intros [->|Hin]; [congruence | contradiction].
Qed.

(** A dictionary filled by a loop: its keys are those of the items, and no
    key is there twice. *)
Lemma fold_keys {X V} (key : X -> Z) (f : list (Z * V) -> X -> list (Z * V)) :
  (forall d x k, In k (map fst (f d x)) <-> k = key x \/ In k (map fst d)) ->
  (forall d x, NoDup (map fst d) -> NoDup (map fst (f d x))) ->
  forall l d0,
    (forall k, In k (map fst (fold_left f l d0))
               <-> In k (map key l) \/ In k (map fst d0))
    /\ (NoDup (map fst d0) -> NoDup (map fst (fold_left f l d0))).
Proof.
  intros Hk Hn. induction l as [|x l IH]; intros d0; cbn [fold_left map].
  - split; [intros k; cbn; intuition | easy].
  - destruct (IH (f d0 x)) as [IHk IHn]. split.
    + intros k. rewrite IHk, Hk. cbn. intuition.
    + intros H. apply IHn, Hn, H.
Qed.

Lemma by_id_keys tabs :
  (forall k, In k (map fst (by_id_of tabs)) <-> In k (map id tabs))
  /\ forall k t, dict_get (by_id_of tabs) k = Some t -> id t = k /\ In t tabs.
Proof.
  unfold by_id_of. split.
  - intros k.
    destruct (fold_keys id (fun d t => dict_set d (id t) t)
                (fun d x k => keys_dict_set d (id x) x k)
                (fun d x => dict_set_nodup d (id x) x) tabs []) as [H _].
    rewrite H. cbn. intuition.
  - assert (H : forall l d0,
              (forall k t, dict_get d0 k = Some t -> id t = k /\ In t tabs) ->
              incl l tabs ->
              forall k t, dict_get (fold_left (fun d t => dict_set d (id t) t) l d0) k
                          = Some t -> id t = k /\ In t tabs).
    { induction l as [|x l IH]; intros d0 Hd Hl; cbn [fold_left]; [exact Hd|].
      apply IH.
      - intros k t. destruct (Z.eq_dec k (id x)) as [->|Hne].
        + rewrite dict_get_set_same. intros [= <-]. split; [reflexivity|].
          apply Hl. now left.
        + rewrite dict_get_set_other by exact Hne. apply Hd.
      - intros y Hy. apply Hl. now right. }
    apply H; [discriminate | apply incl_refl].
Qed.

Lemma scores_from_focus_keys tabs :
  (forall k, In k (map fst (scores_from_focus tabs)) <-> In k (map id tabs))
  /\ NoDup (map fst (scores_from_focus tabs)).
Proof.
  unfold scores_from_focus.
  destruct (fold_keys id
              (fun d t => dict_set d (id t)
                            (match last_focused t with Some x => x | None => 0%Q end))
              (fun d x k => keys_dict_set d (id x) _ k)
              (fun d x => dict_set_nodup d (id x) _) tabs []) as [H Hn].
  split; [intros k; rewrite H; cbn; intuition | apply Hn; constructor].
Qed.

Lemma scores_from_cache_keys ids mru :
  (forall k, In k (map fst (scores_from_cache ids mru)) <-> In k ids)
  /\ NoDup (map fst (scores_from_cache ids mru)).
Proof.
  unfold scores_from_cache.
  set (f := fun d tid => _).
  assert (Hk : forall d x k,
             In k (map fst (f d x)) <-> k = (fun y : Z => y) x \/ In k (map fst d)).
  { intros d x k. unfold f.
    destruct (dict_get mru x) as [v|].
    - assert (E : dict_mem (dict_set d x v) x = true)
        by (unfold dict_mem; now rewrite dict_get_set_same).
      rewrite E. apply keys_dict_set.
    - destruct (dict_mem d x) eqn:E; [|apply keys_dict_set].
      apply dict_mem_keys in E. split; [now right|].
      intros [->|H]; assumption. }
  assert (Hn : forall d x, NoDup (map fst d) -> NoDup (map fst (f d x))).
  { intros d x H. unfold f. destruct (dict_get mru x) as [v|].
    - destruct (dict_mem _ _); [|apply dict_set_nodup]; now apply dict_set_nodup.
    - destruct (dict_mem _ _); [exact H | now apply dict_set_nodup]. }
  destruct (fold_keys (fun y : Z => y) f Hk Hn ids []) as [H Hn'].
  split; [|apply Hn'; constructor].
  intros k. rewrite H, map_id. cbn. intuition.
Qed.

Lemma force_active_keys tabs now out :
  (forall k, In k (map fst out) <-> In k (map id tabs)) ->
  NoDup (map fst out) ->
  (forall k, In k (map fst (force_active tabs now out)) <-> In k (map id tabs))
  /\ NoDup (map fst (force_active tabs now out)).
Proof.
  intros Hk Hn. unfold force_active.
  destruct (_active_tab_id tabs) as [a|] eqn:E; [|now split].
  split; [|now apply dict_set_nodup].
  intros k. rewrite keys_dict_set, Hk. split; [|now right].
  intros [->|H]; [|exact H]. now apply active_tab_id_in.
Qed.

Lemma tabs_in_order_ids by_id tabs ordered :
  (forall k, In k (map fst by_id) <-> In k (map id tabs)) ->
  (forall k t, dict_get by_id k = Some t -> id t = k /\ In t tabs) ->
  (forall k, In k (map fst ordered) -> In k (map id tabs)) ->
  map id (tabs_in_order by_id ordered) = map fst ordered
  /\ incl (tabs_in_order by_id ordered) tabs.
Proof.
  intros Hk Hv. unfold tabs_in_order.
  induction ordered as [|[k v] r IH]; intros Ho; cbn [flat_map map];
    [split; [reflexivity | easy]|].
  destruct IH as [IH1 IH2]; [intros k' Hk'; apply Ho; now right|].
  destruct (dict_get_key_some by_id k) as [t Et].
  { apply Hk, Ho. now left. }
  cbn [fst]. rewrite Et. destruct (Hv _ _ Et) as [Hid Hin].
  cbn [app map]. split; [now rewrite IH1, Hid|].
  intros y [<-|Hy]; [exact Hin | now apply IH2].
Qed.

Lemma reconcile_ids tabs mru now :
  let r := _reconcile_mru tabs mru now in
  (forall k, In k (map id (fst r)) <-> In k (map id tabs))
  /\ NoDup (map id (fst r))
  /\ incl (fst r) tabs
  /\ (forall k, In k (map fst (snd r)) <-> In k (map id tabs))
  /\ NoDup (map fst (snd r)).
Proof.
  assert (Hgen : forall out,
    (forall k, In k (map fst out) <-> In k (map id tabs)) ->
    NoDup (map fst out) ->
    let res := tabs_in_order (by_id_of tabs)
                 (mru_sorted (base_rank_of (map id tabs)) out) in
    (forall k, In k (map id res) <-> In k (map id tabs))
    /\ NoDup (map id res) /\ incl res tabs).
  { intros out Hk Hn res.
    pose proof (sorted_by_perm
                  (fun a b => key_lt (mru_key (base_rank_of (map id tabs)) a)
                                     (mru_key (base_rank_of (map id tabs)) b))
                  out) as Hp.
    fold (mru_sorted (base_rank_of (map id tabs)) out) in Hp.
    pose proof (Permutation_map fst Hp) as Hpk.
    destruct (by_id_keys tabs) as [Hbk Hbv].
    destruct (tabs_in_order_ids (by_id_of tabs) tabs
                (mru_sorted (base_rank_of (map id tabs)) out) Hbk Hbv)
      as [Hids Hincl].
    { intros k Hin. apply Hk. eapply Permutation_in; [symmetry; exact Hpk | exact Hin]. }
    fold res in Hids, Hincl. rewrite Hids. split; [|split; [|exact Hincl]].
    - intros k. rewrite <- Hk. split; apply Permutation_in;
        [symmetry; exact Hpk | exact Hpk].
    - eapply Permutation_NoDup; [exact Hpk | exact Hn]. }
  unfold _reconcile_mru. cbv zeta.
  destruct (existsb has_last_focused tabs); cbn [fst snd].
  - destruct (scores_from_focus_keys tabs) as [Hk Hn].
    destruct (force_active_keys tabs now _ Hk Hn) as [Hk' Hn'].
    destruct (Hgen _ Hk' Hn') as (H1 & H2 & H3).
    split; [exact H1|]. split; [exact H2|]. split; [exact H3|].
    destruct (fold_keys (fun y : Z => y)
                (fun d tid => dict_set d tid
                   (get_or (force_active tabs now (scores_from_focus tabs)) tid 0%Q))
                (fun d x k => keys_dict_set d x _ k)
                (fun d x => dict_set_nodup d x _) (map id tabs) []) as [H Hnd].
    split; [|apply Hnd; constructor].
    intros k. rewrite H, map_id. cbn. intuition.
  - destruct (scores_from_cache_keys (map id tabs) mru) as [Hk Hn].
    destruct (force_active_keys tabs now _ Hk Hn) as [Hk' Hn'].
    destruct (Hgen _ Hk' Hn') as (H1 & H2 & H3).
    split; [exact H1|]. split; [exact H2|]. split; [exact H3|].
    split; [exact Hk' | exact Hn'].
Qed.

(** X6: reconciliation neither loses nor invents a tab: the ids of the
    new tab list are the distinct ids the host reported, each of them once,
    also when the host lists an id twice; every tab in the new list is one
    the host reported; and the keys of the returned score map are these
    ids. *)
Theorem reconcile_keeps_distinct_ids
  (tabs : list TabInfo) (mru : list (Z * Q)) (now : Q) :
  let r := _reconcile_mru tabs mru now in
  Permutation (map id (fst r)) (nodup Z.eq_dec (map id tabs))
  /\ incl (fst r) tabs
  /\ Permutation (map fst (snd r)) (nodup Z.eq_dec (map id tabs)).
Proof.
  intros r. subst r.
  destruct (reconcile_ids tabs mru now) as (Hk & Hn & Hincl & Hsk & Hsn).
  split; [|split; [exact Hincl|]].
  - apply NoDup_Permutation; [exact Hn | apply NoDup_nodup|].
    intros k. rewrite nodup_In. apply Hk.
  - apply NoDup_Permutation; [exact Hsn | apply NoDup_nodup|].
    intros k. rewrite nodup_In. apply Hsk.
Qed.

Lemma init_tabs_nonempty l : l_tabs l <> [] -> tabs (init l) <> [].
Proof.
  intros Hne E. destruct (l_tabs l) as [|t ts] eqn:El; [congruence|].
  destruct (reconcile_ids (l_tabs l) (l_mru l) (l_now l)) as (Hk & _).
  unfold init in E. cbn [tabs] in E. rewrite E, El in Hk.
  apply (Hk (id t)). now left.
Qed.

Lemma init_in_range l : l_tabs l <> [] -> in_range (init l).
Proof.
  intros Hne. pose proof (init_tabs_nonempty l Hne) as Ht.
  unfold in_range. unfold init in *. cbn [tabs selected_index] in *.
  set (ts := fst (_reconcile_mru (l_tabs l) (l_mru l) (l_now l))) in *.
  unfold _initial_index. destruct ts as [|t0 r] eqn:E; [congruence|].
  rewrite <- E. assert (0 < len ts) by (apply len_pos; congruence).
  destruct (0 <=? l_direction l); now apply Z.mod_pos_bound.
Qed.

Lemma updates_in_range s s' : updates s s' -> in_range s -> in_range s'.
Proof. apply (updates_inv in_range), update_in_range. Qed.

(** X7: from start to return the selection is an index of the tab list,
    and the tab list is the one reconciled at start. *)
Theorem run_keeps_selection_in_range
  (U : unicode_db) (l : Launch) (env : Env) (sent : option bool)
  (poll : option Z) (evs : list (Env * Event)) :
  l_tabs l <> [] ->
  let s' := fst (run U l env sent poll evs) in
  tabs s' = fst (_reconcile_mru (l_tabs l) (l_mru l) (l_now l))
  /\ 0 <= selected_index s' < len (tabs s').
Proof.
  intros Hne s'.
  destruct (run U l env sent poll evs) as [s1 x] eqn:E. subst s'. cbn [fst].
  destruct (run_shape _ _ _ _ _ _ _ _ E) as (s0 & envx & H0 & ->).
  destruct (finish_frame envx x s0) as (Ht & Hs & _).
  destruct (updates_core _ _ H0) as (Ht0 & _).
  pose proof (updates_in_range _ _ H0 (init_in_range l Hne)) as Hr.
  rewrite Ht, Hs. split; [now rewrite Ht0 | exact Hr].
Qed.

Lemma run_keeps_selection_in_range_witness :
  let s' := fst (run latin1_only launch0 (env_at (1000 # 1)) None (Some 4)
                     [(env_at (100005 # 100), Key tab_press);
                      (env_at (100010 # 100), Key tab_press)]) in
  tabs s' = fst (_reconcile_mru (l_tabs launch0) (l_mru launch0) (l_now launch0))
  /\ 0 <= selected_index s' < len (tabs s').
Proof.
  apply (run_keeps_selection_in_range latin1_only launch0 (env_at (1000 # 1))
           None (Some 4)).
  discriminate.
Defined.

Lemma mem_false_not_in x l : mem x l = false -> ~ In x l.
Proof.
  unfold mem. intros H Hin.
  assert (existsb (Z.eqb x) l = true)
    by (apply existsb_exists; exists x; split; [exact Hin | apply Z.eqb_refl]).
  congruence.
Qed.

Lemma update_queue_nodup s s' :
  update s s' -> NoDup (preview_queue s) -> NoDup (preview_queue s').
Proof.
  intros Hu Hn.
  destruct Hu as [| | | | | | | | | | |x Hx|x rest Hq| | |]; try exact Hn.
  - cbn. apply NoDup_app; [exact Hn | constructor; [easy | constructor]|].
    intros y Hy [<-|[]]. now apply (mem_false_not_in _ _ Hx).
  - cbn. rewrite Hq in Hn. now inversion Hn.
Qed.

(** X8: no tab id is ever in the refetch queue twice. *)
Theorem run_queue_has_no_duplicates
  (U : unicode_db) (l : Launch) (env : Env) (sent : option bool)
  (poll : option Z) (evs : list (Env * Event)) :
  NoDup (preview_queue (fst (run U l env sent poll evs))).
Proof.
  destruct (run U l env sent poll evs) as [s1 x] eqn:E. cbn [fst].
  destruct (run_shape _ _ _ _ _ _ _ _ E) as (s0 & envx & H0 & ->).
  destruct (finish_frame envx x s0) as (_ & _ & Hq & _). rewrite Hq.
  apply (updates_inv (fun s => NoDup (preview_queue s)) update_queue_nodup _ _ H0).
  constructor.
Qed.

Lemma update_quiet s s' :
  update s s' ->
  exists added, effects s' = effects s ++ added /\ Forall quiet added.
Proof.
  intros []; try (exists []; split; [now rewrite app_nil_r | constructor]);
    eexists; (split; [reflexivity|]); repeat constructor.
Qed.

Lemma updates_quiet s s' :
  updates s s' ->
  exists added, effects s' = effects s ++ added /\ Forall quiet added.
Proof.
  intros H. induction H as [|s1 s2 _ IH Hu].
  - exists []. split; [now rewrite app_nil_r | constructor].
  - destruct IH as (a1 & E1 & Q1). destruct (update_quiet _ _ Hu) as (a2 & E2 & Q2).
    exists (a1 ++ a2). split; [now rewrite E2, E1, app_assoc|].
    apply Forall_app. now split.
Qed.

Lemma commit_effects env s :
  effects (commit env s)
  = effects s ++ match _current_tab_id (commit env s) with
                 | Some t => [ESaveMRU (last_used (commit env s)); EFocusTab t]
                 | None => []
                 end.
Proof.
  assert (Hc : _current_tab_id (commit env s) = _current_tab_id s).
  { unfold _current_tab_id, tab_at.
    destruct (commit_frame env s) as (-> & -> & _). reflexivity. }
  rewrite Hc. unfold commit.
  destruct (_current_tab_id s) as [t|]; [|now rewrite app_nil_r].
  cbn. now rewrite <- app_assoc.
Qed.

Lemma finish_effects env x s0 :
  effects (finish env x s0)
  = effects s0 ++ closing_effects x (finish env x s0).
Proof.
  unfold closing_effects. destruct x as [c|]; cbn [finish];
    [|now rewrite app_nil_r].
  destruct (is_commit c); [apply commit_effects | now rewrite app_nil_r].
Qed.

(** X9: a session switches tabs and persists the MRU order at most once,
    as its last two effects, and only when it returns with a commit on a
    non-empty tab list: everything before is drawing, preview saving and
    the marker. *)
Theorem run_effects_end_with_commit
  (U : unicode_db) (l : Launch) (env : Env) (sent : option bool)
  (poll : option Z) (evs : list (Env * Event)) :
  let r := run U l env sent poll evs in
  exists before,
    effects (fst r) = before ++ closing_effects (snd r) (fst r)
    /\ Forall quiet before.
Proof.
  intros r. subst r.
  destruct (run U l env sent poll evs) as [s1 x] eqn:E. cbn [fst snd].
  destruct (run_shape _ _ _ _ _ _ _ _ E) as (s0 & envx & H0 & ->).
  destruct (updates_quiet _ _ H0) as (added & Ea & Qa).
  exists added. split; [|exact Qa].
  rewrite finish_effects, Ea. reflexivity.
Qed.

(** *** Cycling *)
Lemma str_eqb_eq a b : str_eqb a b = true -> a = b.
Proof. unfold str_eqb. now destruct (list_eq_dec N.eq_dec a b). Qed.

Lemma fold_left_inv {A B} (I : A -> Prop) (f : A -> B -> A) (l : list B) :
  (forall st x, I st -> I (f st x)) -> forall s, I s -> I (fold_left f l s).
Proof.
  intros Hf. induction l as [|x l IH]; intros s Hs; cbn [fold_left];
    [exact Hs|]. apply IH, Hf, Hs.
Qed.

(** A preview that renders is drawn without an exception. *)
Lemma render_ok U lines cols rows mode :
  renders U lines ->
  exists out, render_block_preview U lines cols rows mode = Ok out.
Proof.
  intros Hr. unfold render_block_preview.
  destruct ((rows <=? 0) || (cols <=? 0)); [eauto|].
  destruct (has_ansi lines) eqn:E; [|eauto].
  destruct Hr as [H|[cells H]]; [congruence|]. rewrite H. cbn [bind]. eauto.
Qed.

Lemma cache_get_renders U s k :
  cache_renders U s -> renders U (get_or (preview_cache s) k []).
Proof.
  intros Hc. unfold get_or.
  destruct (dict_get (preview_cache s) k) as [v|] eqn:E; [|now left].
  apply dict_get_in in E. unfold cache_renders in Hc.
  rewrite Forall_forall in Hc. exact (Hc _ E).
Qed.

Lemma draw_card_ok U layout st tab :
  cache_renders U st -> exists out, _draw_card U layout st tab = Ok out.
Proof.
  intros Hc. unfold _draw_card. destruct (lay_title_only layout); [eauto|].
  destruct (render_ok U _ (lay_preview_cols layout) (lay_preview_rows layout)
              (preview_color_mode (theme st)) (cache_get_renders U st (id tab) Hc))
    as [out E].
  rewrite E. cbn [bind]. eauto.
Qed.

Lemma draw_cards_ok U env layout cards : forall st,
  cache_renders U st -> snd (draw_cards U env layout cards st) = None.
Proof.
  induction cards as [|[k tab] cards IH]; intros st Hc; cbn [draw_cards];
    [reflexivity|].
  set (st1 := if _preview_stale _ st (id tab) then _ else st).
  assert (H1 : cache_renders U st1).
  { unfold st1, enqueue, cache_renders.
    destruct (_preview_stale _ _ _); [destruct (mem _ _)|]; exact Hc. }
  destruct (draw_card_ok U layout st1 tab H1) as [out E]. rewrite E.
  now apply IH.
Qed.

Lemma draw_ok U env force s :
  cache_renders U s -> snd (draw U env force s) = None.
Proof.
  intros Hc. unfold draw. destruct (negb force && _); [reflexivity|].
  destruct (tabs _); [reflexivity|]. apply draw_cards_ok. exact Hc.
Qed.

Lemma fetch_renders U env tab :
  captures_render U env -> renders U (_fetch_preview env tab).
Proof.
  intros Hc. unfold _fetch_preview.
  destruct (capture env (window_id tab)) as [[|l ls]|] eqn:E;
    [now left | now apply (Hc _ _ E) | now left].
Qed.

Lemma store_preview_renders U env t tab st :
  captures_render U env -> cache_renders U st ->
  cache_renders U (store_preview env t tab st).
Proof.
  intros He Hc. unfold cache_renders in *.
  cbn [store_preview log_effect with_effects with_preview_cache
       with_preview_cache_ts preview_cache].
  apply Forall_forall. intros [k v] Hin.
  destruct (In_dict_set _ _ _ _ _ Hin) as [Heq|Hold].
  - injection Heq as _ ->. now apply fetch_renders.
  - rewrite Forall_forall in Hc. exact (Hc _ Hold).
Qed.

Lemma ensure_renders U env s :
  captures_render U env -> cache_renders U s ->
  cache_renders U (_ensure_preview_cache env s).
Proof.
  intros He Hc. unfold _ensure_preview_cache.
  destruct (tabs s) as [|t0 ts]; [exact Hc|].
  apply fold_left_inv; [|exact Hc].
  intros st x Hst. destruct (tab_at st (snd x)); [|exact Hst].
  destruct (dict_mem _ _); [exact Hst | now apply store_preview_renders].
Qed.

Lemma move_renders U env d s :
  captures_render U env -> cache_renders U s -> cache_renders U (_move env d s).
Proof.
  intros He Hc. unfold _move. destruct (tabs s) as [|t0 ts]; [exact Hc|].
  apply ensure_renders; [exact He | exact Hc].
Qed.

(** A move, a forced redraw and what follows it when it does not raise. *)
Lemma redraw_facts U env m k :
  (forall c, snd (k c) = None /\ tabs (fst (k c)) = tabs c
             /\ selected_index (fst (k c)) = selected_index c
             /\ preview_cache (fst (k c)) = preview_cache c) ->
  let r := after_draw (draw U env true m) k in
  tabs (fst r) = tabs m /\ selected_index (fst r) = selected_index m
  /\ preview_cache (fst r) = preview_cache m
  /\ (snd r = None \/ exists x, snd r = Some (Raised x))
  /\ (snd (draw U env true m) = None -> snd r = None).
Proof.
  intros Hk r. subst r.
  pose proof (draw_keeps tabs U env true m (fun _ _ => eq_refl)
                (fun _ _ => eq_refl) (fun _ _ => eq_refl)) as Ht.
  pose proof (draw_keeps selected_index U env true m (fun _ _ => eq_refl)
                (fun _ _ => eq_refl) (fun _ _ => eq_refl)) as Hs.
  pose proof (draw_keeps preview_cache U env true m (fun _ _ => eq_refl)
                (fun _ _ => eq_refl) (fun _ _ => eq_refl)) as Hp.
  destruct (draw U env true m) as [c [x|]]; cbn [fst snd after_draw] in *.
  - repeat split; try assumption; [right; eauto | discriminate].
  - destruct (Hk c) as (K1 & K2 & K3 & K4).
    repeat split; try congruence. now left.
Qed.

Lemma schedule_facts env c :
  snd (_schedule_preview_fetch env c, @None Exit) = None
  /\ tabs (fst (_schedule_preview_fetch env c, @None Exit)) = tabs c
  /\ selected_index (fst (_schedule_preview_fetch env c, @None Exit))
     = selected_index c
  /\ preview_cache (fst (_schedule_preview_fetch env c, @None Exit))
     = preview_cache c.
Proof.
  cbn [fst snd]. rewrite schedule_only_queue. repeat split.
Qed.

Lemma cycle_move U env d s0 k s :
  tabs s0 = tabs s -> selected_index s0 = selected_index s ->
  preview_cache s0 = preview_cache s -> tabs s <> [] ->
  (forall c, snd (k c) = None /\ tabs (fst (k c)) = tabs c
             /\ selected_index (fst (k c)) = selected_index c
             /\ preview_cache (fst (k c)) = preview_cache c) ->
  let r := after_draw (draw U env true (_move env d s0)) k in
  tabs (fst r) = tabs s
  /\ selected_index (fst r) = (selected_index s + d) mod len (tabs s)
  /\ (snd r = None \/ exists x, snd r = Some (Raised x))
  /\ (cache_renders U s -> captures_render U env ->
      snd r = None /\ cache_renders U (fst r)).
Proof.
  intros Ht Hs Hp Hne Hk r.
  destruct (redraw_facts U env (_move env d s0) k Hk) as (R1 & R2 & R3 & R4 & R5).
  fold r in R1, R2, R3, R4, R5.
  assert (Hne0 : tabs s0 <> []) by congruence.
  destruct (move_selected env d s0 Hne0) as [M1 M2].
  split; [congruence|]. split; [rewrite R2, M1, Hs, Ht; reflexivity|].
  split; [exact R4|].
  intros Hc He.
  assert (Hc0 : cache_renders U s0) by (unfold cache_renders; now rewrite Hp).
  pose proof (move_renders U env d s0 He Hc0) as Hm.
  split; [apply R5, draw_ok, Hm|].
  unfold cache_renders. rewrite R3. exact Hm.
Qed.

Lemma cycle_step U env e d s :
  cycle_delta e = Some d -> tabs s <> [] ->
  let r := step U env e s in
  tabs (fst r) = tabs s
  /\ selected_index (fst r) = (selected_index s + d) mod len (tabs s)
  /\ (snd r = None \/ exists x, snd r = Some (Raised x))
  /\ (cache_renders U s -> captures_render U env ->
      snd r = None /\ cache_renders U (fst r)).
Proof.
  intros Hd Hne. destruct e as [poll|cmd|ev]; cbn [cycle_delta] in Hd;
    [discriminate| |].
  - cbn [step]. unfold on_command.
    destruct (str_eqb cmd cmd_prev) eqn:Ep.
    + injection Hd as <-. rewrite orb_true_r.
      apply cycle_move; try reflexivity; [exact Hne|].
      intros c. repeat split.
    + destruct (str_eqb cmd cmd_next) eqn:En; [|discriminate].
      injection Hd as <-. cbn [orb].
      apply cycle_move; try reflexivity; [exact Hne|].
      intros c. repeat split.
  - cbn [step]. destruct ev as [k m t]. cbn [key_code event_type] in Hd.
    unfold on_key. cbn [key_code event_type].
    destruct ((k =? TAB_CODE) && ((t =? 1) || (t =? 2))) eqn:Et.
    + injection Hd as <-. apply andb_true_iff in Et as [Ek _].
      apply Z.eqb_eq in Ek. subst k.
      change (TAB_CODE =? MARKER_KEY_CODE) with false.
      change (is_ctrl_key (mkKeyEvent TAB_CODE m t)) with false.
      change (TAB_CODE =? ESC_CODE) with false. cbn [andb].
      unfold redraw_and_schedule.
      destruct (ctrl (mkKeyEvent TAB_CODE m t));
        (apply cycle_move; try reflexivity; [exact Hne|];
         intros c; apply schedule_facts).
    + destruct (k =? - TAB_CODE) eqn:Ek; [|discriminate].
      injection Hd as <-. apply Z.eqb_eq in Ek. subst k.
      change (- TAB_CODE =? MARKER_KEY_CODE) with false.
      change (is_ctrl_key (mkKeyEvent (- TAB_CODE) m t)) with false.
      change (- TAB_CODE =? ESC_CODE) with false.
      change (- TAB_CODE =? TAB_CODE) with false.
      change (- TAB_CODE =? - TAB_CODE) with true. cbn [andb].
      unfold redraw_and_schedule.
      apply cycle_move; try reflexivity; [exact Hne|].
      intros c; apply schedule_facts.
Qed.

Lemma in_range_nonempty s : in_range s -> tabs s <> [].
Proof.
  unfold in_range. intros H E. rewrite E in H. cbn in H. lia.
Qed.

(** X10: cycling events add up.  For a trace of Tab presses and repeats,
    shift-Tabs, legacy back-tabs and [next]/[prev] commands, the selection
    has moved by the sum of the steps of the events handled, modulo the
    number of tabs; the loop is still running, all events handled, unless
    the redraw of one of them raised, which ends [run] after the move of
    that event.  While every preview, cached or captured, is one that
    renders, no redraw raises and the loop is still running. *)
Theorem cycling_adds_up
  (U : unicode_db) (evs : list (Env * Event)) (s : RawSwitcher) :
  in_range s ->
  Forall (fun ee => cycle_delta (snd ee) <> None) evs ->
  let r := run_loop U s evs in
  let done := handled U s evs in
  tabs (fst r) = tabs s
  /\ selected_index (fst r)
     = (selected_index s + total_delta done) mod len (tabs s)
  /\ (snd r = None \/ exists x, snd r = Some (Raised x))
  /\ (snd r = None -> done = evs)
  /\ (cache_renders U s ->
      Forall (fun ee => captures_render U (fst ee)) evs -> snd r = None).
Proof.
  revert s. induction evs as [|[env e] rest IH]; intros s Hr Hall r done;
    subst r done.
  - cbn. split; [reflexivity|]. split.
    { rewrite Z.add_0_r. symmetry. now apply Z.mod_small. }
    split; [now left|]. split; reflexivity.
  - inversion Hall as [|? ? He Hrest]; subst. cbn [snd] in He.
    destruct (cycle_delta e) as [d|] eqn:Ed; [|congruence].
    pose proof (in_range_nonempty s Hr) as Hne.
    pose proof (len_pos _ Hne) as Hpos.
    destruct (cycle_step U env e d s Ed Hne) as (Ht & Hs & Hx & Hok).
    cbn [run_loop handled].
    destruct (step U env e s) as [s1 [x|]]; cbn [fst snd] in Ht, Hs, Hx, Hok |- *.
    + split; [exact Ht|]. split.
      { cbn [total_delta fold_right snd]. rewrite Ed, Z.add_0_r. exact Hs. }
      split; [exact Hx|]. split; [discriminate|].
      intros Hc Hcap. inversion Hcap as [|? ? Hcap1 _]; subst.
      destruct (Hok Hc Hcap1) as [Hn _]. discriminate Hn.
    + assert (Hr1 : in_range s1).
      { unfold in_range. rewrite Hs, Ht. now apply Z.mod_pos_bound. }
      destruct (IH s1 Hr1 Hrest) as (Ht' & Hs' & Hx' & Hd' & Hok').
      split; [congruence|]. split.
      { rewrite Hs', Ht, Hs. cbn [total_delta fold_right snd]. rewrite Ed.
        fold (total_delta (handled U s1 rest)).
        rewrite Z.add_mod_idemp_l by lia. f_equal. lia. }
      split; [exact Hx'|]. split.
      { intros Hn. now rewrite (Hd' Hn). }
      intros Hc Hcap. inversion Hcap as [|? ? Hcap1 Hcap2]; subst.
      destruct (Hok Hc Hcap1) as [_ Hc1]. now apply Hok'.
Qed.

Lemma cycling_adds_up_witness :
  let evs := [(env_at (100005 # 100), Key tab_press);
              (env_at (100010 # 100), Command cmd_next);
              (env_at (100015 # 100), Key shift_tab_press);
              (env_at (100020 # 100), Key tab_press);
              (env_at (100025 # 100), Key (mkKeyEvent TAB_CODE 1 2))] in
  let r := run_loop latin1_only session0 evs in
  let done := handled latin1_only session0 evs in
  tabs (fst r) = tabs session0
  /\ selected_index (fst r)
     = (selected_index session0 + total_delta done) mod len (tabs session0)
  /\ (snd r = None \/ exists x, snd r = Some (Raised x))
  /\ (snd r = None -> done = evs)
  /\ (cache_renders latin1_only session0 ->
      Forall (fun ee => captures_render latin1_only (fst ee)) evs ->
      snd r = None).
Proof.
  apply (cycling_adds_up latin1_only
           [(env_at (100005 # 100), Key tab_press);
            (env_at (100010 # 100), Command cmd_next);
            (env_at (100015 # 100), Key shift_tab_press);
            (env_at (100020 # 100), Key tab_press);
            (env_at (100025 # 100), Key (mkKeyEvent TAB_CODE 1 2))] session0).
  - vm_compute. split; [discriminate | reflexivity].
  - repeat constructor; discriminate.
Defined.






(** *** The MRU order *)
Lemma new_mru_order_perm order tab original :
  NoDup order -> In tab order ->
  (forall o, original = Some o -> In o order) ->
  Permutation order (new_mru_order order tab original).
Proof.
  intros Hn Ht Ho. apply NoDup_Permutation; [exact Hn| |].
  - unfold new_mru_order.
    set (base := filter _ order).
    assert (Hb : NoDup base) by now apply NoDup_filter.
    assert (Hbt : ~ In tab base).
    { unfold base. rewrite filter_In. intros [_ H].
      rewrite Z.eqb_refl in H. discriminate. }
    cbn [app]. constructor.
    + intros Hin. apply in_app_or in Hin as [Hin|Hin]; [|contradiction].
      destruct original as [o|]; [|contradiction].
      destruct (Z.eqb_spec o tab); cbn in Hin; [contradiction|].
      destruct Hin as [->|[]]. congruence.
    + destruct original as [o|]; [|exact Hb].
      destruct (Z.eqb_spec o tab); cbn [negb app]; [exact Hb|].
      constructor; [|exact Hb].
      unfold base. rewrite filter_In. intros [_ H].
      rewrite Z.eqb_refl, orb_true_r in H. discriminate.
  - intros x. unfold new_mru_order. cbn [app]. split.
    + intros Hx. destruct (Z.eq_dec x tab) as [->|Hxt]; [now left|]. right.
      apply in_or_app.
      destruct original as [o|].
      * destruct (Z.eq_dec x o) as [->|Hxo].
        -- left. destruct (Z.eqb_spec o tab); [congruence | now left].
        -- right. apply filter_In. split; [exact Hx|].
           destruct (Z.eqb_spec x tab); [congruence|].
           destruct (Z.eqb_spec x o); [congruence | reflexivity].
      * right. apply filter_In. split; [exact Hx|].
        destruct (Z.eqb_spec x tab); [congruence | reflexivity].
    + intros [<-|Hx]; [exact Ht|].
      apply in_app_or in Hx as [Hx|Hx].
      * destruct original as [o|]; [|contradiction].
        destruct (negb (o =? tab)); [|contradiction].
        destruct Hx as [<-|[]]. now apply Ho.
      * now apply filter_In in Hx.
Qed.

Lemma current_tab_in s tab :
  _current_tab_id s = Some tab -> In tab (map id (tabs s)).
Proof.
  unfold _current_tab_id. destruct (tabs s) as [|t0 ts] eqn:E; [discriminate|].
  rewrite <- E. destruct (tab_at s (selected_index s)) as [t|] eqn:Et;
    [|discriminate].
  intros [= <-]. apply in_map. eapply tab_at_in, Et.
Qed.

(** X12: whatever happens in a session, the MRU order it ends with is a
    permutation of the tab ids the host reported: a commit moves ids to the
    front and neither drops nor repeats one. *)
Theorem run_mru_order_is_permutation
  (U : unicode_db) (l : Launch) (env : Env) (sent : option bool)
  (poll : option Z) (evs : list (Env * Event)) :
  NoDup (map id (l_tabs l)) ->
  Permutation (map id (l_tabs l))
              (mru_order (fst (run U l env sent poll evs))).
Proof.
  intros Hnd.
  destruct (run U l env sent poll evs) as [s1 x] eqn:E. cbn [fst].
  destruct (run_shape _ _ _ _ _ _ _ _ E) as (s0 & envx & H0 & ->).
  destruct (updates_core _ _ H0) as (Ht & _ & Ho & Hm & _).
  destruct (reconcile_ids (l_tabs l) (l_mru l) (l_now l)) as (Hk & Hn & _).
  assert (Hinit : mru_order (init l) = map id (tabs (init l))) by reflexivity.
  assert (Hp : Permutation (map id (l_tabs l)) (mru_order s0)).
  { rewrite Hm, Hinit. apply NoDup_Permutation; [exact Hnd | exact Hn|].
    intros k. symmetry. apply Hk. }
  unfold finish. destruct x as [c|]; [|exact Hp].
  destruct (is_commit c); [|exact Hp].
  unfold commit. destruct (_current_tab_id s0) as [tab|] eqn:Ec; [|exact Hp].
  change (mru_order (log_effect (EFocusTab tab) (_update_mru envx tab s0)))
    with (new_mru_order (mru_order s0) tab (original_tab_id s0)).
  etransitivity; [exact Hp|].
  apply new_mru_order_perm.
  - eapply Permutation_NoDup; [exact Hp | exact Hnd].
  - rewrite Hm, Hinit, <- Ht. now apply current_tab_in.
  - intros o Eo. rewrite Ho in Eo. rewrite Hm, Hinit.
    apply active_tab_id_in. exact Eo.
Qed.

Lemma run_mru_order_is_permutation_witness :
  Permutation (map id (l_tabs launch0))
    (mru_order (fst (run latin1_only launch0 (env_at (1000 # 1)) None (Some 4)
                         [(env_at (100005 # 100), Key tab_press);
                          (env_at (100010 # 100), Key (mkKeyEvent 57442 1 3))]))).
Proof.
  apply (run_mru_order_is_permutation latin1_only launch0 (env_at (1000 # 1))
           None (Some 4)).
  repeat constructor; cbn; intuition discriminate.
Defined.

(** *** Ticks *)
Lemma timeout_guards_elapsed env s :
  match snd (timeout_guards env s) with
  | Some MarkerNoCtrlTimeoutCommit =>
      (15 # 100 < clock env (AtGuard 0) - start_time s)%Q
  | Some InitialCtrlUpCommit =>
      (8 # 100 < clock env (AtGuard 1) - start_time s)%Q
  | Some NoMarkerTimeoutCommit =>
      (2 # 10 < clock env (AtGuard 2) - start_time s)%Q
  | Some NoTabTimeoutCommit =>
      (2 # 10 < clock env (AtGuard 3) - start_time s)%Q
  | Some _ => False
  | None => True
  end.
Proof.
  unfold timeout_guards, elapsed_over.
  repeat match goal with
         | |- context [if ?c then _ else _] => destruct c eqn:?
         end; cbn [snd]; try exact I;
    repeat match goal with
           | H : _ && _ = true |- _ => apply andb_true_iff in H as [? ?]
           end;
    now apply Qltb_spec.
Qed.

(** X13: a tick never cancels, and its timeouts have their floors: it
    returns on the marker timeout only after 0.15 s since the start, on the
    initial-modifier timeout only after 0.08 s, on the no-marker and no-Tab
    timeouts only after 0.2 s, each by the reading of the clock its own
    guard makes; only the modifier poll can return earlier.  Besides
    returning, a tick can end [run] with an exception of its redraw. *)
Theorem tick_exit_needs_elapsed
  (U : unicode_db) (env : Env) (poll : option Z) (s : RawSwitcher) :
  match snd (on_tick U env poll s) with
  | Some CtrlPollCommit => ctrl_mask s <> None /\ poll <> None
  | Some MarkerNoCtrlTimeoutCommit =>
      (15 # 100 < clock env (AtGuard 0) - start_time s)%Q
  | Some InitialCtrlUpCommit =>
      (8 # 100 < clock env (AtGuard 1) - start_time s)%Q
  | Some NoMarkerTimeoutCommit =>
      (2 # 10 < clock env (AtGuard 2) - start_time s)%Q
  | Some NoTabTimeoutCommit =>
      (2 # 10 < clock env (AtGuard 3) - start_time s)%Q
  | Some (Raised _) => snd (idle_refresh U env s) <> None
  | Some _ => False
  | None => True
  end.
Proof.
  unfold on_tick.
  destruct (updates_core _ _ (idle_updates U env s)) as (_ & Hst & _ & _ & _ & Hm).
  destruct (idle_refresh U env s) as [si [e|]]; cbn [fst snd after_draw] in *;
    [discriminate|].
  rewrite <- Hst, <- Hm.
  unfold poll_oracle.
  pose proof (timeout_guards_elapsed env si) as Hg.
  pose proof (timeout_guards_exit env si) as Hx.
  destruct (ctrl_mask si) as [mask|];
    [|destruct (snd (timeout_guards env si)) as [[]|];
      congruence || contradiction || exact Hg].
  destruct poll as [m|];
    [|destruct (snd (timeout_guards env si)) as [[]|];
      congruence || contradiction || exact Hg].
  destruct (ctrl_is_down m mask).
  - set (sf := with_ctrl_up_streak 0 _).
    pose proof (timeout_guards_elapsed env sf) as Hg'.
    pose proof (timeout_guards_exit env sf) as Hx'.
    change (start_time sf) with (start_time si) in Hg'.
    destruct (snd (timeout_guards env sf)) as [[]|];
      congruence || contradiction || exact Hg'.
  - destruct (_ && _); cbn [snd]; [split; discriminate|].
    set (sf := with_ctrl_up_streak _ si).
    pose proof (timeout_guards_elapsed env sf) as Hg'.
    pose proof (timeout_guards_exit env sf) as Hx'.
    change (start_time sf) with (start_time si) in Hg'.
    destruct (snd (timeout_guards env sf)) as [[]|];
      congruence || contradiction || exact Hg'.
Qed.

Lemma draw_cards_effects U env layout cards : forall st,
  effects (fst (draw_cards U env layout cards st)) = effects st.
Proof. apply (draw_cards_keeps effects). reflexivity. Qed.

Lemma draw_effects U env force s :
  exists d, effects (fst (draw U env force s)) = effects s ++ d
            /\ filter is_save_previews d = [].
Proof.
  unfold draw. destruct (negb force && _).
  { exists []. split; [now rewrite app_nil_r | reflexivity]. }
  exists [EDraw force (selected_index s)]. split; [|reflexivity].
  destruct (tabs _); [reflexivity|].
  now rewrite draw_cards_effects.
Qed.

Lemma closing_effects_no_fetch x s :
  filter is_save_previews (closing_effects x s) = [].
Proof.
  unfold closing_effects. destruct x as [c|]; [|reflexivity].
  destruct (is_commit c); [|reflexivity].
  destruct (_current_tab_id s); reflexivity.
Qed.

Lemma timeout_guards_effects env s s0 :
  effects s = effects s0 ->
  exists tail, effects (fst (timeout_guards env s)) = effects s0 ++ tail
               /\ filter is_save_previews tail = [].
Proof.
  intros E. rewrite timeout_guards_shape, finish_effects, E.
  eexists. split; [reflexivity | apply closing_effects_no_fetch].
Qed.

Lemma poll_oracle_effects env poll s :
  exists tail, effects (fst (poll_oracle env poll s)) = effects s ++ tail
               /\ filter is_save_previews tail = [].
Proof.
  unfold poll_oracle.
  destruct (ctrl_mask s) as [mask|]; [|now apply timeout_guards_effects].
  destruct poll as [m|]; [|now apply timeout_guards_effects].
  destruct (ctrl_is_down m mask); [now apply timeout_guards_effects|].
  destruct (_ && _); [|now apply timeout_guards_effects].
  cbn [fst]. rewrite commit_effects.
  eexists. split; [reflexivity|].
  destruct (_current_tab_id _); reflexivity.
Qed.

Lemma idle_refresh_effects U env s :
  exists added, effects (fst (idle_refresh U env s)) = effects s ++ added
                /\ (length (filter is_save_previews added) <= 1)%nat.
Proof.
  unfold idle_refresh, _drain_preview_queue.
  assert (Hnone : exists added, effects s = effects s ++ added
                    /\ (length (filter is_save_previews added) <= 1)%nat).
  { exists []. split; [now rewrite app_nil_r | cbn; lia]. }
  destruct (preview_queue s) as [|tid rest]; [exact Hnone|].
  destruct (_tab_by_id _ tid) as [tab|]; [|exact Hnone].
  destruct (_preview_stale _ _ _); [|exact Hnone].
  destruct (draw_effects U env false
              (store_preview env (clock env AtRefresh) tab
                             (with_preview_queue rest s)))
    as (d & Ed & Fd).
  rewrite Ed. cbn [store_preview log_effect effects with_effects].
  eexists (_ :: d). split; [now rewrite <- app_assoc|].
  cbn [filter is_save_previews]. rewrite Fd. cbn. lia.
Qed.

(** X14: a tick refetches at most one preview: among the effects it adds
    there is at most one save of the preview cache. *)
Theorem tick_fetches_at_most_one_preview
  (U : unicode_db) (env : Env) (poll : option Z) (s : RawSwitcher) :
  exists added,
    effects (fst (on_tick U env poll s)) = effects s ++ added
    /\ (length (filter is_save_previews added) <= 1)%nat.
Proof.
  unfold on_tick.
  destruct (idle_refresh_effects U env s) as (a1 & E1 & L1).
  destruct (idle_refresh U env s) as [si [e|]]; cbn [fst after_draw] in *.
  - exists a1. now split.
  - destruct (poll_oracle_effects env poll si) as (a2 & E2 & F2).
    exists (a1 ++ a2). split; [now rewrite E2, E1, app_assoc|].
    rewrite filter_app, length_app, F2. cbn. lia.
Qed.

(** *** The preview cache *)

(** X15: a preview stored at one reading of the clock is found in the
    cache and counts as fresh until 0.5 s later, when it is due again;
    storing it changes the freshness of no other tab. *)
Theorem stored_preview_freshness
  (env : Env) (t t' : Q) (tab : TabInfo) (s : RawSwitcher) :
  let s' := store_preview env t tab s in
  dict_get (preview_cache s') (id tab) = Some (_fetch_preview env tab)
  /\ _preview_stale t' s' (id tab) = Qle_bool PREVIEW_REFRESH_SECS (t' - t)
  /\ forall k, k <> id tab -> _preview_stale t' s' k = _preview_stale t' s k.
Proof.
  intros s'. subst s'. unfold _preview_stale, dict_mem, get_or.
  cbn [store_preview log_effect with_effects with_preview_cache
       with_preview_cache_ts preview_cache preview_cache_ts].
  rewrite !dict_get_set_same. cbn [negb].
  split; [reflexivity|]. split; [reflexivity|].
  intros k Hk. now rewrite !dict_get_set_other by exact Hk.
Qed.

Lemma store_preview_mem env t tab st k :
  dict_mem (preview_cache st) k = true ->
  dict_mem (preview_cache (store_preview env t tab st)) k = true.
Proof.
  rewrite !dict_mem_keys. intros H.
  cbn [store_preview log_effect with_effects with_preview_cache
       with_preview_cache_ts preview_cache].
  apply keys_dict_set. now right.
Qed.

Lemma store_preview_mem_self env t tab st :
  dict_mem (preview_cache (store_preview env t tab st)) (id tab) = true.
Proof.
  rewrite dict_mem_keys.
  cbn [store_preview log_effect with_effects with_preview_cache
       with_preview_cache_ts preview_cache].
  apply keys_dict_set. now left.
Qed.

Lemma tab_at_same_tabs s1 s2 i : tabs s1 = tabs s2 -> tab_at s1 i = tab_at s2 i.
Proof. unfold tab_at. now intros ->. Qed.

Lemma tab_at_in_range s i :
  0 <= i < len (tabs s) -> exists tab, tab_at s i = Some tab.
Proof.
  intros H. unfold tab_at. destruct (Z.ltb_spec i 0); [lia|].
  destruct (nth_error (tabs s) (Z.to_nat i)) eqn:E; [eauto|].
  apply nth_error_None in E. unfold len in H. lia.
Qed.

(** A loop over a set visits every element. *)
Lemma set_iter_in env l x : In x (set_iter env l) <-> In x l.
Proof.
  unfold set_iter. rewrite <- (nodup_In Z.eq_dec l x).
  split; apply Permutation_in;
    [symmetry; apply sorted_by_perm | apply sorted_by_perm].
Qed.

(** The cache loop: the tab list is left alone, nothing leaves the cache,
    and every index visited ends up cached. *)
Lemma ensure_fold env g l :
  g = (fun st (it : Z * Z) =>
         match tab_at st (snd it) with
         | Some tab =>
             if dict_mem (preview_cache st) (id tab) then st
             else store_preview env (clock env (AtFill (fst it))) tab st
         | None => st
         end) ->
  forall st,
  tabs (fold_left g l st) = tabs st
  /\ (forall k, dict_mem (preview_cache st) k = true ->
                dict_mem (preview_cache (fold_left g l st)) k = true)
  /\ (forall i tab, In i (map snd l) -> tab_at st i = Some tab ->
                    dict_mem (preview_cache (fold_left g l st)) (id tab) = true).
Proof.
  intros Hg. induction l as [|x l IH]; intros st; cbn [fold_left map].
  - split; [reflexivity|]. split; [auto | intros ? ? []].
  - destruct (IH (g st x)) as (Ht & Hm & Hc).
    assert (Hgt : tabs (g st x) = tabs st).
    { rewrite Hg. destruct (tab_at st (snd x)); [|reflexivity].
      destruct (dict_mem _ _); reflexivity. }
    assert (Hgm : forall k, dict_mem (preview_cache st) k = true ->
                            dict_mem (preview_cache (g st x)) k = true).
    { intros k Hk. rewrite Hg. destruct (tab_at st (snd x)) as [t|]; [|exact Hk].
      destruct (dict_mem (preview_cache st) (id t));
        [exact Hk | now apply store_preview_mem]. }
    split; [congruence|]. split; [auto|].
    intros i tab [<-|Hi] Hti.
    + apply Hm. rewrite Hg. rewrite Hti.
      destruct (dict_mem (preview_cache st) (id tab)) eqn:E;
        [exact E | apply store_preview_mem_self].
    + apply (Hc i tab Hi). rewrite <- Hti. now apply tab_at_same_tabs.
Qed.

Lemma move_unfold env d s :
  tabs s <> [] ->
  let s1 := with_selected_index ((selected_index s + d) mod len (tabs s)) s in
  _move env d s
  = fold_left
      (fun st (it : Z * Z) =>
         match tab_at st (snd it) with
         | Some tab =>
             if dict_mem (preview_cache st) (id tab) then st
             else store_preview env (clock env (AtFill (fst it))) tab st
         | None => st
         end)
      (enumerate (set_iter env (neighbourhood s1))) s1.
Proof.
  intros Hne s1. subst s1. unfold _move, _ensure_preview_cache.
  destruct (tabs s) as [|t0 ts] eqn:E; [congruence|].
  cbn [tabs with_selected_index]. rewrite E. reflexivity.
Qed.

(** X16: after a move the selected tab and its two neighbours are in the
    preview cache, in whatever order the loop visits them. *)
Theorem move_caches_neighbourhood (env : Env) (d : Z) (s : RawSwitcher) :
  tabs s <> [] ->
  let s' := _move env d s in
  Forall (fun i => exists tab, tab_at s' i = Some tab
                               /\ dict_mem (preview_cache s') (id tab) = true)
         (neighbourhood s').
Proof.
  intros Hne s'. subst s'.
  destruct (move_selected env d s Hne) as [Hsel Htabs].
  pose proof (len_pos _ Hne) as Hpos.
  pose proof (move_unfold env d s Hne) as Hmv. cbv zeta in Hmv.
  set (s1 := with_selected_index _ s) in Hmv.
  assert (Hnb : neighbourhood (_move env d s) = neighbourhood s1).
  { unfold neighbourhood. now rewrite Htabs, Hsel. }
  rewrite Hnb.
  destruct (ensure_fold env _ (enumerate (set_iter env (neighbourhood s1)))
              eq_refl s1) as (Ht & _ & Hc).
  rewrite <- Hmv in Ht, Hc.
  apply Forall_forall. intros i Hi.
  assert (Hin : 0 <= i < len (tabs s1)).
  { change (tabs s1) with (tabs s). unfold neighbourhood in Hi.
    change (tabs s1) with (tabs s) in Hi.
    destruct Hi as [<-|[<-|[<-|[]]]]; apply Z.mod_pos_bound; lia. }
  destruct (tab_at_in_range s1 i Hin) as [tab Etab].
  exists tab. split.
  - rewrite <- Etab. now apply tab_at_same_tabs.
  - apply (Hc i tab); [|exact Etab].
    rewrite enumerate_snd. now apply set_iter_in.
Qed.

Lemma move_caches_neighbourhood_witness :
  let s' := _move (env_at (1001 # 1)) 1 session0 in
  Forall (fun i => exists tab, tab_at s' i = Some tab
                               /\ dict_mem (preview_cache s') (id tab) = true)
         (neighbourhood s').
Proof.
  apply (move_caches_neighbourhood (env_at (1001 # 1)) 1 session0).
  discriminate.
Defined.

(** *** The active tab after reconciliation *)
Lemma reconcile_strictly_sorted tabs mru now :
  NoDup (map id tabs) ->
  Permutation tabs (fst (_reconcile_mru tabs mru now))
  /\ StronglySorted (mru_before tabs mru now) (fst (_reconcile_mru tabs mru now)).
Proof.
  intros Hnd. rewrite (reconcile_mru_sorted tabs mru now Hnd). cbn [fst].
  assert (Hperm : Permutation tabs (sorted_by (tab_before tabs mru now) tabs))
    by apply sorted_by_perm.
  split; [exact Hperm|].
  apply sorted_strict.
  - apply (Permutation_NoDup (Permutation_map id Hperm) Hnd).
  - intros x Hx. eapply Permutation_in; [symmetry; exact Hperm | exact Hx].
  - apply sorted_by_sorted.
    + intros a b. apply key_lt_asym.
    + intros a b c. apply key_le_trans.
Qed.

Lemma py_max_ge a b : (b <= py_max a b)%Q.
Proof.
  unfold py_max. destruct (Qltb a b) eqn:E; [lra|].
  destruct (Qlt_le_dec a b) as [H|H]; [|exact H].
  apply Qltb_spec in H. congruence.
Qed.

(** X17: with distinct tab ids, the active tab comes out first whenever
    every other tab's score is below the current time. *)
Theorem reconcile_puts_active_first
  (tabs : list TabInfo) (mru : list (Z * Q)) (now : Q) (a : Z) :
  NoDup (map id tabs) ->
  _active_tab_id tabs = Some a ->
  (forall t, In t tabs -> id t <> a -> (base_score tabs mru t < now)%Q) ->
  option_map id (hd_error (fst (_reconcile_mru tabs mru now))) = Some a.
Proof.
  intros Hnd Ha Hlow.
  destruct (reconcile_strictly_sorted tabs mru now Hnd) as [Hperm Hsorted].
  pose proof (active_tab_id_in _ _ Ha) as Hin.
  apply in_map_iff in Hin as (ta & Hta & Hta_in).
  set (res := fst (_reconcile_mru tabs mru now)) in *.
  assert (Hres : In ta res) by (eapply Permutation_in; eassumption).
  destruct res as [|h rest]; [contradiction|]. cbn [hd_error option_map].
  destruct (Z.eq_dec (id h) a) as [Heq|Hne]; [now rewrite Heq|]. exfalso.
  destruct Hres as [->|Hrest]; [congruence|].
  apply StronglySorted_inv in Hsorted as [_ Hall].
  rewrite Forall_forall in Hall. specialize (Hall ta Hrest).
  assert (Hh : In h tabs)
    by (eapply Permutation_in; [symmetry; exact Hperm | now left]).
  assert (Fh : final_score tabs mru now h = base_score tabs mru h).
  { unfold final_score. rewrite Ha.
    destruct (Z.eqb_spec (id h) a); [congruence | reflexivity]. }
  assert (Fa : (now <= final_score tabs mru now ta)%Q).
  { unfold final_score. rewrite Ha, Hta, Z.eqb_refl. apply py_max_ge. }
  specialize (Hlow h Hh Hne).
  unfold mru_before in Hall. rewrite Fh in Hall.
  destruct Hall as [H|[H _]]; lra.
Qed.

Lemma reconcile_puts_active_first_witness :
  option_map id
    (hd_error (fst (_reconcile_mru [tab1; tab2'; tab3]
                      [(2, 5 # 1); (1, 10 # 1)] (1000 # 1))))
  = Some 3.
Proof.
  apply (reconcile_puts_active_first [tab1; tab2'; tab3]
           [(2, 5 # 1); (1, 10 # 1)] (1000 # 1) 3).
  - repeat constructor; cbn; intuition discriminate.
  - reflexivity.
  - intros t [<-|[<-|[<-|[]]]] Hne; vm_compute; congruence.
Defined.

(** A preview that does not render ends [run] with the exception of the
    renderer: with the line [ESC \[ ² m] in the store the first frame
    raises on a terminal of 120 columns; on 80 columns the cards have
    titles only, nothing is rendered and the loop is entered. *)
Example run_raises_on_bad_preview :
  snd (run latin1_only launch_bad (env_wide (1000 # 1)) None (Some 4) [])
  = Some (Raised ValueError)
  /\ snd (run latin1_only launch_bad (env_at (1000 # 1)) None (Some 4) [])
     = None.
Proof. split; vm_compute; reflexivity. Qed.

End SwitcherMore.
